(** * Netproc: connection table, fd resolver and clock formatting

    A shallow embedding of [src/connection.c], of the matching loop of
    [dir.c] and of [sec2clock] from [src/timer.c], with the properties the
    specification states about them.

    C integers are [Z] with their wrap-around written out, character
    buffers are [list ascii], the heap of [connection_t] records is a list
    indexed by address, and the functions that follow pointers run in a
    state monad that stops at a fault, so that a read through a freed
    pointer is visible. *)

From Stdlib Require Import ZArith String Ascii List Lia Bool.
From stdpp Require Import base tactics option list.

Open Scope Z_scope.

(** ** C integer conversions *)

Module CInt.

(** Conversion to an unsigned type of [w] bits. *)
Definition to_unsigned (w : Z) (x : Z) : Z := x mod 2 ^ w.

(** Conversion to a signed type of [w] bits (two's complement, as gcc
    and clang define the out-of-range case). *)
Definition to_signed (w : Z) (x : Z) : Z :=
  let u := x mod 2 ^ w in
  if u <? 2 ^ (w - 1) then u else u - 2 ^ w.

Definition to_int (x : Z) : Z := to_signed 32 x.

End CInt.

(** ** printf conversions for [int] *)

Module Printf.

Definition digit_char (d : Z) : ascii :=
  ascii_of_nat (48 + Z.to_nat d).

(** Decimal digits of a non-negative number, most significant first;
    [fuel] bounds the number of digits (ten are enough for an [int]). *)
Fixpoint dec_digits (fuel : nat) (n : Z) (acc : list ascii) : list ascii :=
  match fuel with
  | O => acc
  | S f =>
      let acc' := digit_char (n mod 10) :: acc in
      if n / 10 =? 0 then acc' else dec_digits f (n / 10) acc'
  end.

Definition dec_of_nonneg (n : Z) : list ascii := dec_digits 10 n [].

Definition zero_pad (width : nat) (ds : list ascii) : list ascii :=
  repeat "0"%char (width - length ds) ++ ds.

(** [%0<width>d]: the sign counts towards the width. *)
Definition fmt_0d (width : nat) (n : Z) : list ascii :=
  if n <? 0
  then "-"%char :: zero_pad (width - 1) (dec_of_nonneg (- n))
  else zero_pad width (dec_of_nonneg n).

(** [%d] *)
Definition fmt_d (n : Z) : list ascii := fmt_0d 0 n.

(** What [snprintf (buf, size, ...)] leaves in [buf] before the
    terminating NUL. *)
Definition snprintf_trunc (size : nat) (out : list ascii) : list ascii :=
  firstn (size - 1) out.

End Printf.

(** ** [src/timer.c] *)

Module Timer.
Import CInt Printf.

Definition LEN_BUFF_CLOCK : nat := 14.

Definition colon : list ascii := [":"%char].

(** The three [int] arguments of the [snprintf] call.  The cast binds
    tighter than the division, so the hour is [(int) secs] divided by
    3600 (C division truncates towards zero); minute and second are
    computed on the [uint64_t] remainder. *)
Definition clock_hour (secs : Z) : Z := Z.quot (to_int secs) 3600.
Definition clock_minute (secs : Z) : Z := Z.quot (to_int (secs mod 3600)) 60.
Definition clock_second (secs : Z) : Z := Z.rem (to_int (secs mod 3600)) 60.

(** [sec2clock], for [secs] a [uint64_t]: the contents of the static
    buffer [clock] up to its NUL. *)
Definition sec2clock_buf (secs : Z) : list ascii :=
  snprintf_trunc LEN_BUFF_CLOCK
    (fmt_0d 2 (clock_hour secs) ++ colon ++
     fmt_0d 2 (clock_minute secs) ++ colon ++
     fmt_0d 2 (clock_second secs)).

Definition sec2clock (secs : Z) : string :=
  string_of_list_ascii (sec2clock_buf secs).

(** The text of a clock with the given fields, each printed with
    [%02d]. *)
Definition clock_text (h m s : Z) : string :=
  string_of_list_ascii
    (fmt_0d 2 h ++ colon ++ fmt_0d 2 m ++ colon ++ fmt_0d 2 s).

End Timer.

(** ** The [sscanf] directives the sources use *)

Module Scanf.
Import CInt.

Definition code (c : ascii) : Z := Z.of_nat (nat_of_ascii c).

Definition isspace (c : ascii) : bool :=
  (code c =? 32) || ((9 <=? code c) && (code c <=? 13)).

Definition is_dec (c : ascii) : bool := (48 <=? code c) && (code c <=? 57).

(** The scanset [0-9A-Fa-f], which is also the set of hexadecimal digits. *)
Definition is_hex (c : ascii) : bool :=
  is_dec c || ((65 <=? code c) && (code c <=? 70))
           || ((97 <=? code c) && (code c <=? 102)).

Definition digit_value (c : ascii) : Z :=
  if is_dec c then code c - 48
  else if (65 <=? code c) && (code c <=? 70) then code c - 55
  else code c - 87.

Definition digits_value (base : Z) (ds : list ascii) : Z :=
  fold_left (fun acc c => acc * base + digit_value c) ds 0.

Fixpoint skip_space (s : list ascii) : list ascii :=
  match s with
  | c :: rest => if isspace c then skip_space rest else s
  | [] => []
  end.

(** The longest prefix of [s] made of characters in [p]. *)
Fixpoint span (p : ascii -> bool) (s : list ascii) : list ascii * list ascii :=
  match s with
  | c :: rest =>
      if p c then let '(a, b) := span p rest in (c :: a, b) else ([], s)
  | [] => ([], [])
  end.

(** The same, of at most [n] characters (a field width). *)
Fixpoint span_n (n : nat) (p : ascii -> bool) (s : list ascii)
    : list ascii * list ascii :=
  match n, s with
  | S n', c :: rest =>
      if p c then let '(a, b) := span_n n' p rest in (c :: a, b) else ([], s)
  | _, _ => ([], s)
  end.

Inductive conv :=
| Dec                                 (* d, u: decimal integer *)
| Hex                                 (* x, X: hexadecimal integer *)
| Scanset (width : nat) (set : ascii -> bool)   (* %<width>[set] *)
| Str (width : nat).                  (* %<width>s *)

(** Where a converted value is stored: nowhere ([*]), in an unsigned
    integer of the given width, or in a character array. *)
Inductive target :=
| Suppressed
| Unsigned (bits : Z)
| Chars.

Inductive directive :=
| White                               (* white space in the format *)
| Lit (c : ascii)                     (* an ordinary character *)
| Conv (t : target) (c : conv).

Inductive value :=
| VNum (z : Z)
| VStr (s : list ascii).

Inductive outcome :=
| Matched (v : value) (rest : list ascii)
| MatchingFailure
| InputFailure.

Definition strip_sign (s : list ascii) : Z * list ascii :=
  match s with
  | c :: rest =>
      if Ascii.eqb c "-" then (-1, rest)
      else if Ascii.eqb c "+" then (1, rest)
      else (1, s)
  | [] => (1, s)
  end.

(** The optional [0x] of a hexadecimal subject, taken only when a digit
    follows it. *)
Definition strip_0x (s : list ascii) : list ascii :=
  match s with
  | z :: x :: d :: rest =>
      if Ascii.eqb z "0" && (Ascii.eqb x "x" || Ascii.eqb x "X") && is_hex d
      then d :: rest else s
  | _ => s
  end.

Definition scan_integer (base : Z) (s : list ascii) : outcome :=
  match skip_space s with
  | [] => InputFailure
  | s1 =>
      let '(sign, s2) := strip_sign s1 in
      let s3 := if base =? 16 then strip_0x s2 else s2 in
      match span (if base =? 16 then is_hex else is_dec) s3 with
      | ([], _) => MatchingFailure
      | (ds, rest) => Matched (VNum (sign * digits_value base ds)) rest
      end
  end.

Definition scan_conv (c : conv) (s : list ascii) : outcome :=
  match c with
  | Dec => scan_integer 10 s
  | Hex => scan_integer 16 s
  | Scanset width set =>
      match s with
      | [] => InputFailure
      | _ => match span_n width set s with
             | ([], _) => MatchingFailure
             | (cs, rest) => Matched (VStr cs) rest
             end
      end
  | Str width =>
      match skip_space s with
      | [] => InputFailure
      | s1 => let '(cs, rest) := span_n width (fun c => negb (isspace c)) s1 in
              Matched (VStr cs) rest
      end
  end.

(** The value as the pointed-to object holds it.  A number that does not
    fit is undefined in ISO C; the model keeps its low bits.  (The C
    library converts through [strtoul] or [strtol], which stop at
    [ULONG_MAX] or [LONG_MAX] before the low bits are kept: the two
    differ only for a number of more than 63 bits, longer than any column
    of the kernel's files.) *)
Definition stored (t : target) (v : value) : option value :=
  match t, v with
  | Suppressed, _ => None
  | Unsigned bits, VNum z => Some (VNum (to_unsigned bits z))
  | _, v => Some v
  end.

Definition EOF : Z := -1.

(** [sscanf]: the directives are run in order until one fails.  The result
    is the number of values stored, or [EOF] when the input ends before a
    first value is stored (the C library tests its count of stored
    values, so conversions with [*] do not count), together with the
    stored values. *)
Fixpoint sscanf_from (fmt : list directive) (s : list ascii)
    (some_stored : bool) (args : list value) : Z * list value :=
  match fmt with
  | [] => (Z.of_nat (length args), args)
  | White :: fmt' => sscanf_from fmt' (skip_space s) some_stored args
  | Lit c :: fmt' =>
      match s with
      | [] => (if some_stored then Z.of_nat (length args) else EOF, args)
      | c' :: rest =>
          if Ascii.eqb c c' then sscanf_from fmt' rest some_stored args
          else (Z.of_nat (length args), args)
      end
  | Conv t c :: fmt' =>
      match scan_conv c s with
      | Matched v rest =>
          match stored t v with
          | Some v' => sscanf_from fmt' rest true (args ++ [v'])
          | None => sscanf_from fmt' rest some_stored args
          end
      | MatchingFailure => (Z.of_nat (length args), args)
      | InputFailure =>
          (if some_stored then Z.of_nat (length args) else EOF, args)
      end
  end.

Definition sscanf (s : list ascii) (fmt : list directive) : Z * list value :=
  sscanf_from fmt s false [].

End Scanf.

(** ** [src/connection.c] *)

Module Conn.
Import CInt Scanf.

(** Modelled from the spec: [struct tuple] of connection.h, which is not
    among the sources.  The fields are those of section 3, under the names
    connection.c uses ([l3.local.ip], [l3.remote.ip], [l4.local_port],
    [l4.remote_port], [l4.protocol]). *)
Record struct_tuple := {
  local_ip : Z;
  remote_ip : Z;
  local_port : Z;
  remote_port : Z;
  protocol : Z
}.

(** Modelled from the spec: [connection_t] of connection.h, which is not
    among the sources.  [use] is the reference count of section 3; the
    statistics, which connection.c never touches, are left out. *)
Record connection_t := {
  inode : Z;
  tuple : struct_tuple;
  state : Z;
  active : bool;
  use : Z
}.

Definition with_active (b : bool) (c : connection_t) : connection_t :=
  {| inode := inode c; tuple := tuple c; state := state c;
     active := b; use := use c |}.

Definition with_use (u : Z) (c : connection_t) : connection_t :=
  {| inode := inode c; tuple := tuple c; state := state c;
     active := active c; use := u |}.

Definition KEY_INODE : Z := 1.
Definition KEY_TUPLE : Z := 2.

(** <netinet/tcp.h> and <netinet/in.h> *)
Definition TCP_TIME_WAIT : Z := 6.
Definition TCP_LISTEN : Z := 10.
Definition IPPROTO_TCP : Z := 6.
Definition IPPROTO_UDP : Z := 17.

(** Modelled from the spec: the flags [TCP] and [UDP] of config.h, which is
    not among the sources; two distinct bits of the set of protocols that
    [update] is given. *)
Definition TCP : Z := 1.
Definition UDP : Z := 2.

(** Where connection.h puts the members of its two structs is not known,
    and the spec does not say.  It decides what the callbacks read when
    the table compares a key of one shape as if it had the other (the one
    table holds both), so it is a parameter: the [unsigned long] that the
    first eight bytes of a [struct tuple] make, the bytes of the
    [struct tuple] after these eight, and the bytes of a record that
    follow its member [inode], as far as [sizeof (struct tuple)]
    reaches. *)
Class layout := {
  tuple_head : struct_tuple -> Z;
  tuple_rest : struct_tuple -> list Z;
  after_inode : connection_t -> list Z
}.

(** What a key pointer handed to the table points to: the [inode] of a
    record or of the caller, or a [struct tuple]. *)
Inductive key :=
| KInode (i : Z)
| KTuple (t : struct_tuple).

Definition tuple_eqb (a b : struct_tuple) : bool :=
  (local_ip a =? local_ip b) && (remote_ip a =? remote_ip b) &&
  (local_port a =? local_port b) && (remote_port a =? remote_port b) &&
  (protocol a =? protocol b).

Definition key_eqb (a b : key) : bool :=
  match a, b with
  | KInode i, KInode j => i =? j
  | KTuple t, KTuple u => tuple_eqb t u
  | _, _ => false
  end.

(** An entry of the table: the key pointer and the value.  In the source
    the key is a pointer into a record ([&conn->inode], [&conn->tuple]):
    [e_conn] is the address of that record and [e_key] what the member
    holds, which is not written once the record is inserted.  [e_value]
    is the address of the record the entry gives. *)
Record entry := { e_key : key; e_value : nat; e_conn : nat }.

Definition entry_eqb (a b : entry) : bool :=
  key_eqb (e_key a) (e_key b) && (e_value a =? e_value b)%nat &&
  (e_conn a =? e_conn b)%nat.

(** The static [ht_connections]: [NULL], a table with its chain of
    entries, or the address of a table that [hashtable_destroy] has
    freed. *)
Inductive table :=
| NULL
| Table (chain : list entry)
| Freed.

(** The memory connection.c works on: the records ([None] once freed, an
    address is never handed out twice), the static [ht_connections] and
    the static [key_type]. *)
Record world := {
  heap : list (option connection_t);
  ht_connections : table;
  key_type : Z
}.

Definition with_heap (h : list (option connection_t)) (w : world) : world :=
  {| heap := h; ht_connections := ht_connections w; key_type := key_type w |}.

Definition with_table (t : table) (w : world) : world :=
  {| heap := heap w; ht_connections := t; key_type := key_type w |}.

Definition with_key_type (k : Z) (w : world) : world :=
  {| heap := heap w; ht_connections := ht_connections w; key_type := k |}.

(** The program starts with no record, no table and [key_type] zero. *)
Definition boot : world :=
  {| heap := []; ht_connections := NULL; key_type := 0 |}.

Inductive fault :=
| UseAfterFree (p : nat)
| DoubleFree (p : nat)
| NullTable
| FreedTable.

(** A computation on the memory that may stop at a fault. *)
Definition M (A : Type) : Type := world -> fault + A * world.

Definition ret {A} (a : A) : M A := fun w => inr (a, w).

Definition bind {A B} (m : M A) (k : A -> M B) : M B :=
  fun w => match m w with
           | inl f => inl f
           | inr (a, w') => k a w'
           end.

Notation "'let*' x := m 'in' k" := (bind m (fun x => k))
  (at level 10, x name, m at level 100, k at level 200).
Notation "m ;; k" := (bind m (fun _ => k))
  (at level 100, k at level 200, right associativity).

Definition get_world : M world := fun w => inr (w, w).

(** [calloc (1, sizeof (connection_t))]: a new address that holds [c]
    (the zeroed record at the call site).  The allocation is taken to
    succeed. *)
Definition calloc (c : connection_t) : M nat :=
  fun w => inr (length (heap w), with_heap (heap w ++ [Some c]) w).

Definition load (p : nat) : M connection_t :=
  fun w => match heap w !! p with
           | Some (Some c) => inr (c, w)
           | _ => inl (UseAfterFree p)
           end.

Definition store (p : nat) (c : connection_t) : M unit :=
  fun w => match heap w !! p with
           | Some (Some _) => inr (tt, with_heap (<[p := Some c]> (heap w)) w)
           | _ => inl (UseAfterFree p)
           end.

Definition free (p : nat) : M unit :=
  fun w => match heap w !! p with
           | Some (Some _) => inr (tt, with_heap (<[p := None]> (heap w)) w)
           | _ => inl (DoubleFree p)
           end.

Definition set_key_type (k : Z) : M unit :=
  fun w => inr (tt, with_key_type k w).

(** The chain of the table [ht_connections] points to. *)
Definition entries : M (list entry) :=
  fun w => match ht_connections w with
           | Table es => inr (es, w)
           | NULL => inl NullTable
           | Freed => inl FreedTable
           end.

Definition set_entries (es : list entry) : M unit :=
  fun w => inr (tt, with_table (Table es) w).

Section Layout.
Context {L : layout}.

(** *** The callbacks given to [hashtable_new] *)

(** The number of key bytes [ht_cb_hash] hashes, for a [struct tuple] of
    [sizeof_tuple] bytes. *)
Definition ht_cb_hash_size (key_type sizeof_tuple : Z) : Z :=
  if key_type =? KEY_INODE then 8
  else if key_type =? KEY_TUPLE then sizeof_tuple
  else 0.

(** The memory behind a key pointer, as far as the callbacks read it: an
    [unsigned long] and the bytes that follow it, or a [struct tuple]. *)
Inductive memory :=
| MInode (i : Z) (after : list Z)
| MTuple (t : struct_tuple).

(** [*(unsigned long * ) key] *)
Definition as_unsigned_long (key : memory) : Z :=
  match key with
  | MInode i _ => i
  | MTuple t => tuple_head t
  end.

(** What lies behind [key] after its first eight bytes. *)
Definition beyond (key : memory) : list Z :=
  match key with
  | MInode _ after => after
  | MTuple t => tuple_rest t
  end.

Fixpoint bytes_eqb (a b : list Z) : bool :=
  match a, b with
  | [], [] => true
  | x :: a', y :: b' => if x =? y then bytes_eqb a' b' else false
  | _, _ => false
  end.

(** [0 == memcmp (key1, key2, sizeof (struct tuple))].  Two
    [struct tuple] (the padding of each is clean, [calloc] has zeroed it)
    are equal byte for byte exactly when their members are; when one of
    the pointers leads to an [inode], the bytes are those of the inode
    and of what follows it. *)
Definition memcmp_tuple (key1 key2 : memory) : bool :=
  match key1, key2 with
  | MTuple a, MTuple b => tuple_eqb a b
  | _, _ =>
      (as_unsigned_long key1 =? as_unsigned_long key2) &&
      bytes_eqb (beyond key1) (beyond key2)
  end.

(** [ht_cb_compare]: the keys are read as the static [key_type] says,
    whatever the pointers lead to. *)
Definition ht_cb_compare (key_type : Z) (key1 key2 : memory) : bool :=
  if key_type =? KEY_INODE then
    as_unsigned_long key1 =? as_unsigned_long key2
  else if key_type =? KEY_TUPLE then memcmp_tuple key1 key2
  else false.

Definition ht_cb_free (arg : nat) : M unit :=
  let* conn := load arg in
  store arg (with_use (use conn - 1) conn) ;;
  if use conn - 1 =? 0 then free arg else ret tt.

(** *** The hash index *)

(** What section 4.A leaves open: whether [set] on a key that is present
    replaces the value or chains a second entry, and whether [remove]
    calls the free callback or hands the value back ([connection_remove]
    frees the record itself). *)
Record hashtable_impl := {
  set_replaces : bool;
  remove_frees : bool
}.

Section Hashtable.
Variable impl : hashtable_impl.

(** The memory behind the key a caller passes: connection.c sets
    [key_type] to the shape of the key before each call, so the bytes
    after a caller's inode are never read; they are taken to be absent. *)
Definition key_memory (key : key) : memory :=
  match key with
  | KInode i => MInode i []
  | KTuple t => MTuple t
  end.

(** The memory behind the key of an entry: the bytes that follow an inode
    are those of the record the key points into, as it is now (none once
    it is freed). *)
Definition entry_memory (h : list (option connection_t)) (e : entry)
    : memory :=
  match e_key e with
  | KInode i =>
      MInode i (match h !! e_conn e with
                | Some (Some c) => after_inode c
                | _ => []
                end)
  | KTuple t => MTuple t
  end.

(** The first entry of the chain that the comparison callback, under the
    current [key_type], finds equal to [key]. *)
Fixpoint find_entry (h : list (option connection_t)) (key_type : Z)
    (key : key) (es : list entry) : option entry :=
  match es with
  | [] => None
  | e :: rest =>
      if ht_cb_compare key_type (entry_memory h e) (key_memory key)
      then Some e
      else find_entry h key_type key rest
  end.

Fixpoint remove_entry (h : list (option connection_t)) (key_type : Z)
    (key : key) (es : list entry) : list entry :=
  match es with
  | [] => []
  | e :: rest =>
      if ht_cb_compare key_type (entry_memory h e) (key_memory key)
      then rest
      else e :: remove_entry h key_type key rest
  end.

Fixpoint replace_entry (h : list (option connection_t)) (key_type : Z)
    (key : key) (value : nat) (es : list entry) : list entry :=
  match es with
  | [] => []
  | e :: rest =>
      if ht_cb_compare key_type (entry_memory h e) (key_memory key)
      then {| e_key := e_key e; e_value := value; e_conn := e_conn e |}
           :: rest
      else e :: replace_entry h key_type key value rest
  end.

(** Modelled from the spec: [hashtable_new] of hashtable.c, which is not
    among the sources: an empty keyed map, built with the hash, equality
    and free callbacks (here always [ht_cb_hash], [ht_cb_compare] and
    [ht_cb_free]). *)
Definition hashtable_new : M unit := set_entries [].

(** Modelled from the spec: [hashtable_get] of hashtable.c, which is not
    among the sources: the value of the entry whose key the equality
    predicate accepts, [None] for [NULL].  The chains of all buckets are
    one list here: every entry is compared with the key. *)
Definition hashtable_get (key : key) : M (option nat) :=
  let* es := entries in
  let* w := get_world in
  ret (option_map e_value (find_entry (heap w) (key_type w) key es)).

(** Modelled from the spec: [hashtable_set] of hashtable.c, which is not
    among the sources: a new entry in the chain, or, when the key is
    present and the implementation replaces, the new value in the old
    entry, which keeps its key pointer.  Every call of connection.c
    passes a key that points into the record [value]. *)
Definition hashtable_set (key : key) (value : nat) : M unit :=
  let* es := entries in
  let* w := get_world in
  let new := {| e_key := key; e_value := value; e_conn := value |} in
  match find_entry (heap w) (key_type w) key es with
  | Some _ =>
      if set_replaces impl
      then set_entries (replace_entry (heap w) (key_type w) key value es)
      else set_entries (new :: es)
  | None => set_entries (new :: es)
  end.

(** Modelled from the spec: [hashtable_remove] of hashtable.c, which is
    not among the sources: the entry of the key leaves its chain, and the
    free callback is called on its value when the implementation does
    so. *)
Definition hashtable_remove (key : key) : M unit :=
  let* es := entries in
  let* w := get_world in
  match find_entry (heap w) (key_type w) key es with
  | Some e =>
      set_entries (remove_entry (heap w) (key_type w) key es) ;;
      if remove_frees impl then ht_cb_free (e_value e) else ret tt
  | None => ret tt
  end.

Definition linked (e : entry) : M bool :=
  let* es := entries in
  ret (existsb (entry_eqb e) es).

(** Modelled from the spec: [hashtable_foreach] of hashtable.c, which is
    not among the sources: the visitor is called on the value of every
    entry, so twice on a record that is indexed twice.  An entry that an
    earlier call of the visitor removed is not visited; a visitor that
    returns non-zero ends the walk. *)
Fixpoint foreach_from (visitor : nat -> M Z) (todo : list entry) : M unit :=
  match todo with
  | [] => ret tt
  | e :: rest =>
      let* here := linked e in
      let* r := (if here then visitor (e_value e) else ret 0) in
      if r =? 0 then foreach_from visitor rest else ret tt
  end.

Definition hashtable_foreach (visitor : nat -> M Z) : M unit :=
  let* es := entries in
  foreach_from visitor es.

(** Modelled from the spec: [hashtable_destroy] of hashtable.c, which is
    not among the sources: the free callback is called on the value of
    every entry and the table is freed.  The pointer the caller holds is
    not changed: it leads to the freed table. *)
Fixpoint destroy_from (todo : list entry) : M unit :=
  match todo with
  | [] => ret tt
  | e :: rest => ht_cb_free (e_value e) ;; destroy_from rest
  end.

Definition hashtable_destroy : M unit :=
  let* es := entries in
  destroy_from es ;;
  (fun w => inr (tt, with_table Freed w)).

(** *** The connection table *)

(** [connection_init]; the table is taken to be allocated, so the result
    is [true]. *)
Definition connection_init : M bool :=
  hashtable_new ;; ret true.

Definition connection_get_by_inode (inode : Z) : M (option nat) :=
  set_key_type KEY_INODE ;;
  hashtable_get (KInode inode).

Definition connection_get_by_tuple (tuple : struct_tuple) : M (option nat) :=
  set_key_type KEY_TUPLE ;;
  hashtable_get (KTuple tuple).

(** [sscanf (addr, "%x", &ip)] into an [unsigned int]. *)
Definition scan_ip (addr : list ascii) : Z * list value :=
  sscanf addr [Conv (Unsigned 32) Hex].

Definition create_new_conn (inode : Z) (local_addr remote_addr : list ascii)
    (local_port rem_port state protocol : Z) : M (option nat) :=
  let blank := {| local_ip := 0; remote_ip := 0; local_port := 0;
                  remote_port := 0; protocol := 0 |} in
  let* conn := calloc {| inode := 0; tuple := blank; state := 0;
                            active := false; use := 0 |} in
  match scan_ip local_addr with
  | (1, [VNum lip]) =>
      match scan_ip remote_addr with
      | (1, [VNum rip]) =>
          store conn
            {| inode := inode;
               tuple := {| local_ip := lip; remote_ip := rip;
                           local_port := local_port;
                           remote_port := rem_port;
                           protocol := protocol |};
               state := state; active := true; use := 0 |} ;;
          ret (Some conn)
      | _ => free conn ;; ret None
      end
  | _ => free conn ;; ret None
  end.

Definition connection_insert_by_inode (conn : nat) : M unit :=
  let* c := load conn in
  set_key_type KEY_INODE ;;
  hashtable_set (KInode (inode c)) conn.

Definition connection_insert_by_tuple (conn : nat) : M unit :=
  let* c := load conn in
  set_key_type KEY_TUPLE ;;
  hashtable_set (KTuple (tuple c)) conn.

Definition connection_insert (conn : nat) : M unit :=
  let* c := load conn in
  store conn (with_use 2 c) ;;
  connection_insert_by_inode conn ;;
  connection_insert_by_tuple conn.

(** The format of the line of a kernel connection file. *)
Definition line_format : list directive :=
  let addr := Conv Chars (Scanset 9 is_hex) in
  let skip_hex := Conv Suppressed Hex in
  let skip_dec := Conv Suppressed Dec in
  [ skip_dec; Lit ":"; White;
    addr; Lit ":"; Conv (Unsigned 16) Hex; White;
    addr; Lit ":"; Conv (Unsigned 16) Hex; White;
    Conv (Unsigned 8) Hex; White;
    skip_hex; Lit ":"; skip_hex; White;
    skip_hex; Lit ":"; skip_hex; White;
    skip_hex; White; skip_dec; White; skip_dec; White;
    Conv (Unsigned 64) Dec; White;
    Conv Suppressed (Str 512); White ].

(** The variables the [sscanf] of [connection_update_] fills. *)
Record line_fields := {
  f_local_addr : list ascii;
  f_local_port : Z;
  f_rem_addr : list ascii;
  f_rem_port : Z;
  f_state : Z;
  f_inode : Z
}.

(** The line as the loop reads it: [None] when [rs != 6]. *)
Definition scan_line (line : list ascii) : option line_fields :=
  match sscanf line line_format with
  | (6, [VStr la; VNum lp; VStr ra; VNum rp; VNum st; VNum ino]) =>
      Some {| f_local_addr := la; f_local_port := lp; f_rem_addr := ra;
              f_rem_port := rp; f_state := st; f_inode := ino |}
  | _ => None
  end.

(** How an iteration of the [while] loop of [connection_update_] ends:
    at the next line, or at [EXIT] with the value of [ret]. *)
Inductive flow :=
| Continue
| Exit (ret : Z).

(** The body of the loop, for the line [getline] has read. *)
Definition update_line (protocol : Z) (line : list ascii) : M flow :=
  match scan_line line with
  | None => ret (Exit 0)
  | Some f =>
      if (f_state f =? TCP_TIME_WAIT) || (f_state f =? TCP_LISTEN)
      then ret Continue
      else
        let* conn := connection_get_by_inode (f_inode f) in
        match conn with
        | Some p =>
            let* c := load p in
            store p (with_active true c) ;;
            ret Continue
        | None =>
            let* new := create_new_conn (f_inode f) (f_local_addr f)
                          (f_rem_addr f) (f_local_port f) (f_rem_port f)
                          (f_state f) protocol in
            match new with
            | None => ret (Exit 0)
            | Some p => connection_insert p ;; ret Continue
            end
        end
  end.

(** The loop over the lines that follow the header; the result is
    [ret]. *)
Fixpoint update_lines (protocol : Z) (lines : list (list ascii)) : M Z :=
  match lines with
  | [] => ret 1
  | line :: rest =>
      let* f := update_line protocol line in
      match f with
      | Continue => update_lines protocol rest
      | Exit r => ret r
      end
  end.

(** [connection_update_] on the lines of the file at [path_file]: [None]
    when it cannot be opened, the header first. *)
Definition connection_update_ (file : option (list (list ascii)))
    (protocol : Z) : M Z :=
  match file with
  | None => ret 0
  | Some [] => ret 0
  | Some (_ :: lines) => update_lines protocol lines
  end.

Definition connection_remove_by_inode (conn : nat) : M unit :=
  let* c := load conn in
  set_key_type KEY_INODE ;;
  hashtable_remove (KInode (inode c)).

Definition connection_remove_by_tuple (conn : nat) : M unit :=
  let* c := load conn in
  set_key_type KEY_TUPLE ;;
  hashtable_remove (KTuple (tuple c)).

Definition connection_remove (conn : nat) : M unit :=
  connection_remove_by_inode conn ;;
  connection_remove_by_tuple conn ;;
  free conn.

Definition remove_dead_conn (value : nat) : M Z :=
  let* conn := load value in
  (if negb (active conn) then
     store value (with_use (use conn - 1) conn) ;;
     if use conn - 1 =? 0 then connection_remove value else ret tt
   else store value (with_active false conn)) ;;
  ret 0.

(** The two kernel connection files. *)
Record procnet := {
  PATH_TCP : option (list (list ascii));
  PATH_UDP : option (list (list ascii))
}.

Definition connection_update (files : procnet) (proto : Z) : M bool :=
  let* tcp := (if negb (Z.land proto TCP =? 0)
               then connection_update_ (PATH_TCP files) IPPROTO_TCP
               else ret 1) in
  if tcp =? 0 then ret false
  else
    let* udp := (if negb (Z.land proto UDP =? 0)
                 then connection_update_ (PATH_UDP files) IPPROTO_UDP
                 else ret 1) in
    if udp =? 0 then ret false
    else hashtable_foreach remove_dead_conn ;; ret true.

(** [connection_free]: the static is tested and never assigned, so after
    the call it still leads to the table that was destroyed. *)
Definition connection_free : M unit :=
  fun w => match ht_connections w with
           | NULL => inr (tt, w)
           | _ => hashtable_destroy w
           end.

End Hashtable.

End Layout.

End Conn.

(** ** The lines of the kernel connection files *)

Module KernelLine.
Import CInt Scanf Conn.

(** The texts of the columns of a line of /proc/net/tcp or /proc/net/udp,
    as the kernel prints them:
    [%4d: %08X:%04X %08X:%04X %02X %08X:%08X %02X:%08lX %08X %5u %8d %lu]
    and what follows the inode. *)
Record kernel_line := {
  k_indent : nat;
  k_sl : list ascii;
  k_local_addr : list ascii;
  k_local_port : list ascii;
  k_rem_addr : list ascii;
  k_rem_port : list ascii;
  k_st : list ascii;
  k_tx_queue : list ascii;
  k_rx_queue : list ascii;
  k_tr : list ascii;
  k_tm_when : list ascii;
  k_retrnsmt : list ascii;
  k_uid_indent : nat;
  k_uid : list ascii;
  k_timeout_indent : nat;
  k_timeout : list ascii;
  k_inode : list ascii;
  k_rest : list ascii
}.

Definition spaces (n : nat) : list ascii := repeat " "%char n.

Definition render (k : kernel_line) : list ascii :=
  spaces (k_indent k) ++ k_sl k ++ ":"%char :: " "%char ::
  k_local_addr k ++ ":"%char :: k_local_port k ++ " "%char ::
  k_rem_addr k ++ ":"%char :: k_rem_port k ++ " "%char ::
  k_st k ++ " "%char ::
  k_tx_queue k ++ ":"%char :: k_rx_queue k ++ " "%char ::
  k_tr k ++ ":"%char :: k_tm_when k ++ " "%char ::
  k_retrnsmt k ++ " "%char ::
  spaces (k_uid_indent k) ++ k_uid k ++ " "%char ::
  spaces (k_timeout_indent k) ++ k_timeout k ++ " "%char ::
  k_inode k ++ k_rest k.

Definition hex_field (width : nat) (cs : list ascii) : bool :=
  forallb is_hex cs && (length cs =? width)%nat.

Definition dec_field (cs : list ascii) : bool :=
  forallb is_dec cs && negb (length cs =? 0)%nat.

Definition ends_field (rest : list ascii) : bool :=
  match rest with
  | [] => true
  | c :: _ => isspace c
  end.

(** The columns have the widths the kernel gives them; the addresses are
    those of IPv4, of [addr_width] = 8 characters. *)
Definition well_formed (addr_width : nat) (k : kernel_line) : bool :=
  dec_field (k_sl k) &&
  hex_field addr_width (k_local_addr k) && hex_field 4 (k_local_port k) &&
  hex_field addr_width (k_rem_addr k) && hex_field 4 (k_rem_port k) &&
  hex_field 2 (k_st k) &&
  hex_field 8 (k_tx_queue k) && hex_field 8 (k_rx_queue k) &&
  hex_field 2 (k_tr k) && hex_field 8 (k_tm_when k) &&
  hex_field 8 (k_retrnsmt k) &&
  dec_field (k_uid k) && dec_field (k_timeout k) && dec_field (k_inode k) &&
  ends_field (k_rest k).

End KernelLine.

(** ** [dir.c]: matching a process's file descriptors against inodes *)

Module Dir.
Import CInt Printf.

Definition NUL : ascii := Ascii.zero.

Definition isdigit (c : ascii) : bool :=
  let n := Z.of_nat (nat_of_ascii c) in (48 <=? n) && (n <=? 57).

(** [is_number]: every character up to the NUL is a digit. *)
Definition is_number (name : list ascii) : bool := forallb isdigit name.

Definition LONG_MAX : Z := 2 ^ 63 - 1.

(** [atoi] on a string of digits (the only strings it is given here).
    The C library's is [(int) strtol (name, NULL, 10)]: [strtol] stops at
    [LONG_MAX], and the conversion to [int] keeps the low 32 bits. *)
Definition atoi (name : list ascii) : Z :=
  to_int
    (Z.min (fold_left (fun acc c => acc * 10 + (Z.of_nat (nat_of_ascii c) - 48))
                      name 0)
           LONG_MAX).

(** The [readdir] loop of [get_numeric_directory]: [entries] are the names
    still to be read, [buffer] what has been stored so far. *)
Fixpoint numeric_entries (entries : list (list ascii)) (buffer : list Z)
    (lenght : nat) : list Z :=
  match entries with
  | [] => buffer
  | name :: rest =>
      if (length buffer <? lenght)%nat
      then numeric_entries rest
             (if is_number name then buffer ++ [atoi name] else buffer) lenght
      else buffer
  end.

(** [get_numeric_directory]: [dir] is what [opendir] and [readdir] give,
    [None] when [opendir] fails; the result is the filled part of the
    buffer, its length the returned count. *)
Definition get_numeric_directory (dir : option (list (list ascii)))
    (lenght : nat) : list Z :=
  match dir with
  | None => []
  | Some entries => numeric_entries entries [] lenght
  end.

(** [strncmp (a, b, n) == 0], for [a] without NUL inside ([a]'s end is its
    terminator); [b] is a buffer read up to its first NUL. *)
Fixpoint strncmp_eq (a b : list ascii) (n : Z) : bool :=
  if n <=? 0 then true
  else match a, b with
       | [], [] => true
       | [], cb :: _ => Ascii.eqb cb NUL
       | _ :: _, [] => false
       | ca :: a', cb :: b' =>
           if Ascii.eqb ca cb then strncmp_eq a' b' (n - 1) else false
       end.

(** What the program prints, and the stores it makes outside
    [temp_buff]. *)
Inductive event :=
| Printed (pid inode : Z)
| OutOfBounds (index : Z).

Definition MAX_TEMP : nat := 1000.

(** The process tree as the loop sees it: the names in [/proc/<pid>/fd/]
    ([None]: the directory cannot be opened) and the target of
    [/proc/<pid>/fd/<fd>] ([None]: [readlink] fails and returns -1). *)
Record procfs := {
  fd_dir : Z -> option (list (list ascii));
  link_target : Z -> Z -> option (list ascii)
}.

(** [readlink (path_fd, temp_buff, 99)]: at most 99 bytes written at the
    start of the buffer, no terminator; the result is the byte count or
    -1. *)
Definition readlink (fs : procfs) (pid fd : Z) (temp_buff : list ascii)
    : Z * list ascii :=
  match link_target fs pid fd with
  | None => (-1, temp_buff)
  | Some target =>
      let bytes := firstn 99 target in
      (Z.of_nat (length bytes), bytes ++ skipn (length bytes) temp_buff)
  end.

(** [temp_buff[len_link] = '\0'] *)
Definition store_nul (len_link : Z) (temp_buff : list ascii)
    : list ascii * list event :=
  if (0 <=? len_link) && (len_link <? Z.of_nat (length temp_buff))
  then (<[Z.to_nat len_link := NUL]> temp_buff, [])
  else (temp_buff, [OutOfBounds len_link]).

Definition socket_text (inode : Z) : list ascii :=
  snprintf_trunc 100
    (list_ascii_of_string "socket:[" ++ fmt_d (to_int inode) ++ ["]"%char]).

(** One iteration of the loop over [inodes]. *)
Definition match_inode (fs : procfs) (pid fd : Z)
    (st : list ascii * list event) (inode : Z) : list ascii * list event :=
  let '(temp_buff, out) := st in
  let socket := socket_text inode in
  let '(len_link, temp_buff) := readlink fs pid fd temp_buff in
  let '(temp_buff, oob) := store_nul len_link temp_buff in
  let out := out ++ oob in
  if strncmp_eq socket temp_buff (to_unsigned 64 len_link)
  then (temp_buff, out ++ [Printed pid inode])
  else (temp_buff, out).

(** The [while (tot_fd_in_process)] loop: the descriptors are taken from
    the last one stored to the first. *)
Definition match_fds (fs : procfs) (pid : Z) (inodes : list Z)
    (st : list ascii * list event) (fds : list Z) : list ascii * list event :=
  fold_left
    (fun st fd => fold_left (match_inode fs pid fd) inodes st)
    (rev fds) st.

(** The outer loop of [main], from the pids and inodes collected before
    it and the initial contents of [temp_buff]. *)
Definition resolve (fs : procfs) (process_pids inodes : list Z)
    (temp_buff : list ascii) : list ascii * list event :=
  fold_left
    (fun st pid =>
       match_fds fs pid inodes st (get_numeric_directory (fd_dir fs pid) 1000))
    process_pids (temp_buff, []).

(** The format of the [sscanf] of [get_inodes],
    ["%d: %x:%x %x:%x %x %x:%x %d:%x %x %x %d %d"]: fourteen conversions,
    each into an [unsigned int]. *)
Definition inode_format : list Scanf.directive :=
  let d := Scanf.Conv (Scanf.Unsigned 32) Scanf.Dec in
  let x := Scanf.Conv (Scanf.Unsigned 32) Scanf.Hex in
  let colon := Scanf.Lit ":"%char in
  [ d; colon; Scanf.White;
    x; colon; x; Scanf.White;
    x; colon; x; Scanf.White;
    x; Scanf.White;
    x; colon; x; Scanf.White;
    d; colon; x; Scanf.White;
    x; Scanf.White; x; Scanf.White; d; Scanf.White; d ].

(** The variable [inode] after the [sscanf] of a line.  The result of
    [sscanf] is not tested: when the fourteenth conversion is not reached
    the variable keeps what it held. *)
Definition scan_inode (line : list ascii) (inode : Z) : Z :=
  match nth_error (snd (Scanf.sscanf line inode_format)) 13 with
  | Some (Scanf.VNum v) => v
  | _ => inode
  end.

(** The [getline] loop of [get_inodes]: [lines] are the lines still to be
    read, [inode] what the variable holds, [buffer] what has been stored
    so far. *)
Fixpoint inode_entries (lines : list (list ascii)) (inode : Z)
    (buffer : list Z) (lenght : nat) : list Z :=
  match lines with
  | [] => buffer
  | line :: rest =>
      if (length buffer <? lenght)%nat
      then let inode := scan_inode line inode in
           inode_entries rest inode (buffer ++ [inode]) lenght
      else buffer
  end.

(** [get_inodes]: [inode_file] is the lines of the file, [None] when
    [fopen] fails; [inode] is what the local variable, which has no
    initialiser, holds at first.  The result is the filled part of the
    buffer, its length the returned count. *)
Definition get_inodes (inode_file : option (list (list ascii))) (inode : Z)
    (lenght : nat) : list Z :=
  match inode_file with
  | None => []
  | Some [] => []
  | Some (_ :: lines) => inode_entries lines inode [] lenght
  end.

Definition MAX_PROCESS : nat := 1024.
Definition MAX_INODES : nat := 1024.

(** [main]: the pids of [/proc/], the inodes of [/proc/net/tcp], then the
    matching loop; the result is what is printed and stored out of
    bounds.  [temp_buff] is what the array holds at first. *)
Definition main (proc : option (list (list ascii)))
    (tcp : option (list (list ascii))) (fs : procfs) (inode : Z)
    (temp_buff : list ascii) : list event :=
  snd (resolve fs (get_numeric_directory proc MAX_PROCESS)
         (get_inodes tcp inode MAX_INODES) temp_buff).

End Dir.

(** ** [src/show.c]: the key handler *)

Module Show.

(** The static variables of show.c that [running_input] reads and writes.
    The calls that draw ([prefresh], [mvwaddchnstr], [paint_selected],
    [show_header], ...) write none of them and are left out, except
    [beep], which tells a key that was refused. *)
Record ui := {
  sort_by : Z;
  scroll_x : Z;
  scroll_y : Z;
  selected : Z;
  tot_rows : Z
}.

(** What [wgetch] returns, as the [switch] of [running_input] tells the
    keys apart. *)
Inductive key :=
| KEY_RIGHT
| KEY_LEFT
| KEY_DOWN
| KEY_UP
| KEY_s            (* 's' or 'S' *)
| KEY_q            (* 'q' or 'Q' *)
| KEY_other.

(** How one turn of the loop ends: the variables and whether [beep] was
    called, or [exit]. *)
Inductive turn :=
| Goes_on (u : ui) (beeped : bool)
| Exits.

Section Screen.
(** [COLS_PAD] of show.h and [COLS_TO_SORT] of sort.h, which are not
    among the sources, and the [COLS] and [LINES] of ncurses. *)
Variables COLS_PAD COLS_TO_SORT COLS LINES : Z.

(** The body of the [switch] of [running_input]. *)
Definition press (ch : key) (u : ui) : turn :=
  match ch with
  | KEY_RIGHT =>
      if scroll_x u + 5 <? COLS_PAD - COLS
      then Goes_on {| sort_by := sort_by u;
                      scroll_x := if scroll_x u + 5 <=? COLS_PAD - COLS
                                  then scroll_x u + 5 else COLS_PAD - COLS;
                      scroll_y := scroll_y u; selected := selected u;
                      tot_rows := tot_rows u |} false
      else Goes_on u true
  | KEY_LEFT =>
      if 0 <? scroll_x u
      then Goes_on {| sort_by := sort_by u;
                      scroll_x := if 0 <=? scroll_x u - 5
                                  then scroll_x u - 5 else 0;
                      scroll_y := scroll_y u; selected := selected u;
                      tot_rows := tot_rows u |} false
      else Goes_on u true
  | KEY_DOWN =>
      if selected u + 1 <=? tot_rows u
      then Goes_on {| sort_by := sort_by u; scroll_x := scroll_x u;
                      scroll_y := if LINES <=? selected u + 1
                                  then scroll_y u + 1 else scroll_y u;
                      selected := selected u + 1;
                      tot_rows := tot_rows u |} false
      else Goes_on u true
  | KEY_UP =>
      if 1 <=? selected u - 1
      then Goes_on {| sort_by := sort_by u; scroll_x := scroll_x u;
                      scroll_y := if (1 <? scroll_y u) &&
                                     (selected u - 1 <=? LINES)
                                  then scroll_y u - 1 else scroll_y u;
                      selected := selected u - 1;
                      tot_rows := tot_rows u |} false
      else Goes_on u true
  | KEY_s =>
      Goes_on {| sort_by := if sort_by u + 1 <? COLS_TO_SORT
                            then sort_by u + 1 else 0;
                 scroll_x := scroll_x u; scroll_y := scroll_y u;
                 selected := selected u; tot_rows := tot_rows u |} false
  | KEY_q => Exits
  | KEY_other => Goes_on u false
  end.

(** [running_input]: the keys [wgetch] returns before [ERR]; [None] when
    the program exits. *)
Fixpoint running_input (keys : list key) (u : ui) : option ui :=
  match keys with
  | [] => Some u
  | ch :: rest =>
      match press ch u with
      | Goes_on u' _ => running_input rest u'
      | Exits => None
      end
  end.

End Screen.

Section Conections.
(** [conection_t] of conection.h, which is not among the sources, with
    the counters of its [net_stat] that [show_conections] reads. *)
Variable conection_t : Type.
Variables avg_Bps_rx avg_Bps_tx tot_Bps_rx : conection_t -> Z.

(** The test [show_conections] makes on the connection after the one it
    draws ([tot_Bps_rx] is tested twice). *)
Definition next_is_idle (next : conection_t) : bool :=
  (avg_Bps_rx next =? 0) && (avg_Bps_tx next =? 0) &&
  (tot_Bps_rx next =? 0) && (tot_Bps_rx next =? 0).

(** The [for] loop of [show_conections] from index [i], [conection] being
    the connections from there on: for each line drawn, the index of the
    connection and [last_con], which chooses the corner that closes the
    tree and ends the loop. *)
Fixpoint conection_lines (i : nat) (conection : list conection_t)
    : list (nat * bool) :=
  match conection with
  | [] => []
  | _ :: rest =>
      let last_con := match rest with
                      | next :: _ => next_is_idle next
                      | [] => true
                      end in
      (i, last_con) :: (if last_con then [] else conection_lines (S i) rest)
  end.

(** [show_conections]: the lines drawn and the variables afterwards; one
    more line, empty, follows the connections when [last_con] is set. *)
Definition show_conections (conection : list conection_t) (u : ui)
    : list (nat * bool) * ui :=
  let lines := conection_lines 0 conection in
  (lines,
   {| sort_by := sort_by u; scroll_x := scroll_x u; scroll_y := scroll_y u;
      selected := selected u;
      tot_rows := tot_rows u + Z.of_nat (length lines) +
                  (if existsb snd lines then 1 else 0) |}).

End Conections.

End Show.

(** ** Kernel files used in the scenarios *)

Module Scenario.
Import CInt Conn.

Definition text (s : string) : list ascii := list_ascii_of_string s.

Definition header : list ascii :=
  text "  sl  local_address rem_address   st tx_queue rx_queue tr tm->when retrnsmt   uid  timeout inode".

Definition tcp_only (lines : list (list ascii)) : procnet :=
  {| PATH_TCP := Some (header :: lines); PATH_UDP := Some [header] |}.

Definition udp_only (lines : list (list ascii)) : procnet :=
  {| PATH_TCP := Some [header]; PATH_UDP := Some (header :: lines) |}.

(** 127.0.0.53:53, listening, inode 20911 (the first line quoted in
    connection.c). *)
Definition line_listen : list ascii :=
  text "   0: 3500007F:0035 00000000:0000 0A 00000000:00000000 00:00000000 00000000   101        0 20911 1 0000000000000000 100 0 0 10 0".

(** The same socket, established. *)
Definition line_established : list ascii :=
  text "   0: 3500007F:0035 00000000:0000 01 00000000:00000000 00:00000000 00000000   101        0 20911 1 0000000000000000 100 0 0 10 0".

Definition tuple_established : struct_tuple :=
  {| local_ip := 0x3500007F; remote_ip := 0; local_port := 53;
     remote_port := 0; protocol := IPPROTO_TCP |}.

(** The columns of that line. *)
Definition columns_established : KernelLine.kernel_line :=
  {| KernelLine.k_indent := 3; KernelLine.k_sl := text "0";
     KernelLine.k_local_addr := text "3500007F";
     KernelLine.k_local_port := text "0035";
     KernelLine.k_rem_addr := text "00000000";
     KernelLine.k_rem_port := text "0000";
     KernelLine.k_st := text "01";
     KernelLine.k_tx_queue := text "00000000";
     KernelLine.k_rx_queue := text "00000000";
     KernelLine.k_tr := text "00"; KernelLine.k_tm_when := text "00000000";
     KernelLine.k_retrnsmt := text "00000000";
     KernelLine.k_uid_indent := 2; KernelLine.k_uid := text "101";
     KernelLine.k_timeout_indent := 7; KernelLine.k_timeout := text "0";
     KernelLine.k_inode := text "20911";
     KernelLine.k_rest := text " 1 0000000000000000 100 0 0 10 0" |}.

(** Inode 50000 with a first tuple, then with a second one. *)
Definition line_reuse_1 : list ascii :=
  text "   3: 0100007F:1F90 0100007F:C000 01 00000000:00000000 00:00000000 00000000  1000        0 50000 1 0000000000000000 20 4 30 10 -1".

Definition line_reuse_2 : list ascii :=
  text "   3: 0100007F:1F91 0100007F:C001 01 00000000:00000000 00:00000000 00000000  1000        0 50000 1 0000000000000000 20 4 30 10 -1".

Definition tuple_reuse_1 : struct_tuple :=
  {| local_ip := 0x0100007F; remote_ip := 0x0100007F; local_port := 0x1F90;
     remote_port := 0xC000; protocol := IPPROTO_TCP |}.

Definition tuple_reuse_2 : struct_tuple :=
  {| local_ip := 0x0100007F; remote_ip := 0x0100007F; local_port := 0x1F91;
     remote_port := 0xC001; protocol := IPPROTO_TCP |}.

(** Two UDP sockets bound to 0.0.0.0:5353 (a shared port), inodes 30001
    and 30002. *)
Definition line_mdns_1 : list ascii :=
  text "  10: 00000000:14E9 00000000:0000 07 00000000:00000000 00:00000000 00000000   108        0 30001 2 0000000000000000 0".

Definition line_mdns_2 : list ascii :=
  text "  11: 00000000:14E9 00000000:0000 07 00000000:00000000 00:00000000 00000000  1000        0 30002 2 0000000000000000 0".

Definition tuple_mdns : struct_tuple :=
  {| local_ip := 0; remote_ip := 0; local_port := 5353;
     remote_port := 0; protocol := IPPROTO_UDP |}.

(** A line of /proc/net/tcp6: the addresses are 32 hexadecimal
    characters. *)
Definition line_ipv6 : list ascii :=
  text "   0: 00000000000000000000000001000000:0277 00000000000000000000000000000000:0000 01 00000000:00000000 00:00000000 00000000     0        0 25000 1 0000000000000000 100 0 0 10 0".

Definition columns_ipv6 : KernelLine.kernel_line :=
  {| KernelLine.k_indent := 3; KernelLine.k_sl := text "0";
     KernelLine.k_local_addr := text "00000000000000000000000001000000";
     KernelLine.k_local_port := text "0277";
     KernelLine.k_rem_addr := text "00000000000000000000000000000000";
     KernelLine.k_rem_port := text "0000";
     KernelLine.k_st := text "01";
     KernelLine.k_tx_queue := text "00000000";
     KernelLine.k_rx_queue := text "00000000";
     KernelLine.k_tr := text "00"; KernelLine.k_tm_when := text "00000000";
     KernelLine.k_retrnsmt := text "00000000";
     KernelLine.k_uid_indent := 4; KernelLine.k_uid := text "0";
     KernelLine.k_timeout_indent := 7; KernelLine.k_timeout := text "0";
     KernelLine.k_inode := text "25000";
     KernelLine.k_rest := text " 1 0000000000000000 100 0 0 10 0" |}.

Definition line_garbage : list ascii := text "not a connection".

(** The byte of rank [k] of a number, the lowest first. *)
Definition byte_of (k : Z) (x : Z) : Z := (x / 2 ^ (8 * k)) mod 256.

(** Modelled from the spec: connection.h is not among the sources; the
    layout of the runs below takes the members in the order section 3
    lists them, on a 64-bit little-endian machine.  A [struct tuple] is
    the two addresses (four bytes each), the two ports (two bytes each),
    the protocol (one byte) and three bytes of padding; in a record the
    [inode] is followed by the state (one byte) and seven bytes of
    padding. *)
#[export] Instance lp64 : layout := {|
  tuple_head t :=
    to_unsigned 32 (local_ip t) + 2 ^ 32 * to_unsigned 32 (remote_ip t);
  tuple_rest t :=
    [ byte_of 0 (local_port t); byte_of 1 (local_port t);
      byte_of 0 (remote_port t); byte_of 1 (remote_port t);
      byte_of 0 (protocol t); 0; 0; 0 ];
  after_inode c := [ byte_of 0 (state c); 0; 0; 0; 0; 0; 0; 0 ]
|}.

Definition all_impls : list hashtable_impl :=
  [ {| set_replaces := false; remove_frees := false |};
    {| set_replaces := false; remove_frees := true |};
    {| set_replaces := true; remove_frees := false |};
    {| set_replaces := true; remove_frees := true |} ].

(** Running one operation after another, keeping the first fault. *)
Definition after {A} (w : fault + world) (m : M A) : fault + world :=
  match w with
  | inl f => inl f
  | inr w => match m w with
             | inl f => inl f
             | inr (_, w') => inr w'
             end
  end.

Definition result_in {A} (w : fault + world) (m : M A) : option A :=
  match w with
  | inl _ => None
  | inr w => match m w with
             | inl _ => None
             | inr (a, _) => Some a
             end
  end.

Definition started : fault + world := after (inr boot) connection_init.

End Scenario.

(** * Properties *)

Module CIntFacts.
Import CInt.

Lemma to_int_small x : 0 <= x < 2 ^ 31 -> to_int x = x.
Proof.
  intros Hx. unfold to_int, to_signed.
  assert (E : x mod 2 ^ 32 = x) by (apply Z.mod_small; lia).
  rewrite E. destruct (Z.ltb_spec x (2 ^ (32 - 1))); simpl in *; lia.
Qed.

End CIntFacts.

Module PrintfFacts.
Import Printf.

Lemma dec_digits_length fuel : forall k n acc,
  (0 < k)%nat -> 0 <= n < 10 ^ Z.of_nat k ->
  (length (dec_digits fuel n acc) <= k + length acc)%nat.
Proof.
  induction fuel as [|f IH]; intros k n acc Hk Hn; simpl; [lia|].
  destruct (Z.eqb_spec (n / 10) 0) as [E|E]; [simpl; lia|].
  destruct k as [|[|k]]; [lia | |].
  - exfalso. apply E. apply Z.div_small. simpl in Hn. lia.
  - assert (Hq : 0 <= n / 10 < 10 ^ Z.of_nat (S k)).
    { split; [apply Z.div_pos; lia|].
      apply Z.div_lt_upper_bound; [lia|].
      replace (10 * 10 ^ Z.of_nat (S k)) with (10 ^ Z.of_nat (S (S k))); [lia|].
      rewrite (Nat2Z.inj_succ (S k)), Z.pow_succ_r; lia. }
    assert (Hk' : (0 < S k)%nat) by lia.
    pose proof (IH (S k) (n / 10) (digit_char (n mod 10) :: acc) Hk' Hq) as Hl.
    cbn [length] in Hl. lia.
Qed.

Lemma dec_digits_nonempty fuel n acc :
  (0 < fuel)%nat -> (length acc < length (dec_digits fuel n acc))%nat.
Proof.
  revert n acc. induction fuel as [|f IH]; intros n acc Hf; [lia|].
  simpl. destruct (n / 10 =? 0); [simpl; lia|].
  destruct f as [|f]; [simpl; lia|].
  specialize (IH (n / 10) (digit_char (n mod 10) :: acc) ltac:(lia)).
  cbn [length] in IH. lia.
Qed.

Lemma fmt_0d_2_small n : 0 <= n < 100 -> length (fmt_0d 2 n) = 2%nat.
Proof.
  intros Hn. unfold fmt_0d.
  destruct (Z.ltb_spec n 0); [lia|].
  unfold zero_pad. rewrite length_app, repeat_length.
  pose proof (dec_digits_length 10 2 n [] ltac:(lia) ltac:(simpl; lia)) as Hl.
  pose proof (dec_digits_nonempty 10 n [] ltac:(lia)) as Hp.
  unfold dec_of_nonneg. simpl length in *. lia.
Qed.

Lemma fmt_0d_2_bound n k :
  (2 <= k)%nat -> 0 <= n < 10 ^ Z.of_nat k -> (length (fmt_0d 2 n) <= k)%nat.
Proof.
  intros Hk Hn. unfold fmt_0d.
  destruct (Z.ltb_spec n 0); [lia|].
  unfold zero_pad. rewrite length_app, repeat_length.
  pose proof (dec_digits_length 10 k n [] ltac:(lia) Hn) as Hl.
  unfold dec_of_nonneg. simpl length in *. lia.
Qed.

End PrintfFacts.

Module TimerFacts.
Import CInt Printf Timer CIntFacts PrintfFacts.

Example sec2clock_zero : sec2clock 0 = "00:00:00"%string.
Proof. reflexivity. Qed.

Example sec2clock_3661 : sec2clock 3661 = "01:01:01"%string.
Proof. reflexivity. Qed.

Example sec2clock_100h : sec2clock 360000 = "100:00:00"%string.
Proof. reflexivity. Qed.

Example sec2clock_int_max : sec2clock (2 ^ 31 - 1) = "596523:14:07"%string.
Proof. reflexivity. Qed.

(** One past the precondition the hour is the quotient of a negative
    [int]. *)
Example sec2clock_wraps : sec2clock (2 ^ 31) = "-596523:14:08"%string.
Proof. reflexivity. Qed.

Lemma clock_fields secs :
  0 <= secs < 2 ^ 31 ->
  0 <= clock_hour secs < 10 ^ 6 /\
  0 <= clock_minute secs < 60 /\
  0 <= clock_second secs < 60 /\
  clock_hour secs * 3600 + clock_minute secs * 60 + clock_second secs = secs.
Proof.
  intros Hs. unfold clock_hour, clock_minute, clock_second.
  assert (Hr : 0 <= secs mod 3600 < 3600) by (apply Z.mod_pos_bound; lia).
  rewrite (to_int_small secs) by lia.
  rewrite (to_int_small (secs mod 3600)) by lia.
  rewrite Z.quot_div_nonneg, Z.quot_div_nonneg, Z.rem_mod_nonneg by lia.
  assert (Hq : 0 <= secs / 3600 < 10 ^ 6).
  { split; [apply Z.div_pos; lia|]. apply Z.div_lt_upper_bound; lia. }
  assert (0 <= secs mod 3600 mod 60 < 60) by (apply Z.mod_pos_bound; lia).
  assert (0 <= secs mod 3600 / 60 < 60).
  { split; [apply Z.div_pos; lia|]. apply Z.div_lt_upper_bound; lia. }
  pose proof (Z.div_mod secs 3600 ltac:(lia)).
  pose proof (Z.div_mod (secs mod 3600) 60 ltac:(lia)).
  lia.
Qed.

(** C10. For every [secs] below [2^31], [sec2clock secs] is the text
    "HH:MM:SS" of three fields printed with [%02d] (nothing is cut by the
    14-byte buffer), the minute and second fields are below 60, and
    hours*3600 + minutes*60 + seconds is [secs]. *)
Theorem sec2clock_decomposes secs :
  0 <= secs < 2 ^ 31 ->
  exists h m s,
    sec2clock secs = clock_text h m s /\
    0 <= h /\ 0 <= m < 60 /\ 0 <= s < 60 /\
    h * 3600 + m * 60 + s = secs.
Proof.
  intros Hs.
  destruct (clock_fields secs Hs) as (Hh & Hm & Hsec & Hsum).
  exists (clock_hour secs), (clock_minute secs), (clock_second secs).
  repeat split; try lia.
  unfold sec2clock, clock_text, sec2clock_buf, snprintf_trunc. f_equal.
  apply firstn_all2.
  rewrite !length_app, (fmt_0d_2_small (clock_minute secs)) by lia.
  rewrite (fmt_0d_2_small (clock_second secs)) by lia.
  pose proof (fmt_0d_2_bound (clock_hour secs) 6 ltac:(lia) ltac:(simpl; lia)).
  unfold LEN_BUFF_CLOCK, colon. simpl length. lia.
Qed.

Lemma sec2clock_decomposes_witness :
  exists h m s,
    sec2clock 86399 = clock_text h m s /\
    0 <= h /\ 0 <= m < 60 /\ 0 <= s < 60 /\
    h * 3600 + m * 60 + s = 86399.
Proof. apply (sec2clock_decomposes 86399). lia. Defined.

End TimerFacts.

Module DirFacts.
Import Dir.

Definition names (l : list string) : list (list ascii) :=
  map list_ascii_of_string l.

(** Process 100 has descriptors 7 and 3; 3 is the socket with inode 20911,
    7 has gone by the time it is read. *)
Definition vanished_fd : procfs := {|
  fd_dir := fun pid =>
    if pid =? 100 then Some (names ["."; ".."; "7"; "3"]%string) else None;
  link_target := fun pid fd =>
    if (pid =? 100) && (fd =? 3)
    then Some (list_ascii_of_string "socket:[20911]")
    else None
|}.

Definition clean_buff : list ascii := repeat NUL MAX_TEMP.

Example readable_socket_fd_matches :
  snd (match_inode vanished_fd 100 3 (clean_buff, []) 20911)
  = [Printed 100 20911].
Proof. vm_compute. reflexivity. Qed.

Example other_target_ignored :
  let fs := {| fd_dir := fun _ => Some (names ["0"]%string);
               link_target := fun _ _ => Some (list_ascii_of_string "/dev/null") |} in
  snd (resolve fs [100] [20911; 44385] clean_buff) = [].
Proof. vm_compute. reflexivity. Qed.

Example unopenable_fd_dir_ignored :
  let fs := {| fd_dir := fun _ => None; link_target := fun _ _ => None |} in
  snd (resolve fs [1] [20911] clean_buff) = [].
Proof. vm_compute. reflexivity. Qed.

(** C9. The loop does not test the result of [readlink]: for a descriptor
    whose link cannot be read it stores the terminator at index -1 of
    [temp_buff] and compares against what the previous descriptor left
    there, so the socket of descriptor 3 is printed a second time for
    descriptor 7. *)
Theorem unreadable_fd_not_ignored :
  snd (resolve vanished_fd [100] [20911] clean_buff)
  = [Printed 100 20911; OutOfBounds (-1); Printed 100 20911].
Proof. vm_compute. reflexivity. Qed.

End DirFacts.

(** ** What [sscanf] stores *)

Module ScanfFacts.
Import CInt Scanf.

Lemma span_n_spec n p : forall s a b,
  span_n n p s = (a, b) ->
  forallb p a = true /\ s = a ++ b /\ (length a <= n)%nat.
Proof.
  induction n as [|n IH]; intros s a b H; simpl in H.
  - destruct s; inversion H; subst; simpl; auto with lia.
  - destruct s as [|c s]; [inversion H; subst; simpl; auto with lia|].
    destruct (p c) eqn:Hc; [|inversion H; subst; simpl; auto with lia].
    destruct (span_n n p s) as [a' b'] eqn:E. inversion H; subst.
    destruct (IH _ _ _ E) as (Hp & -> & Hl). simpl. rewrite Hc, Hp.
    auto with lia.
Qed.

Lemma span_app p a : forall b,
  forallb p a = true ->
  match b with [] => True | c :: _ => p c = false end ->
  span p (a ++ b) = (a, b).
Proof.
  induction a as [|c a IH]; intros b Ha Hb; simpl in *.
  - destruct b as [|c b]; [reflexivity|]. simpl. now rewrite Hb.
  - apply andb_prop in Ha as [Hc Ha]. rewrite Hc, (IH b Ha Hb). reflexivity.
Qed.

Lemma span_n_app p a : forall n b,
  forallb p a = true -> (length a <= n)%nat ->
  match b with [] => True | c :: _ => p c = false end ->
  span_n n p (a ++ b) = (a, b).
Proof.
  induction a as [|c a IH]; intros n b Ha Hn Hb; simpl in *.
  - destruct n, b; simpl; try reflexivity; now rewrite Hb.
  - apply andb_prop in Ha as [Hc Ha].
    destruct n as [|n]; [lia|]. simpl.
    rewrite Hc, (IH n b Ha ltac:(lia) Hb). reflexivity.
Qed.

(** What a conversion can store. *)
Definition value_fits (c : conv) (v : value) : Prop :=
  match c with
  | Dec | Hex => exists z, v = VNum z
  | Scanset width set =>
      exists cs, v = VStr cs /\ cs <> [] /\ forallb set cs = true /\
                 (length cs <= width)%nat
  | Str _ => exists cs, v = VStr cs
  end.

Lemma scan_integer_num base s v rest :
  scan_integer base s = Matched v rest -> exists z, v = VNum z.
Proof.
  unfold scan_integer. destruct (skip_space s); [discriminate|].
  destruct (strip_sign _) as [sign s2].
  destruct (span _ _) as [[|d ds] r]; [discriminate|].
  intros H; inversion H; eauto.
Qed.

Lemma scan_conv_fits c s v rest :
  scan_conv c s = Matched v rest -> value_fits c v.
Proof.
  destruct c as [| |width set|width]; simpl.
  - apply scan_integer_num.
  - apply scan_integer_num.
  - destruct s as [|c s]; [discriminate|].
    destruct (span_n width set (c :: s)) as [[|d ds] r] eqn:E; [discriminate|].
    intros H; inversion H; subst.
    destruct (span_n_spec _ _ _ _ _ E) as (Hp & _ & Hl). eauto 10.
  - destruct (skip_space s) as [|c s1]; [discriminate|].
    destruct (span_n _ _ _). intros H; inversion H; eauto.
Qed.

Lemma stored_fits t c v v' :
  value_fits c v -> stored t v = Some v' ->
  match c with
  | Dec | Hex => exists z, v' = VNum z
  | _ => v' = v
  end.
Proof.
  destruct c; simpl; intros Hv Hs.
  - destruct Hv as [z ->]. destruct t; simpl in Hs; inversion Hs; eauto.
  - destruct Hv as [z ->]. destruct t; simpl in Hs; inversion Hs; eauto.
  - destruct Hv as (cs & -> & _). destruct t; simpl in Hs; inversion Hs; eauto.
  - destruct Hv as (cs & ->). destruct t; simpl in Hs; inversion Hs; eauto.
Qed.

(** The conversions of a format that store a value, in order. *)
Fixpoint assigned (fmt : list directive) : list conv :=
  match fmt with
  | [] => []
  | Conv Suppressed _ :: fmt' => assigned fmt'
  | Conv _ c :: fmt' => c :: assigned fmt'
  | _ :: fmt' => assigned fmt'
  end.

Lemma sscanf_from_fits fmt : forall s b args n out,
  sscanf_from fmt s b args = (n, out) ->
  exists new, out = args ++ new /\
    Forall2 value_fits (firstn (length new) (assigned fmt)) new.
Proof.
  induction fmt as [|d fmt IH]; intros s b args n out H; simpl in H.
  - inversion H; subst. exists []. rewrite app_nil_r. split; [done|constructor].
  - destruct d as [|c|t c].
    + apply IH in H. exact H.
    + destruct s as [|c' s].
      * inversion H; subst. exists []. rewrite app_nil_r. split; [done|constructor].
      * destruct (Ascii.eqb c c'); [apply IH in H; exact H|].
        inversion H; subst. exists []. rewrite app_nil_r. split; [done|constructor].
    + destruct (scan_conv c s) as [v rest| |] eqn:E.
      * pose proof (scan_conv_fits _ _ _ _ E) as Hv.
        destruct (stored t v) as [v'|] eqn:Es.
        -- apply IH in H as (new & -> & Hn).
           exists (v' :: new). rewrite <- app_assoc. split; [done|].
           assert (Ht : assigned (Conv t c :: fmt) = c :: assigned fmt).
           { destruct t; simpl in Es; try discriminate; reflexivity. }
           rewrite Ht. simpl. constructor; [|exact Hn].
           pose proof (stored_fits _ _ _ _ Hv Es) as Hf.
           destruct c; simpl in *; try (subst v'; exact Hv); exact Hf.
        -- apply IH in H as (new & -> & Hn). exists new. split; [done|].
           destruct t; simpl in Es; try discriminate;
             [exact Hn | destruct v; discriminate].
      * inversion H; subst. exists []. rewrite app_nil_r. split; [done|constructor].
      * inversion H; subst. exists []. rewrite app_nil_r. split; [done|constructor].
Qed.


Definition hex_text (cs : list ascii) : Prop :=
  cs <> [] /\ forallb is_hex cs = true.

Lemma is_hex_not_space c : is_hex c = true -> isspace c = false.
Proof.
  unfold is_hex, is_dec, isspace. intros H.
  destruct (Z.eqb_spec (code c) 32) as [E|E]; [rewrite E in H; discriminate|].
  simpl. apply andb_false_iff.
  destruct (Z.leb_spec 9 (code c)), (Z.leb_spec (code c) 13); auto.
  exfalso.
  repeat match type of H with
         | context [?a <=? ?b] => destruct (Z.leb_spec a b); try lia
         end; discriminate.
Qed.

Lemma is_hex_code c :
  is_hex c = true ->
  48 <= code c <= 57 \/ 65 <= code c <= 70 \/ 97 <= code c <= 102.
Proof.
  unfold is_hex, is_dec. intros H.
  repeat match type of H with
         | context [?a <=? ?b] => destruct (Z.leb_spec a b)
         end; simpl in H; try discriminate; lia.
Qed.

Lemma code_eqb c d : Ascii.eqb c d = true -> code c = code d.
Proof. intros H. apply Ascii.eqb_eq in H. now subst. Qed.

Lemma hex_not_char c d :
  is_hex c = true -> is_hex d = false -> Ascii.eqb c d = false.
Proof.
  intros Hc Hd. destruct (Ascii.eqb c d) eqn:E; [|reflexivity].
  apply Ascii.eqb_eq in E. subst. congruence.
Qed.

(** A text of hexadecimal digits, alone in its buffer, is converted whole
    by [%x]. *)
Lemma scan_ip_hex addr :
  hex_text addr ->
  Conn.scan_ip addr = (1, [VNum (to_unsigned 32 (digits_value 16 addr))]).
Proof.
  intros [Hne Hall]. unfold Conn.scan_ip, sscanf. simpl.
  unfold scan_integer.
  destruct addr as [|c cs]; [congruence|].
  simpl in Hall. apply andb_prop in Hall as [Hc Hcs].
  simpl skip_space. rewrite (is_hex_not_space c Hc).
  unfold strip_sign.
  rewrite (hex_not_char c "-" Hc eq_refl), (hex_not_char c "+" Hc eq_refl).
  change (16 =? 16) with true. cbv iota.
  assert (Hs : strip_0x (c :: cs) = c :: cs).
  { unfold strip_0x. destruct cs as [|x [|d r]]; try reflexivity.
    simpl in Hcs. apply andb_prop in Hcs as [Hx _].
    rewrite (hex_not_char x "x" Hx eq_refl), (hex_not_char x "X" Hx eq_refl).
    rewrite andb_false_r. reflexivity. }
  rewrite Hs.
  pose proof (span_app is_hex (c :: cs) [] ltac:(simpl; now rewrite Hc, Hcs) I) as Hsp.
  rewrite app_nil_r in Hsp. rewrite Hsp.
  simpl. rewrite Z.mul_1_l. reflexivity.
Qed.

Lemma scan_line_hex line f :
  Conn.scan_line line = Some f ->
  hex_text (Conn.f_local_addr f) /\ hex_text (Conn.f_rem_addr f).
Proof.
  unfold Conn.scan_line, sscanf.
  destruct (sscanf_from Conn.line_format line false []) as [n out] eqn:E.
  apply sscanf_from_fits in E as (new & -> & Hfits).
  simpl app.
  destruct n as [|n|n]; try discriminate.
  destruct new as [|v1 [|v2 [|v3 [|v4 [|v5 [|v6 [|v7 new]]]]]]];
    try (destruct n as [[[]|[]|]|[[]|[]|]|]; discriminate);
    try (repeat match goal with
                | |- context [match ?v with VNum _ => _ | VStr _ => _ end] =>
                    destruct v
                end; destruct n as [[[]|[]|]|[[]|[]|]|]; discriminate).
  simpl in Hfits.
  repeat match goal with
         | H : Forall2 _ (_ :: _) (_ :: _) |- _ =>
             apply Forall2_cons_1 in H as [? H]
         end.
  simpl in *.
  repeat match goal with
         | H : exists _, _ |- _ => destruct H as [? H]
         | H : _ /\ _ |- _ => destruct H
         end; subst.
  destruct n as [[[]|[]|]|[[]|[]|]|]; try discriminate.
  intros H; inversion H; subst; simpl. unfold hex_text. auto.
Qed.

End ScanfFacts.

(** ** The connection table: the chain, the line loop *)

Module ConnFacts.
Import CInt Scanf Conn ScanfFacts.

Lemma tuple_eqb_eq a b : tuple_eqb a b = true <-> a = b.
Proof.
  unfold tuple_eqb. destruct a, b; simpl. rewrite !andb_true_iff, !Z.eqb_eq.
  split; [intros ((((-> & ->) & ->) & ->) & ->); reflexivity|].
  intros H; inversion H; auto.
Qed.

Lemma key_eqb_eq a b : key_eqb a b = true <-> a = b.
Proof.
  destruct a, b; simpl; try (split; [discriminate | intros H; inversion H]).
  - rewrite Z.eqb_eq. split; [congruence | intros H; inversion H; auto].
  - rewrite tuple_eqb_eq. split; [congruence | intros H; inversion H; auto].
Qed.

Lemma entry_eqb_eq a b : entry_eqb a b = true <-> a = b.
Proof.
  unfold entry_eqb. destruct a, b; simpl.
  rewrite !andb_true_iff, key_eqb_eq, !Nat.eqb_eq.
  split; [intros [[-> ->] ->]; reflexivity | intros H; inversion H; auto].
Qed.

(** *** Keys read in their own shape *)

Definition key_kind (k : key) : Z :=
  match k with KInode _ => KEY_INODE | KTuple _ => KEY_TUPLE end.

(** What the comparison answers when no key is read in the shape of the
    other: two keys are equal when they are the same key of the shape
    [key_type] selects. *)
Definition same_key (kt : Z) (k1 k2 : key) : bool :=
  if kt =? KEY_INODE then
    match k1, k2 with
    | KInode a, KInode b => a =? b
    | _, _ => false
    end
  else if kt =? KEY_TUPLE then
    match k1, k2 with
    | KTuple a, KTuple b => tuple_eqb a b
    | _, _ => false
    end
  else false.

Fixpoint find_key (kt : Z) (k : key) (es : list entry) : option entry :=
  match es with
  | [] => None
  | e :: rest => if same_key kt (e_key e) k then Some e else find_key kt k rest
  end.

Fixpoint remove_key (kt : Z) (k : key) (es : list entry) : list entry :=
  match es with
  | [] => []
  | e :: rest =>
      if same_key kt (e_key e) k then rest else e :: remove_key kt k rest
  end.

Fixpoint replace_key (kt : Z) (k : key) (value : nat) (es : list entry)
    : list entry :=
  match es with
  | [] => []
  | e :: rest =>
      if same_key kt (e_key e) k
      then {| e_key := e_key e; e_value := value; e_conn := e_conn e |} :: rest
      else e :: replace_key kt k value rest
  end.

Lemma same_key_true kt k1 k2 :
  same_key kt k1 k2 = true <-> k1 = k2 /\ key_kind k2 = kt.
Proof.
  unfold same_key, KEY_INODE, KEY_TUPLE.
  destruct (Z.eqb_spec kt 1) as [->|H1]; [|destruct (Z.eqb_spec kt 2) as [->|H2]].
  - destruct k1, k2; simpl; rewrite ?Z.eqb_eq;
      split; try discriminate; try (intros [E ?]; inversion E; auto; fail);
      try (intros [? ?]; discriminate); intros ->; auto.
  - destruct k1, k2; simpl; rewrite ?tuple_eqb_eq;
      split; try discriminate; try (intros [E ?]; inversion E; auto; fail);
      try (intros [? ?]; discriminate); intros ->; auto.
  - split; [discriminate|]. intros [_ E]. destruct k2; simpl in E; unfold KEY_INODE, KEY_TUPLE in E; congruence.
Qed.

Lemma find_key_Some kt k es e :
  find_key kt k es = Some e ->
  e ∈ es /\ e_key e = k /\ key_kind k = kt.
Proof.
  induction es as [|e' es IH]; simpl; [discriminate|].
  destruct (same_key kt (e_key e') k) eqn:E.
  - intros H; inversion H; subst. apply same_key_true in E as [? ?].
    split; [left | auto].
  - intros H. destruct (IH H) as (? & ? & ?). split; [right; auto | auto].
Qed.

Lemma find_key_None kt k es :
  find_key kt k es = None -> key_kind k = kt ->
  forall e, e ∈ es -> e_key e <> k.
Proof.
  induction es as [|e' es IH]; simpl; intros H Hk e He.
  - inversion He.
  - destruct (same_key kt (e_key e') k) eqn:E; [discriminate|].
    apply elem_of_cons in He as [->|He]; [|auto].
    intros Heq. assert (same_key kt (e_key e') k = true); [|congruence].
    apply same_key_true. auto.
Qed.

Lemma find_key_other_kind kt k es :
  key_kind k <> kt -> find_key kt k es = None.
Proof.
  intros Hk. induction es as [|e es IH]; simpl; [reflexivity|].
  destruct (same_key kt (e_key e) k) eqn:E; [|exact IH].
  apply same_key_true in E as [_ ?]. contradiction.
Qed.

(** In a chain without repeated keys the entry of a key is found, and
    removing the key removes that entry alone. *)
Lemma find_key_nodup kt es e :
  NoDup (e_key <$> es) -> e ∈ es -> key_kind (e_key e) = kt ->
  find_key kt (e_key e) es = Some e.
Proof.
  induction es as [|e' es IH]; simpl; intros Hnd He Hk; [inversion He|].
  apply NoDup_cons in Hnd as [Hnot Hnd].
  destruct (same_key kt (e_key e') (e_key e)) eqn:E.
  - apply same_key_true in E as [Heq _].
    apply elem_of_cons in He as [->|He]; [reflexivity|].
    exfalso. apply Hnot. rewrite Heq. apply list_elem_of_fmap. eauto.
  - apply elem_of_cons in He as [->|He]; [|auto].
    assert (same_key kt (e_key e') (e_key e') = true); [|congruence].
    apply same_key_true. auto.
Qed.

Lemma remove_key_nodup kt es e :
  NoDup (e_key <$> es) -> e ∈ es -> key_kind (e_key e) = kt ->
  NoDup (e_key <$> remove_key kt (e_key e) es) /\
  forall e', e' ∈ remove_key kt (e_key e) es <-> e' ∈ es /\ e_key e' <> e_key e.
Proof.
  induction es as [|e0 es IH]; simpl; intros Hnd He Hk; [inversion He|].
  apply NoDup_cons in Hnd as [Hnot Hnd].
  destruct (same_key kt (e_key e0) (e_key e)) eqn:E.
  - apply same_key_true in E as [Heq _]. split; [exact Hnd|].
    intros e'. rewrite elem_of_cons. split.
    + intros H. split; [auto|]. intros Hk'. apply Hnot. rewrite Heq, <- Hk'.
      apply list_elem_of_fmap. eauto.
    + intros [[->|H] Hne]; [congruence | exact H].
  - apply elem_of_cons in He as [->|He].
    { assert (same_key kt (e_key e0) (e_key e0) = true); [|congruence].
      apply same_key_true. auto. }
    destruct (IH Hnd He Hk) as [Hnd' Hin]. split.
    + simpl. apply NoDup_cons. split; [|exact Hnd'].
      intros Hm. apply Hnot. apply list_elem_of_fmap in Hm as (e1 & -> & H1).
      apply Hin in H1 as [H1 _]. apply list_elem_of_fmap. eauto.
    + intros e'. rewrite !elem_of_cons, Hin. split.
      * intros [->|[? ?]]; [|auto]. split; [auto|].
        intros Hk'. assert (same_key kt (e_key e0) (e_key e) = true); [|congruence].
        apply same_key_true. auto.
      * intros [[->|?] ?]; auto.
Qed.

Section WithLayout.
Context {L : layout}.

(** *** Keys read in the shape of the other *)

(** [apart k e]: when the key [k] and the key of the entry [e] differ in
    shape, the tuple of the two does not begin with the bytes of the
    inode. *)
Definition apart (k : key) (e : entry) : Prop :=
  match k, e_key e with
  | KInode i, KTuple t => tuple_head t <> i
  | KTuple t, KInode j => j <> tuple_head t
  | _, _ => True
  end.

Lemma compare_apart h kt k e :
  key_kind k = kt -> apart k e ->
  ht_cb_compare kt (entry_memory h e) (key_memory k) = same_key kt (e_key e) k.
Proof.
  unfold apart, entry_memory, ht_cb_compare, same_key.
  intros <- Ha. destruct k as [i|u], (e_key e) as [j|t]; cbn in *.
  - reflexivity.
  - apply Z.eqb_neq. exact Ha.
  - apply andb_false_iff. left. apply Z.eqb_neq. exact Ha.
  - reflexivity.
Qed.

Lemma find_entry_apart h kt k es :
  key_kind k = kt -> Forall (apart k) es ->
  find_entry h kt k es = find_key kt k es.
Proof.
  intros Hk Ha. induction Ha as [|e es He _ IH]; cbn [find_entry find_key];
    [reflexivity|].
  rewrite (compare_apart h kt k e Hk He), IH. reflexivity.
Qed.

Lemma remove_entry_apart h kt k es :
  key_kind k = kt -> Forall (apart k) es ->
  remove_entry h kt k es = remove_key kt k es.
Proof.
  intros Hk Ha. induction Ha as [|e es He _ IH];
    cbn [remove_entry remove_key]; [reflexivity|].
  rewrite (compare_apart h kt k e Hk He), IH. reflexivity.
Qed.

Lemma replace_entry_apart h kt k p es :
  key_kind k = kt -> Forall (apart k) es ->
  replace_entry h kt k p es = replace_key kt k p es.
Proof.
  intros Hk Ha. induction Ha as [|e es He _ IH];
    cbn [replace_entry replace_key]; [reflexivity|].
  rewrite (compare_apart h kt k e Hk He), IH. reflexivity.
Qed.

(** A comparison of inodes reads eight bytes: what the records hold is
    of no account. *)
Lemma compare_inode_heap h h' e k :
  ht_cb_compare KEY_INODE (entry_memory h e) k
  = ht_cb_compare KEY_INODE (entry_memory h' e) k.
Proof. unfold entry_memory. destruct (e_key e); reflexivity. Qed.

Lemma find_entry_inode_heap h h' k es :
  find_entry h KEY_INODE k es = find_entry h' KEY_INODE k es.
Proof.
  induction es as [|e es IH]; cbn [find_entry]; [reflexivity|].
  rewrite (compare_inode_heap h h'), IH. reflexivity.
Qed.

(** An entry that is given another value is compared as before: its key
    pointer has not moved. *)
Lemma entry_memory_value h e p :
  entry_memory h {| e_key := e_key e; e_value := p; e_conn := e_conn e |}
  = entry_memory h e.
Proof. reflexivity. Qed.

Lemma find_entry_Some h kt k es e :
  find_entry h kt k es = Some e ->
  e ∈ es /\ ht_cb_compare kt (entry_memory h e) (key_memory k) = true.
Proof.
  induction es as [|e' es IH]; cbn [find_entry]; [discriminate|].
  destruct (ht_cb_compare kt (entry_memory h e') (key_memory k)) eqn:E.
  - intros H; inversion H; subst. split; [left | exact E].
  - intros H. destruct (IH H) as [? ?]. split; [right; auto | auto].
Qed.

(** *** The operations, step by step *)

Definition live (w : world) (p : nat) (c : connection_t) : Prop :=
  heap w !! p = Some (Some c).

Lemma get_by_inode_run w es i :
  ht_connections w = Table es ->
  connection_get_by_inode i w
  = inr (option_map e_value (find_entry (heap w) KEY_INODE (KInode i) es),
         with_key_type KEY_INODE w).
Proof.
  intros H. unfold connection_get_by_inode, hashtable_get, bind, set_key_type,
    entries, get_world, ret. simpl. rewrite H. reflexivity.
Qed.

Lemma get_by_tuple_run w es t :
  ht_connections w = Table es ->
  connection_get_by_tuple t w
  = inr (option_map e_value (find_entry (heap w) KEY_TUPLE (KTuple t) es),
         with_key_type KEY_TUPLE w).
Proof.
  intros H. unfold connection_get_by_tuple, hashtable_get, bind, set_key_type,
    entries, get_world, ret. simpl. rewrite H. reflexivity.
Qed.

Lemma get_by_inode_apart w es i :
  ht_connections w = Table es -> Forall (apart (KInode i)) es ->
  connection_get_by_inode i w
  = inr (option_map e_value (find_key KEY_INODE (KInode i) es),
         with_key_type KEY_INODE w).
Proof.
  intros H Ha. rewrite (get_by_inode_run w es i H).
  rewrite find_entry_apart by auto. reflexivity.
Qed.

Lemma get_by_tuple_apart w es t :
  ht_connections w = Table es -> Forall (apart (KTuple t)) es ->
  connection_get_by_tuple t w
  = inr (option_map e_value (find_key KEY_TUPLE (KTuple t) es),
         with_key_type KEY_TUPLE w).
Proof.
  intros H Ha. rewrite (get_by_tuple_run w es t H).
  rewrite find_entry_apart by auto. reflexivity.
Qed.

Lemma lookup_new {A} (h : list A) x : (h ++ [x]) !! length h = Some x.
Proof. rewrite lookup_app_r by lia. now rewrite Nat.sub_diag. Qed.

Lemma insert_new {A} (h : list A) x y : <[length h := y]> (h ++ [x]) = h ++ [y].
Proof. rewrite insert_app_r_alt by lia. now rewrite Nat.sub_diag. Qed.

(** The tuple [create_new_conn] builds from the fields of a line. *)
Definition tuple_of (f : line_fields) (protocol : Z) : struct_tuple :=
  {| local_ip := to_unsigned 32 (digits_value 16 (f_local_addr f));
     remote_ip := to_unsigned 32 (digits_value 16 (f_rem_addr f));
     local_port := f_local_port f;
     remote_port := f_rem_port f;
     protocol := protocol |}.

(** The record as [connection_insert] leaves it. *)
Definition conn_of (f : line_fields) (protocol : Z) : connection_t :=
  {| inode := f_inode f; tuple := tuple_of f protocol; state := f_state f;
     active := true; use := 2 |}.

Definition skipped (f : line_fields) : bool :=
  (f_state f =? TCP_TIME_WAIT) || (f_state f =? TCP_LISTEN).

(** The entry [hashtable_set] makes. *)
Definition entry_of (k : key) (p : nat) : entry :=
  {| e_key := k; e_value := p; e_conn := p |}.

(** The chain after [hashtable_set], in the memory [h] and under
    [key_type] [kt]. *)
Definition chain_set (impl : hashtable_impl)
    (h : list (option connection_t)) (kt : Z) (k : key) (p : nat)
    (es : list entry) : list entry :=
  match find_entry h kt k es with
  | Some _ =>
      if set_replaces impl then replace_entry h kt k p es
      else entry_of k p :: es
  | None => entry_of k p :: es
  end.

(** The same when every key is read in its own shape. *)
Definition chain_with_tuple (impl : hashtable_impl) (t : struct_tuple)
    (p : nat) (es : list entry) : list entry :=
  match find_key KEY_TUPLE (KTuple t) es with
  | Some _ =>
      if set_replaces impl then replace_key KEY_TUPLE (KTuple t) p es
      else {| e_key := KTuple t; e_value := p; e_conn := p |} :: es
  | None => {| e_key := KTuple t; e_value := p; e_conn := p |} :: es
  end.

Lemma chain_set_apart impl h t p es :
  Forall (apart (KTuple t)) es ->
  chain_set impl h KEY_TUPLE (KTuple t) p es = chain_with_tuple impl t p es.
Proof.
  intros Ha. unfold chain_set, chain_with_tuple.
  rewrite find_entry_apart, replace_entry_apart by auto. reflexivity.
Qed.

Lemma update_line_bad impl protocol line w :
  scan_line line = None ->
  update_line impl protocol line w = inr (Exit 0, w).
Proof. intros H. unfold update_line. rewrite H. reflexivity. Qed.

Lemma update_line_skip impl protocol line f w :
  scan_line line = Some f -> skipped f = true ->
  update_line impl protocol line w = inr (Continue, w).
Proof.
  intros H Hs. unfold update_line. rewrite H.
  unfold skipped in Hs. rewrite Hs. reflexivity.
Qed.

(** A line whose inode the lookup finds: the record found is marked. *)
Lemma update_line_found impl protocol line f w es e c :
  scan_line line = Some f -> skipped f = false ->
  ht_connections w = Table es ->
  find_entry (heap w) KEY_INODE (KInode (f_inode f)) es = Some e ->
  live w (e_value e) c ->
  update_line impl protocol line w
  = inr (Continue,
         {| heap := <[e_value e := Some (with_active true c)]> (heap w);
            ht_connections := Table es; key_type := KEY_INODE |}).
Proof.
  intros H Hs Ht Hf Hl. unfold update_line. rewrite H.
  unfold skipped in Hs. rewrite Hs.
  unfold bind at 1. rewrite (get_by_inode_run w es _ Ht), Hf. simpl.
  unfold bind, load, store, ret, live in *. simpl. rewrite Hl.
  unfold with_heap. simpl. rewrite Ht, Hl. reflexivity.
Qed.

(** The same when the record found has been freed. *)
Lemma update_line_freed impl protocol line f w es e :
  scan_line line = Some f -> skipped f = false ->
  ht_connections w = Table es ->
  find_entry (heap w) KEY_INODE (KInode (f_inode f)) es = Some e ->
  (forall c, ~ live w (e_value e) c) ->
  update_line impl protocol line w = inl (UseAfterFree (e_value e)).
Proof.
  intros H Hs Ht Hf Hl. unfold update_line. rewrite H.
  unfold skipped in Hs. rewrite Hs.
  unfold bind at 1. rewrite (get_by_inode_run w es _ Ht), Hf. simpl.
  unfold bind, load, live in *. simpl.
  destruct (heap w !! e_value e) as [[c|]|] eqn:E; [|reflexivity|reflexivity].
  destruct (Hl c eq_refl).
Qed.

Lemma create_new_conn_run w i la ra lp rp st proto :
  hex_text la -> hex_text ra ->
  create_new_conn i la ra lp rp st proto w
  = inr (Some (length (heap w)),
         with_heap
           (heap w ++
            [Some {| inode := i;
                     tuple := {| local_ip := to_unsigned 32 (digits_value 16 la);
                                 remote_ip := to_unsigned 32 (digits_value 16 ra);
                                 local_port := lp; remote_port := rp;
                                 protocol := proto |};
                     state := st; active := true; use := 0 |}]) w).
Proof.
  intros Hl Hr. unfold create_new_conn.
  rewrite (scan_ip_hex _ Hl), (scan_ip_hex _ Hr).
  unfold bind, calloc, store, ret. destruct w as [h t k]. simpl.
  rewrite lookup_new, (insert_new h). reflexivity.
Qed.

Lemma load_run w p c : live w p c -> load p w = inr (c, w).
Proof. unfold live, load. intros ->. reflexivity. Qed.

Lemma store_run w p c c' :
  live w p c ->
  store p c' w = inr (tt, with_heap (<[p := Some c']> (heap w)) w).
Proof. unfold live, store. intros ->. reflexivity. Qed.

Lemma hashtable_set_run impl w es k p :
  ht_connections w = Table es ->
  hashtable_set impl k p w
  = inr (tt, with_table (Table (chain_set impl (heap w) (key_type w) k p es)) w).
Proof.
  intros Ht. unfold hashtable_set, bind, entries, get_world, chain_set,
    entry_of, set_entries. rewrite Ht.
  destruct (find_entry (heap w) (key_type w) k es);
    [destruct (set_replaces impl)|]; reflexivity.
Qed.

Lemma connection_insert_run impl w p c es :
  live w p c -> ht_connections w = Table es ->
  let h := <[p := Some (with_use 2 c)]> (heap w) in
  connection_insert impl p w
  = inr (tt,
         {| heap := h;
            ht_connections :=
              Table (chain_set impl h KEY_TUPLE (KTuple (tuple c)) p
                       (chain_set impl h KEY_INODE (KInode (inode c)) p es));
            key_type := KEY_TUPLE |}).
Proof.
  intros Hl Ht h.
  assert (Hp : (p < length (heap w))%nat) by (eapply lookup_lt_Some; eauto).
  set (w1 := with_heap h w).
  assert (Hl1 : live w1 p (with_use 2 c)).
  { unfold live, w1, h. cbn [heap with_heap].
    apply list_lookup_insert_eq. exact Hp. }
  unfold connection_insert.
  unfold bind at 1. rewrite (load_run w p c Hl).
  unfold bind at 1. rewrite (store_run w p c _ Hl). fold h. fold w1.
  unfold bind at 1. unfold connection_insert_by_inode.
  unfold bind at 1. rewrite (load_run w1 p _ Hl1).
  unfold bind at 1. unfold set_key_type at 1.
  rewrite (hashtable_set_run impl (with_key_type KEY_INODE w1) es _ p Ht).
  unfold connection_insert_by_tuple.
  unfold bind at 1. rewrite load_run with (c := with_use 2 c) by exact Hl1.
  unfold bind at 1. unfold set_key_type at 1.
  erewrite hashtable_set_run by reflexivity.
  reflexivity.
Qed.

(** A line whose inode the lookup does not find: a record is made of its
    fields and set in the table by its inode, then by its tuple. *)
Lemma update_line_made impl protocol line f w es :
  scan_line line = Some f -> skipped f = false ->
  ht_connections w = Table es ->
  find_entry (heap w) KEY_INODE (KInode (f_inode f)) es = None ->
  let p := length (heap w) in
  let h := heap w ++ [Some (conn_of f protocol)] in
  update_line impl protocol line w
  = inr (Continue,
         {| heap := h;
            ht_connections :=
              Table (chain_set impl h KEY_TUPLE (KTuple (tuple_of f protocol)) p
                       (entry_of (KInode (f_inode f)) p :: es));
            key_type := KEY_TUPLE |}).
Proof.
  intros H Hs Ht Hf. cbv zeta. unfold update_line. rewrite H.
  unfold skipped in Hs. rewrite Hs.
  destruct (scan_line_hex _ _ H) as [Hl Hr].
  unfold bind at 1. rewrite (get_by_inode_run w es _ Ht), Hf. simpl.
  unfold bind at 1. rewrite (create_new_conn_run _ _ _ _ _ _ _ _ Hl Hr).
  unfold bind at 1.
  erewrite connection_insert_run; cycle 1.
  - unfold live. simpl. apply lookup_new.
  - simpl. exact Ht.
  - simpl. rewrite (insert_new (heap w)). fold (tuple_of f protocol).
    fold (conn_of f protocol).
    unfold chain_set at 2.
    rewrite (find_entry_inode_heap _ (heap w)), Hf. reflexivity.
Qed.


(** *** Looking up what was set *)

Lemma compare_self h kt k p :
  key_kind k = kt ->
  ht_cb_compare kt (entry_memory h (entry_of k p)) (key_memory k) = true.
Proof.
  intros <-. destruct k as [i|t]; unfold entry_memory, ht_cb_compare; cbn.
  - apply Z.eqb_refl.
  - apply tuple_eqb_eq. reflexivity.
Qed.

Lemma find_replace_entry h kt k p es e :
  find_entry h kt k es = Some e ->
  find_entry h kt k (replace_entry h kt k p es)
  = Some {| e_key := e_key e; e_value := p; e_conn := e_conn e |}.
Proof.
  induction es as [|e0 es IH]; cbn [find_entry replace_entry]; [discriminate|].
  destruct (ht_cb_compare kt (entry_memory h e0) (key_memory k)) eqn:E.
  - intros H. inversion H; subst. cbn [find_entry].
    rewrite entry_memory_value, E. reflexivity.
  - intros H. cbn [find_entry]. rewrite E. auto.
Qed.

(** A lookup that gives [p] still gives [p] after the value of some entry
    is replaced by [p]. *)
Lemma find_replace_value h kt k kt' k' p es :
  option_map e_value (find_entry h kt k es) = Some p ->
  option_map e_value (find_entry h kt k (replace_entry h kt' k' p es))
  = Some p.
Proof.
  induction es as [|e0 es IH]; cbn [find_entry replace_entry]; [discriminate|].
  destruct (ht_cb_compare kt' (entry_memory h e0) (key_memory k')) eqn:E'.
  - cbn [find_entry]. rewrite entry_memory_value.
    destruct (ht_cb_compare kt (entry_memory h e0) (key_memory k));
      [reflexivity | auto].
  - cbn [find_entry].
    destruct (ht_cb_compare kt (entry_memory h e0) (key_memory k));
      [auto | exact IH].
Qed.

Lemma find_chain_set_same impl h kt k p es :
  key_kind k = kt ->
  option_map e_value (find_entry h kt k (chain_set impl h kt k p es)) = Some p.
Proof.
  intros Hk. unfold chain_set.
  assert (Hpush : option_map e_value (find_entry h kt k (entry_of k p :: es))
                  = Some p).
  { cbn [find_entry]. rewrite (compare_self h kt k p Hk). reflexivity. }
  destruct (find_entry h kt k es) as [e|] eqn:E; [|exact Hpush].
  destruct (set_replaces impl); [|exact Hpush].
  rewrite (find_replace_entry _ _ _ p _ _ E). reflexivity.
Qed.

Lemma find_chain_set_value impl h kt k kt' k' p es :
  option_map e_value (find_entry h kt k es) = Some p ->
  option_map e_value (find_entry h kt k (chain_set impl h kt' k' p es))
  = Some p.
Proof.
  intros H. unfold chain_set.
  assert (Hpush : option_map e_value (find_entry h kt k (entry_of k' p :: es))
                  = Some p).
  { cbn [find_entry].
    destruct (ht_cb_compare kt (entry_memory h (entry_of k' p)) (key_memory k));
      [reflexivity | exact H]. }
  destruct (find_entry h kt' k' es); [|exact Hpush].
  destruct (set_replaces impl); [|exact Hpush].
  apply find_replace_value. exact H.
Qed.

(** After the two [hashtable_set] of [connection_insert], whatever the
    chain held and however the keys are laid out, both lookups give the
    record. *)
Lemma lookups_after_insert impl h i t p es :
  let es' := chain_set impl h KEY_TUPLE (KTuple t) p
               (chain_set impl h KEY_INODE (KInode i) p es) in
  option_map e_value (find_entry h KEY_INODE (KInode i) es') = Some p /\
  option_map e_value (find_entry h KEY_TUPLE (KTuple t) es') = Some p.
Proof.
  cbv zeta. split.
  - apply find_chain_set_value. apply find_chain_set_same. reflexivity.
  - apply find_chain_set_same. reflexivity.
Qed.


Lemma lookups_after_made impl h i t p es :
  let es' := chain_set impl h KEY_TUPLE (KTuple t) p
               (entry_of (KInode i) p :: es) in
  option_map e_value (find_entry h KEY_INODE (KInode i) es') = Some p /\
  option_map e_value (find_entry h KEY_TUPLE (KTuple t) es') = Some p.
Proof.
  cbv zeta. split.
  - apply find_chain_set_value. cbn [find_entry].
    rewrite (compare_self h KEY_INODE (KInode i) p eq_refl). reflexivity.
  - apply find_chain_set_same. reflexivity.
Qed.

(** *** The memory while lines are read *)

(** An entry is sound when it points to a live record and carries one of
    its two keys. *)
Definition entry_ok (w : world) (e : entry) : Prop :=
  exists c, live w (e_value e) c /\
            (e_key e = KInode (inode c) \/ e_key e = KTuple (tuple c)).

Definition table_sound (w : world) : Prop :=
  exists es, ht_connections w = Table es /\ Forall (entry_ok w) es.

(** What a slot of the heap may become while lines are read: a record
    keeps its identity and its count, and is not made inactive. *)
Definition slot_kept (a b : option connection_t) : Prop :=
  match a, b with
  | Some c, Some c' =>
      inode c' = inode c /\ tuple c' = tuple c /\ state c' = state c /\
      use c' = use c /\ (active c = true -> active c' = true)
  | None, None => True
  | _, _ => False
  end.

(** What an entry may become: it keeps its key pointer, and its value
    unless [hashtable_set] gives it a record made since (one at an
    address from [n] on, below [m]). *)
Definition entry_kept (n m : nat) (e e' : entry) : Prop :=
  e_key e' = e_key e /\ e_conn e' = e_conn e /\
  (e_value e' = e_value e \/ (n <= e_value e' < m)%nat).

Definition made (n m : nat) (e : entry) : Prop := (n <= e_value e < m)%nat.

(** What the table may become: the chain it had is the end of the chain
    it has, entry for entry, and the entries before it give records made
    since. *)
Definition table_kept (n m : nat) (t t' : table) : Prop :=
  match t, t' with
  | Table es, Table es' =>
      exists added rest,
        es' = added ++ rest /\ Forall2 (entry_kept n m) es rest /\
        Forall (made n m) added
  | NULL, NULL => True
  | Freed, Freed => True
  | _, _ => False
  end.

(** [kept w w']: from [w] to [w'] nothing was freed, aged or taken out of
    the table, and every record made on the way is live, with its two
    references, active, and the entry of its inode is in the chain. *)
Definition kept (w w' : world) : Prop :=
  let n := length (heap w) in
  let m := length (heap w') in
  (forall p a, heap w !! p = Some a ->
     exists b, heap w' !! p = Some b /\ slot_kept a b) /\
  (forall p, (n <= p < m)%nat ->
     exists c, live w' p c /\ use c = 2 /\ active c = true /\
       exists es' e, ht_connections w' = Table es' /\ e ∈ es' /\
                     e_conn e = p /\ e_key e = KInode (inode c)) /\
  table_kept n m (ht_connections w) (ht_connections w').

Lemma slot_kept_refl a : slot_kept a a.
Proof. destruct a; simpl; auto. Qed.

Lemma slot_kept_trans a b c : slot_kept a b -> slot_kept b c -> slot_kept a c.
Proof.
  destruct a, b, c; simpl; try tauto.
  intros (? & ? & ? & ? & Hx) (? & ? & ? & ? & Hy).
  repeat split; try congruence. auto.
Qed.

Lemma entry_kept_refl n m e : entry_kept n m e e.
Proof. unfold entry_kept. auto. Qed.

Lemma Forall2_same {A} (R : A -> A -> Prop) l :
  (forall x, R x x) -> Forall2 R l l.
Proof. intros H. induction l; constructor; auto. Qed.

Lemma Forall2_image {A B} (R : A -> B -> Prop) l l' x :
  Forall2 R l l' -> x ∈ l -> exists y, y ∈ l' /\ R x y.
Proof.
  intros H. induction H as [|a b l l' Hab _ IH]; intros Hx; [inversion Hx|].
  apply elem_of_cons in Hx as [->|Hx].
  - exists b. split; [left | exact Hab].
  - destruct (IH Hx) as (y & Hy & HR). exists y. split; [right; auto | auto].
Qed.

Lemma Forall2_preimage {A B} (R : A -> B -> Prop) l l' y :
  Forall2 R l l' -> y ∈ l' -> exists x, x ∈ l /\ R x y.
Proof.
  intros H. induction H as [|a b l l' Hab _ IH]; intros Hy; [inversion Hy|].
  apply elem_of_cons in Hy as [->|Hy].
  - exists a. split; [left | exact Hab].
  - destruct (IH Hy) as (x & Hx & HR). exists x. split; [right; auto | auto].
Qed.

Lemma table_kept_refl n m t : table_kept n m t t.
Proof.
  destruct t as [|es|]; cbn; auto.
  exists [], es. split; [reflexivity|]. split; [|constructor].
  apply Forall2_same. apply entry_kept_refl.
Qed.

Lemma kept_refl w : kept w w.
Proof.
  split; [|split].
  - intros p a H. exists a. split; [exact H | apply slot_kept_refl].
  - intros p Hp. lia.
  - apply table_kept_refl.
Qed.

Lemma kept_length w w' : kept w w' -> (length (heap w) <= length (heap w'))%nat.
Proof.
  intros [H _].
  destruct (Nat.eq_dec (length (heap w)) 0%nat) as [E|E]; [lia|].
  assert (Hlt : (length (heap w) - 1 < length (heap w))%nat) by lia.
  destruct (lookup_lt_is_Some_2 (heap w) _ Hlt) as [a Ha].
  destruct (H _ _ Ha) as (b & Hb & _).
  apply lookup_lt_Some in Hb. lia.
Qed.

Lemma table_kept_trans n1 n2 m t1 t2 t3 :
  (n1 <= n2 <= m)%nat ->
  table_kept n1 n2 t1 t2 -> table_kept n2 m t2 t3 -> table_kept n1 m t1 t3.
Proof.
  intros Hn. destruct t1 as [|es1|], t2 as [|es2|], t3 as [|es3|]; cbn;
    try tauto.
  intros (a1 & r1 & -> & H1 & Ha1) (a2 & r2 & -> & H2 & Ha2).
  apply Forall2_app_inv_l in H2 as (r2a & r2b & H2a & H2b & ->).
  exists (a2 ++ r2a), r2b. split; [apply app_assoc|]. split.
  - clear Ha1 Ha2 H2a. revert r2b H2b.
    induction H1 as [|e e1 es1 r1 He _ IH]; intros r2b H2b.
    + inversion H2b. constructor.
    + inversion H2b as [|? e2 ? r2b' He2 Hrest]; subst. constructor; [|auto].
      destruct He as (Hk & Hc & Hv), He2 as (Hk2 & Hc2 & Hv2).
      split; [congruence|]. split; [congruence|].
      destruct Hv2 as [Hv2|Hv2]; [|right; lia].
      rewrite Hv2. destruct Hv as [Hv|Hv]; [left; exact Hv | right; lia].
  - apply Forall_app. split.
    + eapply Forall_impl; [exact Ha2|]. unfold made. intros e ?. lia.
    + clear H1 H2b Ha2. induction H2a as [|e e' a1 r2a He _ IH]; [constructor|].
      inversion Ha1 as [|? ? Hm Ha1']; subst. constructor; [|auto].
      unfold made in *. destruct He as (_ & _ & [Hv|Hv]); lia.
Qed.

Lemma kept_trans w1 w2 w3 : kept w1 w2 -> kept w2 w3 -> kept w1 w3.
Proof.
  intros H12 H23. pose proof (kept_length _ _ H12) as Hlen12.
  pose proof (kept_length _ _ H23) as Hlen23.
  destruct H12 as (Ha & Hb & Hc), H23 as (Ha' & Hb' & Hc').
  split; [|split].
  - intros p a H. destruct (Ha _ _ H) as (b & Hb1 & Hk1).
    destruct (Ha' _ _ Hb1) as (c & Hc1 & Hk2).
    exists c. split; [exact Hc1 | eapply slot_kept_trans; eauto].
  - intros p Hp.
    destruct (le_lt_dec (length (heap w2)) p) as [Hge|Hlt]; [apply Hb'; lia|].
    destruct (Hb p ltac:(lia)) as (c & Hl & Hu & Hact & es2 & e & Ht2 & He & Hec & Hek).
    destruct (Ha' _ _ Hl) as (b & Hb3 & Hk).
    destruct b as [c'|]; [|destruct Hk].
    destruct Hk as (Hi & _ & _ & Hu' & Hact').
    exists c'. split; [exact Hb3|]. split; [congruence|]. split; [auto|].
    rewrite Ht2 in Hc'. destruct (ht_connections w3) as [|es3|]; cbn in Hc';
      try contradiction.
    destruct Hc' as (a2 & r2 & -> & H2 & _).
    destruct (Forall2_image _ _ _ _ H2 He) as (e' & He' & Hk' & Hc2 & _).
    exists (a2 ++ r2), e'. split; [reflexivity|].
    split; [apply elem_of_app; auto|]. split; congruence.
  - eapply table_kept_trans; eauto.
Qed.

Lemma replace_entry_kept h kt k n m p es :
  (n <= p < m)%nat ->
  Forall2 (entry_kept n m) es (replace_entry h kt k p es).
Proof.
  intros Hp. induction es as [|e es IH]; cbn [replace_entry]; [constructor|].
  destruct (ht_cb_compare kt (entry_memory h e) (key_memory k)).
  - constructor; [|apply Forall2_same, entry_kept_refl].
    unfold entry_kept. cbn. auto.
  - constructor; [apply entry_kept_refl | exact IH].
Qed.

(** The chain after [hashtable_set] of a record made since: no entry has
    left, and the entry that was first is first, or second behind the new
    one. *)
Lemma chain_set_kept impl h kt k n m p es :
  (n <= p < m)%nat ->
  exists added rest,
    chain_set impl h kt k p es = added ++ rest /\
    Forall2 (entry_kept n m) es rest /\ Forall (made n m) added.
Proof.
  intros Hp. unfold chain_set.
  assert (Hpush : exists added rest,
            entry_of k p :: es = added ++ rest /\
            Forall2 (entry_kept n m) es rest /\ Forall (made n m) added).
  { exists [entry_of k p], es. split; [reflexivity|].
    split; [apply Forall2_same, entry_kept_refl|].
    constructor; [exact Hp | constructor]. }
  destruct (find_entry h kt k es); [|exact Hpush].
  destruct (set_replaces impl); [|exact Hpush].
  exists [], (replace_entry h kt k p es). split; [reflexivity|].
  split; [apply replace_entry_kept; exact Hp | constructor].
Qed.

Lemma kept_found w es p c :
  ht_connections w = Table es -> live w p c ->
  kept w {| heap := <[p := Some (with_active true c)]> (heap w);
            ht_connections := Table es; key_type := KEY_INODE |}.
Proof.
  intros Ht Hl.
  assert (Hp : (p < length (heap w))%nat) by (eapply lookup_lt_Some; eauto).
  split; [|split]; cbn [heap ht_connections].
  - intros q a Ha. destruct (Nat.eq_dec q p) as [->|E].
    + rewrite list_lookup_insert_eq by exact Hp.
      unfold live in Hl. rewrite Hl in Ha. inversion Ha; subst a.
      eexists. split; [reflexivity|]. simpl. auto.
    + rewrite list_lookup_insert_ne by auto.
      exists a. split; [exact Ha | apply slot_kept_refl].
  - intros q Hq. rewrite length_insert in Hq. lia.
  - rewrite Ht. apply (table_kept_refl _ _ (Table es)).
Qed.

Lemma kept_made impl w es f protocol :
  ht_connections w = Table es ->
  let p := length (heap w) in
  let h := heap w ++ [Some (conn_of f protocol)] in
  kept w {| heap := h;
            ht_connections :=
              Table (chain_set impl h KEY_TUPLE (KTuple (tuple_of f protocol))
                       p (entry_of (KInode (f_inode f)) p :: es));
            key_type := KEY_TUPLE |}.
Proof.
  intros Ht p h.
  assert (Hlen : length h = S p) by (unfold h; rewrite length_app; simpl; lia).
  destruct (chain_set_kept impl h KEY_TUPLE (KTuple (tuple_of f protocol))
              p (S p) p (entry_of (KInode (f_inode f)) p :: es) ltac:(lia))
    as (added & rest & Hch & Hrest & Hadd).
  split; [|split]; cbn [heap ht_connections]; fold p; rewrite ?Hlen.
  - intros q a Ha. exists a. split; [|apply slot_kept_refl].
    unfold h. rewrite lookup_app_l; [exact Ha|]. eapply lookup_lt_Some; eauto.
  - intros q Hq. assert (q = p) by lia. subst q.
    exists (conn_of f protocol). split; [unfold live, h; simpl; apply lookup_new|].
    split; [reflexivity|]. split; [reflexivity|].
    inversion Hrest as [|e0 e0' ? rest' He0 Hrest']; subst.
    eexists _, e0'. split; [reflexivity|]. rewrite Hch.
    split; [apply elem_of_app; right; left|].
    destruct He0 as (Hk & Hc & _). split; [exact Hc | exact Hk].
  - rewrite Ht. cbn. rewrite Hch.
    inversion Hrest as [|e0 e0' ? rest' He0 Hrest']; subst.
    exists (added ++ [e0']), rest'. split; [rewrite <- app_assoc; reflexivity|].
    split; [exact Hrest'|]. apply Forall_app. split; [exact Hadd|].
    constructor; [|constructor]. unfold made.
    destruct He0 as (_ & _ & [Hv|Hv]); [rewrite Hv; cbn; lia | exact Hv].
Qed.

(** The faults an update can stop at, each with what explains it in the
    memory the update began with: an entry of the table whose record has
    been freed, or no table. *)
Definition stale (w : world) (f : fault) : Prop :=
  match f with
  | UseAfterFree p =>
      exists es e, ht_connections w = Table es /\ e ∈ es /\
                   e_value e = p /\ forall c, ~ live w p c
  | NullTable => ht_connections w = NULL
  | FreedTable => ht_connections w = Freed
  | DoubleFree _ => False
  end.

Lemma stale_kept w w' f : kept w w' -> stale w' f -> stale w f.
Proof.
  intros (Hslots & Hnew & Htab) Hst. destruct f as [p|p| |]; cbn in *.
  - destruct Hst as (es' & e' & Ht' & He' & Hv & Hdead).
    rewrite Ht' in Htab. destruct (ht_connections w) as [|es|] eqn:Ht; cbn in Htab;
      try contradiction.
    destruct Htab as (added & rest & -> & Hrest & Hadd).
    assert (Hold : forall c, ~ live w p c).
    { intros c Hl. destruct (Hslots _ _ Hl) as (b & Hb & Hk).
      destruct b as [c'|]; [|destruct Hk]. exact (Hdead c' Hb). }
    apply elem_of_app in He' as [He'|He'].
    + exfalso. pose proof (proj1 (Forall_forall _ _) Hadd e' He') as Hm.
      unfold made in Hm. rewrite Hv in Hm.
      destruct (Hnew p Hm) as (c & Hl & _). exact (Hdead c Hl).
    + destruct (Forall2_preimage _ _ _ _ Hrest He') as (e & He & _ & _ & Hval).
      destruct Hval as [Hval|Hval].
      * exists es, e. split; [reflexivity|]. split; [exact He|].
        split; [congruence | exact Hold].
      * exfalso. rewrite Hv in Hval.
        destruct (Hnew p Hval) as (c & Hl & _). exact (Hdead c Hl).
  - contradiction.
  - destruct (ht_connections w), (ht_connections w'); cbn in Htab; congruence || tauto.
  - destruct (ht_connections w), (ht_connections w'); cbn in Htab; congruence || tauto.
Qed.

Lemma stale_not_sound w f : table_sound w -> ~ stale w f.
Proof.
  intros (es & Ht & Hok) Hst. destruct f as [p|p| |]; cbn in Hst.
  - destruct Hst as (es' & e & Ht' & He & Hv & Hdead).
    rewrite Ht in Ht'. inversion Ht'; subst es'.
    destruct (proj1 (Forall_forall _ _) Hok e He) as (c & Hl & _).
    rewrite Hv in Hl. exact (Hdead c Hl).
  - exact Hst.
  - congruence.
  - congruence.
Qed.

Lemma get_by_inode_no_table w i :
  ht_connections w <> NULL -> (forall es, ht_connections w <> Table es) ->
  connection_get_by_inode i w = inl FreedTable.
Proof.
  intros Hn Ht. unfold connection_get_by_inode, hashtable_get, bind,
    set_key_type, entries. cbn.
  destruct (ht_connections w) as [|es|]; [congruence | destruct (Ht es eq_refl) | reflexivity].
Qed.

(** What a line does, in any memory. *)
Lemma update_line_outcome impl protocol line w :
  (exists fl w',
     update_line impl protocol line w = inr (fl, w') /\ kept w w' /\
     (fl = Continue \/ fl = Exit 0) /\
     (fl = Exit 0 <-> scan_line line = None)) \/
  (exists f, update_line impl protocol line w = inl f /\ stale w f).
Proof.
  destruct (scan_line line) as [f|] eqn:Hscan.
  - destruct (skipped f) eqn:Hskip.
    + left. exists Continue, w. rewrite (update_line_skip _ _ _ _ _ Hscan Hskip).
      split; [reflexivity|]. split; [apply kept_refl|]. split; [auto|].
      split; discriminate.
    + destruct (ht_connections w) as [|es|] eqn:Ht.
      * right. exists NullTable. split; [|exact Ht].
        unfold update_line. rewrite Hscan. unfold skipped in Hskip. rewrite Hskip.
        unfold bind at 1. unfold connection_get_by_inode, hashtable_get, bind,
          set_key_type, entries. cbn. rewrite Ht. reflexivity.
      * destruct (find_entry (heap w) KEY_INODE (KInode (f_inode f)) es)
          as [e|] eqn:Hfind.
        -- destruct (heap w !! e_value e) as [[c|]|] eqn:Hl.
           ++ left. eexists Continue, _.
              split; [exact (update_line_found impl protocol _ _ _ _ _ c
                               Hscan Hskip Ht Hfind Hl)|].
              split; [apply kept_found; assumption|]. split; [auto|].
              split; discriminate.
           ++ right. exists (UseAfterFree (e_value e)).
              split; [apply (update_line_freed impl protocol _ _ _ _ _
                               Hscan Hskip Ht Hfind);
                      unfold live; intros c; congruence|].
              exists es, e. apply find_entry_Some in Hfind as [He _].
              repeat split; auto. unfold live. intros c. congruence.
           ++ right. exists (UseAfterFree (e_value e)).
              split; [apply (update_line_freed impl protocol _ _ _ _ _
                               Hscan Hskip Ht Hfind);
                      unfold live; intros c; congruence|].
              exists es, e. apply find_entry_Some in Hfind as [He _].
              repeat split; auto. unfold live. intros c. congruence.
        -- left. eexists Continue, _.
           split; [exact (update_line_made impl protocol _ _ _ _
                            Hscan Hskip Ht Hfind)|].
           split; [apply kept_made; assumption|]. split; [auto|].
           split; discriminate.
      * right. exists FreedTable. split; [|exact Ht].
        unfold update_line. rewrite Hscan. unfold skipped in Hskip. rewrite Hskip.
        unfold bind at 1. unfold connection_get_by_inode, hashtable_get, bind,
          set_key_type, entries. cbn. rewrite Ht. reflexivity.
  - left. exists (Exit 0), w. rewrite (update_line_bad _ _ _ _ Hscan).
    split; [reflexivity|]. split; [apply kept_refl|]. split; [auto|].
    split; auto.
Qed.

Definition unparsed (line : list ascii) : Prop := scan_line line = None.

Lemma update_lines_outcome impl protocol lines : forall w,
  (exists r w',
     update_lines impl protocol lines w = inr (r, w') /\ kept w w' /\
     (r = 0 \/ r = 1) /\ (r = 0 <-> Exists unparsed lines)) \/
  (exists f, update_lines impl protocol lines w = inl f /\ stale w f).
Proof.
  induction lines as [|line rest IH]; intros w.
  - left. exists 1, w. split; [reflexivity|]. split; [apply kept_refl|].
    split; [auto|]. split; [discriminate | intros H; inversion H].
  - cbn [update_lines]. unfold bind.
    destruct (update_line_outcome impl protocol line w)
      as [(fl & w1 & Hrun & Hk1 & Hfl & Hbad)|(f & Hrun & Hst)].
    + rewrite Hrun. destruct Hfl as [-> | ->].
      * destruct (IH w1) as [(r & w2 & Hrun2 & Hk2 & Hr & Hiff)|(f & Hrun2 & Hst)].
        -- left. exists r, w2. split; [exact Hrun2|].
           split; [eapply kept_trans; eauto|]. split; [exact Hr|].
           rewrite Hiff. split; [intros H; right; exact H|].
           intros H. apply Exists_cons in H as [H|H]; [|exact H].
           apply Hbad in H. discriminate.
        -- right. exists f. split; [exact Hrun2|]. eapply stale_kept; eauto.
      * left. exists 0, w1. split; [reflexivity|]. split; [exact Hk1|].
        split; [auto|]. split; [|reflexivity].
        intros _. left. apply Hbad. reflexivity.
    + right. exists f. rewrite Hrun. auto.
Qed.

(** The file was opened, has its header, and one of the lines after it
    does not give the six fields. *)
Definition has_malformed_line (file : option (list (list ascii))) : Prop :=
  exists hdr lines, file = Some (hdr :: lines) /\ Exists unparsed lines.

Lemma connection_update__outcome impl file protocol w :
  (exists r w',
     connection_update_ impl file protocol w = inr (r, w') /\ kept w w' /\
     (r = 0 \/ r = 1) /\
     (r = 1 <-> exists hdr lines, file = Some (hdr :: lines) /\
                                  ~ Exists unparsed lines)) \/
  (exists f, connection_update_ impl file protocol w = inl f /\ stale w f).
Proof.
  destruct file as [[|hdr lines]|]; cbn [connection_update_].
  - left. exists 0, w. split; [reflexivity|]. split; [apply kept_refl|].
    split; [auto|]. split; [lia|]. intros (? & ? & E & _). discriminate.
  - destruct (update_lines_outcome impl protocol lines w)
      as [(r & w' & Hrun & Hk & Hr & Hiff)|Hf]; [|right; exact Hf].
    left. exists r, w'. split; [exact Hrun|]. split; [exact Hk|].
    split; [exact Hr|]. split.
    + intros ->. exists hdr, lines. split; [reflexivity|].
      intros H. apply Hiff in H. discriminate.
    + intros (? & ? & E & Hno). inversion E; subst.
      destruct Hr as [-> | ->]; [|reflexivity].
      exfalso. apply Hno. apply Hiff. reflexivity.
  - left. exists 0, w. split; [reflexivity|]. split; [apply kept_refl|].
    split; [auto|]. split; [lia|]. intros (? & ? & E & _). discriminate.
Qed.


(** A requested file has a malformed line. *)
Definition malformed (files : procnet) (proto : Z) : Prop :=
  (Z.land proto TCP <> 0 /\ has_malformed_line (PATH_TCP files)) \/
  (Z.land proto UDP <> 0 /\ has_malformed_line (PATH_UDP files)).

Lemma requested_outcome impl proto flag file protocol w :
  let m := if negb (Z.land proto flag =? 0)
           then connection_update_ impl file protocol else ret 1 in
  (exists r w',
     m w = inr (r, w') /\ kept w w' /\ (r = 0 \/ r = 1) /\
     (Z.land proto flag <> 0 -> has_malformed_line file -> r = 0)) \/
  (exists f, m w = inl f /\ stale w f).
Proof.
  cbv zeta. destruct (Z.eqb_spec (Z.land proto flag) 0) as [E|E]; cbn [negb].
  - left. exists 1, w. split; [reflexivity|]. split; [apply kept_refl|].
    split; [auto|]. intros H. contradiction.
  - destruct (connection_update__outcome impl file protocol w)
      as [(r & w' & Hrun & Hk & Hr & Hiff)|Hf]; [|right; exact Hf].
    left. exists r, w'. split; [exact Hrun|]. split; [exact Hk|].
    split; [exact Hr|]. intros _ (hdr & lines & -> & Hex).
    destruct Hr as [-> | ->]; [reflexivity|].
    destruct (proj1 Hiff eq_refl) as (hdr' & lines' & Eq & Hno).
    inversion Eq; subst. contradiction.
Qed.

(** The table answers for the inode [i]: the lookup gives a live, active
    record. *)
Definition answers (w : world) (i : Z) : Prop :=
  exists p c,
    connection_get_by_inode i w = inr (Some p, with_key_type KEY_INODE w) /\
    live w p c /\ active c = true.

Lemma find_entry_app h kt k es1 es2 :
  find_entry h kt k (es1 ++ es2)
  = match find_entry h kt k es1 with
    | Some e => Some e
    | None => find_entry h kt k es2
    end.
Proof.
  induction es1 as [|e es1 IH]; cbn [app find_entry]; [reflexivity|].
  destruct (ht_cb_compare kt (entry_memory h e) (key_memory k)); auto.
Qed.

Lemma find_inode_kept n m h h' i es rest e :
  Forall2 (entry_kept n m) es rest ->
  find_entry h KEY_INODE (KInode i) es = Some e ->
  exists e', find_entry h' KEY_INODE (KInode i) rest = Some e' /\
             entry_kept n m e e'.
Proof.
  intros H. induction H as [|a b es rest Hab _ IH]; cbn [find_entry];
    [discriminate|].
  assert (E : ht_cb_compare KEY_INODE (entry_memory h' b)
                (key_memory (KInode i))
              = ht_cb_compare KEY_INODE (entry_memory h a)
                  (key_memory (KInode i))).
  { destruct Hab as (Hk & _). unfold entry_memory. rewrite Hk.
    destruct (e_key a); reflexivity. }
  rewrite E.
  destruct (ht_cb_compare KEY_INODE (entry_memory h a) (key_memory (KInode i)));
    [|exact IH].
  intros Hs. inversion Hs; subst. eauto.
Qed.

Lemma get_by_inode_table w i r :
  connection_get_by_inode i w = inr r -> exists es, ht_connections w = Table es.
Proof.
  unfold connection_get_by_inode, hashtable_get, bind, set_key_type, entries.
  cbn. destruct (ht_connections w) as [|es|]; [discriminate | eauto | discriminate].
Qed.

(** What the table answers for is not lost while lines are read. *)
Lemma answers_kept w w' i : kept w w' -> answers w i -> answers w' i.
Proof.
  intros (Hslots & Hnew & Htab) (p & c & Hget & Hl & Ha).
  destruct (get_by_inode_table _ _ _ Hget) as (es & Ht).
  rewrite (get_by_inode_run w es i Ht) in Hget. rewrite Ht in Htab.
  destruct (find_entry (heap w) KEY_INODE (KInode i) es) as [e|] eqn:Hf;
    [|discriminate].
  cbn [option_map] in Hget. assert (Hv : e_value e = p) by congruence.
  destruct (ht_connections w') as [|es'|] eqn:Ht'; cbn in Htab;
    [contradiction| |contradiction].
  destruct Htab as (added & rest & -> & Hrest & Hadd).
  unfold answers. rewrite (get_by_inode_run w' _ i Ht'), find_entry_app.
  destruct (find_entry (heap w') KEY_INODE (KInode i) added) as [e1|] eqn:H1.
  - apply find_entry_Some in H1 as [He1 _].
    pose proof (proj1 (Forall_forall _ _) Hadd e1 He1) as Hm.
    destruct (Hnew (e_value e1) Hm) as (c1 & Hl1 & _ & Ha1 & _).
    exists (e_value e1), c1. auto.
  - destruct (find_inode_kept _ _ (heap w) (heap w') i es rest e Hrest Hf)
      as (e' & Hf' & _ & _ & Hv').
    rewrite Hf'. cbn [option_map]. destruct Hv' as [Hv'|Hv'].
    + destruct (Hslots p (Some c) Hl) as (b & Hb & Hk).
      destruct b as [c'|]; [|destruct Hk].
      exists p, c'. rewrite Hv', Hv. split; [reflexivity|].
      split; [exact Hb|]. apply Hk. exact Ha.
    + destruct (Hnew (e_value e') Hv') as (c1 & Hl1 & _ & Ha1 & _).
      exists (e_value e'), c1. auto.
Qed.

Lemma update_line_no_table impl protocol line f w flt :
  scan_line line = Some f -> skipped f = false ->
  entries w = inl flt ->
  update_line impl protocol line w = inl flt.
Proof.
  intros Hscan Hskip Ht.
  unfold update_line. rewrite Hscan. unfold skipped in Hskip. rewrite Hskip.
  unfold bind at 1. unfold connection_get_by_inode, hashtable_get, bind,
    set_key_type. unfold entries in *. cbn.
  destruct (ht_connections w); [|discriminate|]; inversion Ht; reflexivity.
Qed.

(** After a line in a state other than TIME_WAIT and LISTEN is read, the
    table answers for its inode. *)
Lemma update_line_answers impl protocol line f w fl w' :
  scan_line line = Some f -> skipped f = false ->
  update_line impl protocol line w = inr (fl, w') -> answers w' (f_inode f).
Proof.
  intros Hscan Hskip Hrun.
  destruct (ht_connections w) as [|es|] eqn:Ht.
  - rewrite (update_line_no_table impl protocol line f w NullTable Hscan Hskip)
      in Hrun; [discriminate|]. unfold entries. rewrite Ht. reflexivity.
  - destruct (find_entry (heap w) KEY_INODE (KInode (f_inode f)) es)
      as [e|] eqn:Hfind.
    + destruct (heap w !! e_value e) as [[c0|]|] eqn:Hl.
      * rewrite (update_line_found impl protocol _ _ _ _ _ c0
                   Hscan Hskip Ht Hfind Hl) in Hrun.
        inversion Hrun; subst fl w'.
        exists (e_value e), (with_active true c0). split; [|split; [|reflexivity]].
        { erewrite get_by_inode_run by reflexivity. cbn [heap].
          rewrite (find_entry_inode_heap _ (heap w)), Hfind. reflexivity. }
        unfold live; cbn [heap]. apply list_lookup_insert_eq.
        eapply lookup_lt_Some; eauto.
      * rewrite (update_line_freed impl protocol _ _ _ _ _
                   Hscan Hskip Ht Hfind) in Hrun; [discriminate|].
        unfold live. intros c. congruence.
      * rewrite (update_line_freed impl protocol _ _ _ _ _
                   Hscan Hskip Ht Hfind) in Hrun; [discriminate|].
        unfold live. intros c. congruence.
    + rewrite (update_line_made impl protocol _ _ _ _
                 Hscan Hskip Ht Hfind) in Hrun.
      cbv zeta in Hrun. inversion Hrun; subst fl w'.
      pose proof (lookups_after_made impl
                    (heap w ++ [Some (conn_of f protocol)])
                    (f_inode f) (tuple_of f protocol) (length (heap w)) es)
        as [Hi _].
      exists (length (heap w)), (conn_of f protocol).
      split; [|split; [|reflexivity]].
      { erewrite get_by_inode_run by reflexivity. cbn [heap].
        rewrite Hi. reflexivity. }
      unfold live; cbn [heap]. apply lookup_new.
  - rewrite (update_line_no_table impl protocol line f w FreedTable Hscan Hskip)
      in Hrun; [discriminate|]. unfold entries. rewrite Ht. reflexivity.
Qed.

(** The fields of the lines the loop reads: it stops at the first line
    that does not give the six fields. *)
Fixpoint read_lines (lines : list (list ascii)) : list line_fields :=
  match lines with
  | [] => []
  | line :: rest =>
      match scan_line line with
      | Some f => f :: read_lines rest
      | None => []
      end
  end.

Definition read_file (file : option (list (list ascii))) : list line_fields :=
  match file with
  | Some (_ :: lines) => read_lines lines
  | _ => []
  end.

Lemma update_lines_answers impl protocol lines : forall w r w',
  update_lines impl protocol lines w = inr (r, w') ->
  forall f, f ∈ read_lines lines -> skipped f = false ->
            answers w' (f_inode f).
Proof.
  induction lines as [|line rest IH]; intros w r w' Hrun f Hf Hskip;
    cbn [read_lines] in Hf; [inversion Hf|].
  destruct (scan_line line) as [f0|] eqn:Hscan; [|inversion Hf].
  cbn [update_lines] in Hrun. unfold bind in Hrun.
  destruct (update_line_outcome impl protocol line w)
    as [(fl & w1 & Hrun1 & Hk1 & Hfl & Hbad)|(flt & Hrun1 & _)];
    rewrite Hrun1 in Hrun; [|discriminate].
  destruct Hfl as [-> | ->];
    [|pose proof (proj1 Hbad eq_refl); congruence].
  apply elem_of_cons in Hf as [-> | Hf].
  - pose proof (update_line_answers impl protocol line f0 w _ w1
                  Hscan Hskip Hrun1) as Ha.
    destruct (update_lines_outcome impl protocol rest w1)
      as [(r' & w2 & Hrun2 & Hk2 & _)|(flt & Hrun2 & _)];
      rewrite Hrun2 in Hrun; [|discriminate].
    inversion Hrun; subst. exact (answers_kept _ _ _ Hk2 Ha).
  - exact (IH w1 r w' Hrun f Hf Hskip).
Qed.

Lemma requested_answers impl proto flag file protocol w r w' :
  (if negb (Z.land proto flag =? 0)
   then connection_update_ impl file protocol else ret 1) w = inr (r, w') ->
  Z.land proto flag <> 0 ->
  forall f, f ∈ read_file file -> skipped f = false -> answers w' (f_inode f).
Proof.
  intros Hrun Hreq f Hf Hskip.
  destruct (Z.eqb_spec (Z.land proto flag) 0) as [E|_]; [contradiction|].
  cbn [negb] in Hrun.
  destruct file as [[|hdr lines]|]; cbn [read_file] in Hf;
    [inversion Hf| |inversion Hf].
  cbn [connection_update_] in Hrun.
  exact (update_lines_answers impl protocol lines w r w' Hrun f Hf Hskip).
Qed.

Lemma requested_passes impl proto flag file protocol w r w' :
  (if negb (Z.land proto flag =? 0)
   then connection_update_ impl file protocol else ret 1) w = inr (r, w') ->
  (Z.land proto flag <> 0 ->
   exists hdr lines, file = Some (hdr :: lines) /\ ~ Exists unparsed lines) ->
  r = 1.
Proof.
  intros Hrun Hok.
  destruct (Z.eqb_spec (Z.land proto flag) 0) as [E|E]; cbn [negb] in Hrun.
  - inversion Hrun. reflexivity.
  - destruct (connection_update__outcome impl file protocol w)
      as [(r0 & w0 & Hrun0 & _ & _ & Hiff)|(flt & Hrun0 & _)];
      rewrite Hrun0 in Hrun; [|discriminate].
    inversion Hrun; subst. apply Hiff. exact (Hok E).
Qed.

(** The lines an update reads before it returns: those of the TCP file,
    when TCP is asked for, up to the first that does not parse; and, when
    UDP is asked for and the TCP file gave no error, those of the UDP
    file in the same way. *)
Definition read_by (files : procnet) (proto : Z) (f : line_fields) : Prop :=
  (Z.land proto TCP <> 0 /\ f ∈ read_file (PATH_TCP files)) \/
  (Z.land proto UDP <> 0 /\
   (Z.land proto TCP <> 0 ->
    exists hdr lines, PATH_TCP files = Some (hdr :: lines) /\
                      ~ Exists unparsed lines) /\
   f ∈ read_file (PATH_UDP files)).

(** C5. When a line of a requested kernel file does not parse,
    [connection_update] returns false and the aging pass is not run: no
    record was freed, aged or made inactive, no reference count changed,
    no entry left the table, every record made during the update is
    live, active, counts its two references and has the entry of its
    inode in the chain, and for every line read before the update
    stopped, in a state other than TIME_WAIT and LISTEN, the lookup by
    its inode gives a live, active record.  The one other outcome is a
    fault that the memory the update began with explains: a line looked
    up an entry whose record had been freed before, or there was no
    table. *)
Theorem malformed_line_aborts_update impl files proto w :
  malformed files proto ->
  (exists w',
     connection_update impl files proto w = inr (false, w') /\ kept w w' /\
     forall f, read_by files proto f -> skipped f = false ->
               answers w' (f_inode f)) \/
  (exists f, connection_update impl files proto w = inl f /\ stale w f).
Proof.
  intros Hbad.
  destruct (requested_outcome impl proto TCP (PATH_TCP files) IPPROTO_TCP w)
    as [(r1 & w1 & Hrun1 & Hk1 & Hr1 & Hm1)|(f & Hrun1 & Hst)]; cbv zeta in *.
  - destruct Hr1 as [-> | ->].
    + left. exists w1. split; [|split; [exact Hk1|]].
      { unfold connection_update. unfold bind at 1. rewrite Hrun1.
        reflexivity. }
      intros f [[Hreq Hf]|(_ & Hok & _)] Hskip.
      * exact (requested_answers impl proto TCP _ IPPROTO_TCP w 0 w1
                 Hrun1 Hreq f Hf Hskip).
      * pose proof (requested_passes impl proto TCP _ IPPROTO_TCP w 0 w1
                      Hrun1 Hok). discriminate.
    + destruct (requested_outcome impl proto UDP (PATH_UDP files) IPPROTO_UDP w1)
        as [(r2 & w2 & Hrun2 & Hk2 & Hr2 & Hm2)|(f & Hrun2 & Hst)];
        cbv zeta in *.
      * assert (r2 = 0) as ->.
        { destruct Hbad as [[Hreq Hm]|[Hreq Hm]]; [|auto].
          specialize (Hm1 Hreq Hm). discriminate. }
        left. exists w2. split; [|split; [eapply kept_trans; eauto|]].
        { unfold connection_update. unfold bind at 1. rewrite Hrun1.
          cbn [Z.eqb]. unfold bind at 1. rewrite Hrun2. reflexivity. }
        intros f [[Hreq Hf]|(Hreq & _ & Hf)] Hskip.
        -- apply (answers_kept w1 w2 _ Hk2).
           exact (requested_answers impl proto TCP _ IPPROTO_TCP w 1 w1
                    Hrun1 Hreq f Hf Hskip).
        -- exact (requested_answers impl proto UDP _ IPPROTO_UDP w1 0 w2
                    Hrun2 Hreq f Hf Hskip).
      * right. exists f. split; [|eapply stale_kept; eauto].
        unfold connection_update. unfold bind at 1. rewrite Hrun1.
        cbn [Z.eqb]. unfold bind at 1. rewrite Hrun2. reflexivity.
  - right. exists f. split; [|exact Hst].
    unfold connection_update. unfold bind at 1. rewrite Hrun1. reflexivity.
Qed.


(** C7, amended. The operations of the connection table write [key_type]
    before they call the hash index: what they return and the memory they
    leave do not depend on the value [key_type] had. *)
Theorem wrappers_overwrite_key_type impl k w i t p :
  connection_get_by_inode i (with_key_type k w) = connection_get_by_inode i w /\
  connection_get_by_tuple t (with_key_type k w) = connection_get_by_tuple t w /\
  connection_insert impl p (with_key_type k w) = connection_insert impl p w /\
  connection_remove impl p (with_key_type k w) = connection_remove impl p w.
Proof.
  destruct w as [h tb k0].
  split; [reflexivity|]. split; [reflexivity|]. split.
  - unfold connection_insert, connection_insert_by_inode, bind, load, store,
      with_key_type, with_heap. simpl.
    destruct (h !! p) as [[c|]|] eqn:E; simpl; rewrite ?E; simpl;
      try reflexivity.
    destruct (<[p:=Some (with_use 2 c)]> h !! p) as [[c'|]|]; reflexivity.
  - unfold connection_remove, connection_remove_by_inode, bind, load,
      with_key_type. simpl.
    destruct (h !! p) as [[c|]|] eqn:E; simpl; rewrite ?E; reflexivity.
Qed.


(** *** The operations when every key is read in its own shape *)

Lemma update_line_hit impl protocol line f w es e c :
  scan_line line = Some f -> skipped f = false ->
  ht_connections w = Table es ->
  Forall (apart (KInode (f_inode f))) es ->
  find_key KEY_INODE (KInode (f_inode f)) es = Some e ->
  live w (e_value e) c ->
  update_line impl protocol line w
  = inr (Continue,
         {| heap := <[e_value e := Some (with_active true c)]> (heap w);
            ht_connections := Table es; key_type := KEY_INODE |}).
Proof.
  intros H Hs Ht Ha Hf Hl.
  apply (update_line_found impl protocol line f w es e c H Hs Ht); [|exact Hl].
  rewrite find_entry_apart by auto. exact Hf.
Qed.

Lemma update_line_miss impl protocol line f w es :
  scan_line line = Some f -> skipped f = false ->
  ht_connections w = Table es ->
  Forall (apart (KInode (f_inode f))) es ->
  Forall (apart (KTuple (tuple_of f protocol))) es ->
  f_inode f <> tuple_head (tuple_of f protocol) ->
  find_key KEY_INODE (KInode (f_inode f)) es = None ->
  update_line impl protocol line w
  = inr (Continue,
         {| heap := heap w ++ [Some (conn_of f protocol)];
            ht_connections :=
              Table (chain_with_tuple impl (tuple_of f protocol) (length (heap w))
                       ({| e_key := KInode (f_inode f);
                           e_value := length (heap w);
                           e_conn := length (heap w) |} :: es));
            key_type := KEY_TUPLE |}).
Proof.
  intros H Hs Ht Hai Hat Hne Hf.
  rewrite (update_line_made impl protocol line f w es H Hs Ht)
    by (rewrite find_entry_apart by auto; exact Hf).
  cbv zeta. rewrite chain_set_apart; [reflexivity|].
  constructor; [exact Hne | exact Hat].
Qed.

Lemma remove_key_subset kt k es e : e ∈ remove_key kt k es -> e ∈ es.
Proof.
  induction es as [|e0 es IH]; cbn [remove_key]; [auto|].
  destruct (same_key kt (e_key e0) k); rewrite !elem_of_cons; [auto|].
  intros [->|H]; auto.
Qed.

Lemma hashtable_remove_run impl w es k :
  ht_connections w = Table es -> Forall (apart k) es ->
  key_kind k = key_type w ->
  hashtable_remove impl k w
  = match find_key (key_type w) k es with
    | Some e =>
        (if remove_frees impl then ht_cb_free (e_value e) else ret tt)
          (with_table (Table (remove_key (key_type w) k es)) w)
    | None => inr (tt, w)
    end.
Proof.
  intros Ht Ha Hk. unfold hashtable_remove, bind, entries, get_world.
  rewrite Ht. rewrite find_entry_apart, remove_entry_apart by auto.
  destruct (find_key (key_type w) k es); reflexivity.
Qed.

End WithLayout.

End ConnFacts.

(** ** The connection table: whole updates and the aging pass *)

Module Aging.
Import CInt Scanf Conn ScanfFacts ConnFacts.

Section WithLayout.
Context {L : layout}.

(** The two entries [connection_insert] makes for the record at [p]. *)
Definition inode_entry_of (p : nat) (c : connection_t) : entry :=
  {| e_key := KInode (inode c); e_value := p; e_conn := p |}.

Definition tuple_entry_of (p : nat) (c : connection_t) : entry :=
  {| e_key := KTuple (tuple c); e_value := p; e_conn := p |}.

(** The chain [es] indexes live records, each by its two keys and no key
    twice, and every indexed record satisfies [Q]. *)
Definition indexes (Q : nat -> connection_t -> Prop) (w : world)
    (es : list entry) : Prop :=
  ht_connections w = Table es /\
  NoDup (e_key <$> es) /\
  forall e, e ∈ es ->
    exists c, live w (e_value e) c /\
      (e = inode_entry_of (e_value e) c \/ e = tuple_entry_of (e_value e) c) /\
      inode_entry_of (e_value e) c ∈ es /\
      tuple_entry_of (e_value e) c ∈ es /\
      Q (e_value e) c.

Definition indexed (Q : nat -> connection_t -> Prop) (w : world) : Prop :=
  exists es, indexes Q w es.

Lemma indexes_weaken (Q Q' : nat -> connection_t -> Prop) w es :
  (forall p c, Q p c -> Q' p c) -> indexes Q w es -> indexes Q' w es.
Proof.
  intros HQ (Ht & Hnd & Hall). split; [exact Ht|]. split; [exact Hnd|].
  intros e He. destruct (Hall e He) as (c & ? & ? & ? & ? & ?).
  exists c. auto 10.
Qed.

Lemma indexes_sound Q w es : indexes Q w es -> table_sound w.
Proof.
  intros (Ht & _ & Hall). exists es. split; [exact Ht|].
  apply Forall_forall. intros e He.
  destruct (Hall e He) as (c & Hl & Hk & _).
  exists c. split; [exact Hl|].
  destruct Hk as [-> | ->]; simpl; auto.
Qed.

(** Looking a key up in such a chain. *)
Lemma indexes_find_inode Q w es i e :
  indexes Q w es -> find_key KEY_INODE (KInode i) es = Some e ->
  exists c, live w (e_value e) c /\ inode c = i /\ Q (e_value e) c.
Proof.
  intros (_ & _ & Hall) Hf. apply find_key_Some in Hf as (He & Hk & _).
  destruct (Hall e He) as (c & Hl & Hm & _ & _ & HQ).
  exists c. split; [exact Hl|]. split; [|exact HQ].
  destruct Hm as [E|E]; rewrite E in Hk; simpl in Hk; inversion Hk; auto.
Qed.

Lemma indexes_find_tuple Q w es t e :
  indexes Q w es -> find_key KEY_TUPLE (KTuple t) es = Some e ->
  exists c, live w (e_value e) c /\ tuple c = t /\ Q (e_value e) c.
Proof.
  intros (_ & _ & Hall) Hf. apply find_key_Some in Hf as (He & Hk & _).
  destruct (Hall e He) as (c & Hl & Hm & _ & _ & HQ).
  exists c. split; [exact Hl|]. split; [|exact HQ].
  destruct Hm as [E|E]; rewrite E in Hk; simpl in Hk; inversion Hk; auto.
Qed.

(** No tuple belongs to two inodes. *)
Definition one_inode_per_tuple (S : Z -> struct_tuple -> Prop) : Prop :=
  forall i i' t, S i t -> S i' t -> i = i'.

(** No tuple of [S] begins with the bytes of an inode of [S]: no key of
    the table is taken for a key of the other shape. *)
Definition unmixed (S : Z -> struct_tuple -> Prop) : Prop :=
  forall i t i' t', S i t -> S i' t' -> tuple_head t' <> i.

(** The keys of the chain are inodes and tuples of [S]. *)
Definition keys_in (S : Z -> struct_tuple -> Prop) (es : list entry) : Prop :=
  forall e, e ∈ es ->
    exists j u, S j u /\ (e_key e = KInode j \/ e_key e = KTuple u).

Lemma indexes_keys_in (S : Z -> struct_tuple -> Prop) Q w es :
  (forall p c, Q p c -> S (inode c) (tuple c)) ->
  indexes Q w es -> keys_in S es.
Proof.
  intros HQ (_ & _ & Hall) e He.
  destruct (Hall e He) as (c & _ & Hm & _ & _ & Hq).
  exists (inode c), (tuple c). split; [exact (HQ _ _ Hq)|].
  destruct Hm as [E|E]; rewrite E; cbn; auto.
Qed.

Lemma keys_apart_inode (S : Z -> struct_tuple -> Prop) es i :
  keys_in S es -> (forall j u, S j u -> tuple_head u <> i) ->
  Forall (apart (KInode i)) es.
Proof.
  intros Hk Hi. apply Forall_forall. intros e He.
  destruct (Hk e He) as (j & u & HS & [E|E]); unfold apart; rewrite E;
    [exact I | exact (Hi j u HS)].
Qed.

Lemma keys_apart_tuple (S : Z -> struct_tuple -> Prop) es t :
  keys_in S es -> (forall j u, S j u -> j <> tuple_head t) ->
  Forall (apart (KTuple t)) es.
Proof.
  intros Hk Ht. apply Forall_forall. intros e He.
  destruct (Hk e He) as (j & u & HS & [E|E]); unfold apart; rewrite E;
    [exact (Ht j u HS) | exact I].
Qed.

Lemma unmixed_inode (S : Z -> struct_tuple -> Prop) i t :
  unmixed S -> S i t -> forall j u, S j u -> tuple_head u <> i.
Proof. intros HS Hi j u Hj. exact (HS i t j u Hi Hj). Qed.

Lemma unmixed_tuple (S : Z -> struct_tuple -> Prop) i t :
  unmixed S -> S i t -> forall j u, S j u -> j <> tuple_head t.
Proof. intros HS Hi j u Hj E. exact (HS j u i t Hj Hi (eq_sym E)). Qed.

(** What the reference count of an indexed record can be between two
    updates or while lines are read: 1, or 2 for a record made by a line
    of [N] and still active. *)
Definition counted (N : Z -> struct_tuple -> Prop) (c : connection_t) : Prop :=
  use c = 1 \/ (use c = 2 /\ active c = true /\ N (inode c) (tuple c)).

Section Lines.
Variable impl : hashtable_impl.
Variables S N : Z -> struct_tuple -> Prop.
Variable fresh : nat -> Prop.
Hypothesis S_one : one_inode_per_tuple S.
Hypothesis S_unmixed : unmixed S.

(** The indexed records while lines are read: their pair is one of [S],
    their count is as [counted] says, and the records at the addresses of
    [fresh] (those handed out since the update began) have both
    references. *)
Definition during (p : nat) (c : connection_t) : Prop :=
  S (inode c) (tuple c) /\ counted N c /\ (fresh p -> use c = 2).

Lemma during_in_S p c : during p c -> S (inode c) (tuple c).
Proof. intros (H & _). exact H. Qed.

Lemma update_line_hit_indexed protocol line f w es e :
  indexes during w es ->
  scan_line line = Some f -> skipped f = false ->
  S (f_inode f) (tuple_of f protocol) ->
  find_key KEY_INODE (KInode (f_inode f)) es = Some e ->
  exists w', update_line impl protocol line w = inr (Continue, w') /\
             indexes during w' es /\
             length (heap w') = length (heap w).
Proof.
  intros Hix Hscan Hskip HSf Hfind.
  pose proof Hix as (Ht & Hnd & Hall).
  pose proof (keys_apart_inode S es _ (indexes_keys_in S _ _ _ during_in_S Hix)
                (unmixed_inode S _ _ S_unmixed HSf)) as Hap.
  destruct (find_key_Some _ _ _ _ Hfind) as (Hin & Hkey & _).
  destruct (Hall e Hin) as (c & Hlive & _).
  eexists. split; [exact (update_line_hit impl protocol _ _ _ _ _ c
                            Hscan Hskip Ht Hap Hfind Hlive)|].
  assert (Hp : (e_value e < length (heap w))%nat) by (eapply lookup_lt_Some; eauto).
  split; [|simpl; apply length_insert].
  split; [reflexivity|]. split; [exact Hnd|].
  intros e' He'.
  destruct (Hall e' He') as (c' & Hl' & Hm & Hi & Htu & HS & HN & Hfr).
  unfold live in *. simpl.
  destruct (Nat.eq_dec (e_value e') (e_value e)) as [E|E].
  - rewrite E in *. rewrite list_lookup_insert_eq by exact Hp.
    rewrite Hl' in Hlive. inversion Hlive; subst c'.
    exists (with_active true c). split; [reflexivity|].
    split; [exact Hm|]. split; [exact Hi|]. split; [exact Htu|].
    split; [exact HS|]. split; [|exact Hfr].
    destruct HN as [?|(? & ? & ?)]; [left | right]; simpl; auto.
  - rewrite list_lookup_insert_ne by auto.
    exists c'. unfold during. auto 10.
Qed.

Lemma update_line_miss_indexed protocol line f w es :
  indexes during w es ->
  scan_line line = Some f -> skipped f = false ->
  S (f_inode f) (tuple_of f protocol) -> N (f_inode f) (tuple_of f protocol) ->
  find_key KEY_INODE (KInode (f_inode f)) es = None ->
  exists w',
    update_line impl protocol line w = inr (Continue, w') /\
    indexes during w'
      ({| e_key := KTuple (tuple_of f protocol); e_value := length (heap w); e_conn := length (heap w) |}
       :: {| e_key := KInode (f_inode f); e_value := length (heap w); e_conn := length (heap w) |}
       :: es) /\
    length (heap w') = Datatypes.S (length (heap w)).
Proof.
  intros Hix Hscan Hskip HS HN Hfind.
  pose proof Hix as (Ht & Hnd & Hall).
  pose proof (find_key_None _ _ _ Hfind eq_refl) as Hno_i.
  assert (Hno_t : forall e, e ∈ es -> e_key e <> KTuple (tuple_of f protocol)).
  { intros e He Hk. destruct (Hall e He) as (c & Hl & Hm & Hi & _ & HSc & _).
    assert (Htc : tuple c = tuple_of f protocol).
    { destruct Hm as [E|E]; rewrite E in Hk; simpl in Hk; inversion Hk; auto. }
    rewrite Htc in HSc. pose proof (S_one _ _ _ HSc HS) as Hic.
    apply (Hno_i _ Hi). simpl. congruence. }
  set (p := length (heap w)).
  set (e_i := {| e_key := KInode (f_inode f); e_value := p; e_conn := p |}).
  set (e_t := {| e_key := KTuple (tuple_of f protocol); e_value := p; e_conn := p |}).
  assert (Hchain : chain_with_tuple impl (tuple_of f protocol) p (e_i :: es)
                   = e_t :: e_i :: es).
  { unfold chain_with_tuple.
    destruct (find_key KEY_TUPLE (KTuple (tuple_of f protocol)) (e_i :: es))
      as [found|] eqn:Ef; [|reflexivity].
    exfalso. apply find_key_Some in Ef as (Hin & Hk & _).
    apply elem_of_cons in Hin as [-> | Hin]; [discriminate|].
    exact (Hno_t _ Hin Hk). }
  pose proof (indexes_keys_in S _ _ _ during_in_S Hix) as Hkeys.
  rewrite (update_line_miss impl protocol line f w es Hscan Hskip Ht
             (keys_apart_inode S es _ Hkeys (unmixed_inode S _ _ S_unmixed HS))
             (keys_apart_tuple S es _ Hkeys (unmixed_tuple S _ _ S_unmixed HS))
             (unmixed_tuple S _ _ S_unmixed HS _ _ HS) Hfind).
  fold p e_i. rewrite Hchain.
  eexists. split; [reflexivity|].
  split; [|simpl; rewrite length_app; simpl; lia].
  split; [reflexivity|]. split.
  - simpl. apply NoDup_cons. split.
    + rewrite elem_of_cons. intros [?|Hin]; [discriminate|].
      apply list_elem_of_fmap in Hin as (e & Hk & He). exact (Hno_t _ He (eq_sym Hk)).
    + apply NoDup_cons. split; [|exact Hnd].
      intros Hin. apply list_elem_of_fmap in Hin as (e & Hk & He).
      exact (Hno_i _ He (eq_sym Hk)).
  - assert (Hnew : live {| heap := heap w ++ [Some (conn_of f protocol)];
                           ht_connections := Table (e_t :: e_i :: es);
                           key_type := KEY_TUPLE |} p (conn_of f protocol)).
    { unfold live. simpl. apply lookup_new. }
    assert (Hd : during p (conn_of f protocol)).
    { split; [exact HS|]. split; [right; auto | reflexivity]. }
    intros e He. rewrite !elem_of_cons in He. destruct He as [-> | [-> | He]].
    + exists (conn_of f protocol). split; [exact Hnew|].
      split; [right; reflexivity|].
      split; [apply elem_of_cons; right; apply elem_of_cons; left; reflexivity|].
      split; [apply elem_of_cons; left; reflexivity | exact Hd].
    + exists (conn_of f protocol). split; [exact Hnew|].
      split; [left; reflexivity|].
      split; [apply elem_of_cons; right; apply elem_of_cons; left; reflexivity|].
      split; [apply elem_of_cons; left; reflexivity | exact Hd].
    + destruct (Hall e He) as (c & Hl & Hm & Hi & Htu & HQ).
      exists c. split.
      { unfold live in *. simpl. rewrite lookup_app_l; [exact Hl|].
        eapply lookup_lt_Some; eauto. }
      split; [exact Hm|].
      split; [do 2 (apply elem_of_cons; right); exact Hi|].
      split; [do 2 (apply elem_of_cons; right); exact Htu|]. exact HQ.
Qed.

(** The lines of a file that reach the lookup by inode, with the inode
    and the tuple they carry. *)
Definition accepted (protocol : Z) (lines : list (list ascii))
    (i : Z) (t : struct_tuple) : Prop :=
  exists line f, line ∈ lines /\ scan_line line = Some f /\
                 skipped f = false /\ f_inode f = i /\
                 tuple_of f protocol = t.

(** The entries a loop has added in front of the chain [es], for records
    at addresses from [n] on. *)
Definition extends (n : nat) (es es' : list entry) : Prop :=
  exists added, es' = added ++ es /\
                forall e, e ∈ added -> (n <= e_value e)%nat.

Lemma extends_refl n es : extends n es es.
Proof. exists []. split; [reflexivity|]. intros e He. inversion He. Qed.

Lemma extends_trans n m es1 es2 es3 :
  (n <= m)%nat -> extends n es1 es2 -> extends m es2 es3 -> extends n es1 es3.
Proof.
  intros Hnm (a1 & -> & H1) (a2 & -> & H2). exists (a2 ++ a1).
  split; [apply app_assoc|]. intros e He.
  apply elem_of_app in He as [He|He]; [specialize (H2 e He); lia | auto].
Qed.

Lemma extends_elem n es es' e : extends n es es' -> e ∈ es -> e ∈ es'.
Proof. intros (a & -> & _) He. apply elem_of_app. auto. Qed.

Definition has_inode (es : list entry) (i : Z) : Prop :=
  exists e, e ∈ es /\ e_key e = KInode i.

Lemma update_lines_indexed protocol lines : forall w es,
  indexes during w es ->
  (forall i t, accepted protocol lines i t -> S i t /\ N i t) ->
  exists r w' es',
    update_lines impl protocol lines w = inr (r, w') /\
    indexes during w' es' /\
    (length (heap w) <= length (heap w'))%nat /\
    extends (length (heap w)) es es' /\
    (r <> 0 -> forall i t, accepted protocol lines i t -> has_inode es' i).
Proof.
  induction lines as [|line rest IH]; intros w es Hix Hacc.
  - exists 1, w, es. split; [reflexivity|]. split; [exact Hix|].
    split; [lia|]. split; [apply extends_refl|].
    intros _ i t (l & f & Hl & _). inversion Hl.
  - assert (Hrest : forall i t, accepted protocol rest i t -> S i t /\ N i t).
    { intros i t (l & f & Hl & ?). apply Hacc. exists l, f.
      split; [apply elem_of_cons; auto | auto]. }
    assert (Hstep : exists fl w1 es1,
              update_line impl protocol line w = inr (fl, w1) /\
              indexes during w1 es1 /\
              (length (heap w) <= length (heap w1))%nat /\
              extends (length (heap w)) es es1 /\
              (fl = Continue \/ fl = Exit 0) /\
              (fl = Continue ->
               forall f, scan_line line = Some f -> skipped f = false ->
                         has_inode es1 (f_inode f))).
    { destruct (scan_line line) as [f|] eqn:Hscan.
      - destruct (skipped f) eqn:Hskip.
        + exists Continue, w, es.
          split; [eapply update_line_skip; eauto|]. split; [exact Hix|].
          split; [lia|]. split; [apply extends_refl|]. split; [auto|].
          intros _ f' E. inversion E; subst f'. congruence.
        + destruct (Hacc (f_inode f) (tuple_of f protocol)) as [HS HN].
          { exists line, f. split; [apply elem_of_cons; auto | auto]. }
          destruct (find_key KEY_INODE (KInode (f_inode f)) es) as [e|] eqn:Hf.
          * destruct (update_line_hit_indexed protocol line f w es e Hix Hscan Hskip HS Hf)
              as (w1 & Hrun & Hix1 & Hlen).
            exists Continue, w1, es. split; [exact Hrun|]. split; [exact Hix1|].
            split; [lia|]. split; [apply extends_refl|]. split; [auto|].
            intros _ f' E _. inversion E; subst f'.
            apply find_key_Some in Hf as (? & ? & _). exists e. auto.
          * destruct (update_line_miss_indexed protocol line f w es Hix Hscan Hskip HS HN Hf)
              as (w1 & Hrun & Hix1 & Hlen).
            eexists Continue, w1, _. split; [exact Hrun|]. split; [exact Hix1|].
            split; [lia|]. split.
            { eexists [_; _]. split; [reflexivity|]. intros e He.
              rewrite !elem_of_cons in He.
              destruct He as [-> | [-> | He]]; simpl; [lia | lia | inversion He]. }
            split; [auto|].
            intros _ f' E _. inversion E; subst f'.
            eexists. split; [apply elem_of_cons; right; apply elem_of_cons; left;
                             reflexivity | reflexivity].
      - exists (Exit 0), w, es.
        split; [eapply update_line_bad; eauto|]. split; [exact Hix|].
        split; [lia|]. split; [apply extends_refl|]. split; [auto|].
        discriminate. }
    destruct Hstep as (fl & w1 & es1 & Hrun & Hix1 & Hlen1 & Hext1 & Hfl & Hhas).
    simpl. unfold bind. rewrite Hrun. destruct Hfl as [-> | ->].
    + destruct (IH w1 es1 Hix1 Hrest)
        as (r & w2 & es2 & Hrun2 & Hix2 & Hlen2 & Hext2 & Hhas2).
      exists r, w2, es2. split; [exact Hrun2|]. split; [exact Hix2|].
      split; [lia|]. split; [eapply extends_trans; eauto|].
      intros Hr i t (l & f & Hl & Hscan & Hskip & Hi & Hti).
      apply elem_of_cons in Hl as [-> | Hl].
      * destruct (Hhas eq_refl f Hscan Hskip) as (e & He & Hk).
        exists e. split; [eapply extends_elem; eauto | congruence].
      * apply (Hhas2 Hr i t). exists l, f. auto.
    + exists 0, w1, es1. split; [reflexivity|]. split; [exact Hix1|].
      split; [exact Hlen1|]. split; [exact Hext1|]. intros H. contradiction.
Qed.

Definition body (file : option (list (list ascii))) : list (list ascii) :=
  match file with
  | Some (_ :: lines) => lines
  | _ => []
  end.

Lemma connection_update__indexed file protocol w es :
  indexes during w es ->
  (forall i t, accepted protocol (body file) i t -> S i t /\ N i t) ->
  exists r w' es',
    connection_update_ impl file protocol w = inr (r, w') /\
    indexes during w' es' /\
    (length (heap w) <= length (heap w'))%nat /\
    extends (length (heap w)) es es' /\
    (r <> 0 -> forall i t, accepted protocol (body file) i t -> has_inode es' i).
Proof.
  intros Hix Hacc.
  assert (Hnone : exists r w' es',
            @ret Z 0 w = inr (r, w') /\ indexes during w' es' /\
            (length (heap w) <= length (heap w'))%nat /\
            extends (length (heap w)) es es' /\
            (r <> 0 -> forall i t, accepted protocol (body file) i t ->
                                   has_inode es' i)).
  { exists 0, w, es. split; [reflexivity|]. split; [exact Hix|].
    split; [lia|]. split; [apply extends_refl|]. intros H. contradiction. }
  destruct file as [[|hdr lines]|]; simpl; [exact Hnone| |exact Hnone].
  exact (update_lines_indexed protocol lines w es Hix Hacc).
Qed.

End Lines.


(** *** One call of the visitor *)

Lemma visit_active impl w p c :
  live w p c -> active c = true ->
  remove_dead_conn impl p w
  = inr (0, with_heap (<[p := Some (with_active false c)]> (heap w)) w).
Proof.
  intros Hl Ha. unfold live in Hl.
  unfold remove_dead_conn, bind, load, store, ret. rewrite Hl, Ha. simpl.
  rewrite Hl. reflexivity.
Qed.

Lemma visit_counted_down impl w p c :
  live w p c -> active c = false -> use c <> 1 ->
  remove_dead_conn impl p w
  = inr (0, with_heap (<[p := Some (with_use (use c - 1) c)]> (heap w)) w).
Proof.
  intros Hl Ha Hu. unfold live in Hl.
  unfold remove_dead_conn, bind, load, store, ret. rewrite Hl, Ha. simpl.
  rewrite Hl. destruct (Z.eqb_spec (use c - 1) 0); [lia|]. reflexivity.
Qed.

Lemma Forall_remove_key (P : entry -> Prop) kt k es :
  Forall P es -> Forall P (remove_key kt k es).
Proof.
  intros H. apply Forall_forall. intros e He.
  apply remove_key_subset in He. exact (proj1 (Forall_forall _ _) H e He).
Qed.

Lemma visit_removes impl w p c es :
  live w p c -> active c = false -> use c = 1 ->
  ht_connections w = Table es -> NoDup (e_key <$> es) ->
  Forall (apart (KInode (inode c))) es ->
  Forall (apart (KTuple (tuple c))) es ->
  inode_entry_of p c ∈ es -> tuple_entry_of p c ∈ es ->
  remove_dead_conn impl p w
  = inr (0,
         {| heap := <[p := None]> (heap w);
            ht_connections :=
              Table (remove_key KEY_TUPLE (KTuple (tuple c))
                      (remove_key KEY_INODE (KInode (inode c)) es));
            key_type := KEY_TUPLE |}).
Proof.
  intros Hl Ha Hu Ht Hnd Hai Hat Hi Htu. unfold live in Hl.
  assert (Hp : (p < length (heap w))%nat) by (eapply lookup_lt_Some; eauto).
  pose proof (find_key_nodup KEY_INODE es _ Hnd Hi eq_refl) as Hfi.
  destruct (remove_key_nodup KEY_INODE es _ Hnd Hi eq_refl) as [Hnd1 Hin1].
  assert (Htu1 : tuple_entry_of p c ∈
                 remove_key KEY_INODE (e_key (inode_entry_of p c)) es).
  { apply Hin1. split; [exact Htu | discriminate]. }
  pose proof (find_key_nodup KEY_TUPLE _ _ Hnd1 Htu1 eq_refl) as Hft.
  simpl in Hfi, Hft, Htu1.
  assert (Hat1 : Forall (apart (KTuple (tuple c)))
                   (remove_key KEY_INODE (KInode (inode c)) es))
    by (apply Forall_remove_key; exact Hat).
  destruct w as [h tb k]. cbn [heap ht_connections key_type] in *. subst tb.
  unfold remove_dead_conn, connection_remove, connection_remove_by_inode,
    connection_remove_by_tuple, hashtable_remove, ht_cb_free.
  unfold bind, load, store, free, ret, set_key_type, entries, get_world,
    set_entries, with_heap, with_table, with_key_type.
  cbn [heap ht_connections key_type].
  rewrite Hl, Ha. cbn [negb]. cbn [heap ht_connections key_type].
  rewrite Hl. cbn [heap ht_connections key_type]. rewrite Hu.
  change (1 - 1 =? 0) with true. cbv iota.
  cbn [heap ht_connections key_type].
  rewrite list_lookup_insert_eq by exact Hp.
  cbn [heap ht_connections key_type inode tuple with_use].
  rewrite (find_entry_apart _ KEY_INODE (KInode (inode c)) es eq_refl Hai), Hfi.
  rewrite (remove_entry_apart _ KEY_INODE (KInode (inode c)) es eq_refl Hai).
  cbn [heap ht_connections key_type e_value inode_entry_of].
  destruct (remove_frees impl);
    cbn [heap ht_connections key_type];
    repeat (rewrite ?list_lookup_insert_eq by (rewrite ?length_insert; exact Hp);
            cbn [heap ht_connections key_type inode tuple with_use use];
            rewrite ?(find_entry_apart _ KEY_TUPLE (KTuple (tuple c)) _ eq_refl Hat1);
            rewrite ?(remove_entry_apart _ KEY_TUPLE (KTuple (tuple c)) _ eq_refl Hat1);
            rewrite ?Hft;
            simpl);
    rewrite ?list_insert_insert_eq; reflexivity.
Qed.


(** *** The walk of [hashtable_foreach] with [remove_dead_conn] *)

Lemma mem_entry e l : existsb (entry_eqb e) l = true <-> e ∈ l.
Proof.
  rewrite existsb_exists. split.
  - intros (x & Hin & Heq). apply entry_eqb_eq in Heq. subst x.
    apply list_elem_of_In. exact Hin.
  - intros H. exists e. split; [apply list_elem_of_In; exact H|].
    apply entry_eqb_eq. reflexivity.
Qed.

Lemma mem_entry_false e l : existsb (entry_eqb e) l = false <-> e ∉ l.
Proof.
  rewrite <- mem_entry. destruct (existsb (entry_eqb e) l); split;
    congruence || auto.
Qed.

Lemma entry_by_key es e1 e2 :
  NoDup (e_key <$> es) -> e1 ∈ es -> e2 ∈ es -> e_key e1 = e_key e2 -> e1 = e2.
Proof.
  induction es as [|e es IH]; intros Hnd H1 H2 Hk; [inversion H1|].
  simpl in Hnd. apply NoDup_cons in Hnd as [Hnot Hnd].
  apply elem_of_cons in H1 as [-> | H1], H2 as [-> | H2]; auto.
  - exfalso. apply Hnot. rewrite Hk. apply list_elem_of_fmap. eauto.
  - exfalso. apply Hnot. rewrite <- Hk. apply list_elem_of_fmap. eauto.
Qed.

(** The entries of the record at [p] that the walk has still to visit. *)
Definition pending (todo : list entry) (p : nat) (c : connection_t) : nat :=
  (Nat.b2n (existsb (entry_eqb (inode_entry_of p c)) todo) +
   Nat.b2n (existsb (entry_eqb (tuple_entry_of p c)) todo))%nat.

(** The flags of a record with [r] visits to come: a record made during
    this update ([use] 2 before the walk) is a line of [N] and outlives
    the walk; any other record is removed by it. *)
Definition phase (N : Z -> struct_tuple -> Prop) (r : nat)
    (c : connection_t) : Prop :=
  (r = 2%nat /\ use c = 2 /\ active c = true /\ N (inode c) (tuple c)) \/
  (r = 1%nat /\ use c = 2 /\ active c = false /\ N (inode c) (tuple c)) \/
  (r = 0%nat /\ use c = 1 /\ active c = false /\ N (inode c) (tuple c)) \/
  (r = 2%nat /\ use c = 1) \/
  (r = 1%nat /\ use c = 1 /\ active c = false).

Section Walk.
Variable impl : hashtable_impl.
Variables S N : Z -> struct_tuple -> Prop.
Variable fresh : nat -> Prop.
Variable es0 : list entry.
Hypothesis S_unmixed : unmixed S.

Definition walked (todo : list entry) (p : nat) (c : connection_t) : Prop :=
  S (inode c) (tuple c) /\ phase N (pending todo p c) c /\
  (fresh p -> use c = 2 \/ pending todo p c = 0%nat).

(** The walk from the chain [es0], with [todo] still to visit: an entry
    to visit is in the chain or its record is gone, and the entries of
    the records at the addresses of [fresh] are all there. *)
Definition walking (todo : list entry) (w : world) (es : list entry) : Prop :=
  indexes (walked todo) w es /\
  NoDup (e_key <$> todo) /\
  (forall e, e ∈ todo ->
     e ∈ es \/ forall e', e' ∈ es -> e_value e' <> e_value e) /\
  (forall e, e ∈ es0 -> fresh (e_value e) -> e ∈ es).

Lemma pending_skip e todo p c :
  e <> inode_entry_of p c -> e <> tuple_entry_of p c ->
  pending (e :: todo) p c = pending todo p c.
Proof.
  intros H1 H2. unfold pending. simpl.
  assert (E1 : entry_eqb (inode_entry_of p c) e = false).
  { destruct (entry_eqb (inode_entry_of p c) e) eqn:E; [|reflexivity].
    apply entry_eqb_eq in E. congruence. }
  assert (E2 : entry_eqb (tuple_entry_of p c) e = false).
  { destruct (entry_eqb (tuple_entry_of p c) e) eqn:E; [|reflexivity].
    apply entry_eqb_eq in E. congruence. }
  rewrite E1, E2. reflexivity.
Qed.

Lemma pending_visit e todo p c :
  e ∉ todo -> e = inode_entry_of p c \/ e = tuple_entry_of p c ->
  pending (e :: todo) p c = Datatypes.S (pending todo p c) /\
  (pending todo p c <= 1)%nat.
Proof.
  intros Hnot He. unfold pending. simpl.
  assert (Hd : entry_eqb (inode_entry_of p c) (tuple_entry_of p c) = false)
    by reflexivity.
  assert (Hd' : entry_eqb (tuple_entry_of p c) (inode_entry_of p c) = false)
    by reflexivity.
  apply mem_entry_false in Hnot.
  destruct He as [-> | ->].
  - rewrite (proj2 (entry_eqb_eq _ _) eq_refl), Hd', Hnot. simpl.
    destruct (existsb (entry_eqb (tuple_entry_of p c)) todo); simpl; lia.
  - rewrite (proj2 (entry_eqb_eq _ _) eq_refl), Hd, Hnot. simpl.
    destruct (existsb (entry_eqb (inode_entry_of p c)) todo); simpl; lia.
Qed.


Lemma walking_head_fresh e todo w es :
  walking (e :: todo) w es -> e ∉ todo.
Proof.
  intros (_ & Hnd & _) Hin. simpl in Hnd. apply NoDup_cons in Hnd as [Hnot _].
  apply Hnot. apply list_elem_of_fmap. eauto.
Qed.

Lemma walking_skip e todo w es :
  walking (e :: todo) w es -> e ∉ es -> walking todo w es.
Proof.
  intros ((Ht & Hnd & Hall) & Hndt & Hlinked & Hsurv) Hnot.
  split; [|split; [|split]].
  - split; [exact Ht|]. split; [exact Hnd|].
    intros e' He'.
    destruct (Hall e' He') as (c & Hl & Hm & Hi & Htu & HS & Hph & Hfr).
    exists c. split; [exact Hl|]. split; [exact Hm|]. split; [exact Hi|].
    split; [exact Htu|]. split; [exact HS|].
    rewrite pending_skip in Hph, Hfr; [auto | | | |]; intros ->; contradiction.
  - simpl in Hndt. apply NoDup_cons in Hndt as [_ ?]. assumption.
  - intros e' He'. apply Hlinked. apply elem_of_cons. auto.
  - exact Hsurv.
Qed.

Lemma walking_update e todo w es c c' :
  walking (e :: todo) w es -> e ∈ es -> live w (e_value e) c ->
  inode c' = inode c -> tuple c' = tuple c ->
  (forall r, (r <= 1)%nat -> phase N (Datatypes.S r) c ->
             phase N r c' /\ (use c = 2 -> use c' = 2 \/ r = 0%nat)) ->
  walking todo (with_heap (<[e_value e := Some c']> (heap w)) w) es.
Proof.
  intros Hw He Hlive Hi' Ht' Hstep.
  pose proof (walking_head_fresh _ _ _ _ Hw) as Hfresh.
  destruct Hw as ((Ht & Hnd & Hall) & Hndt & Hlinked & Hsurv).
  assert (Hp : (e_value e < length (heap w))%nat) by (eapply lookup_lt_Some; eauto).
  assert (Hie : inode_entry_of (e_value e) c' = inode_entry_of (e_value e) c)
    by (unfold inode_entry_of; congruence).
  assert (Hte : tuple_entry_of (e_value e) c' = tuple_entry_of (e_value e) c)
    by (unfold tuple_entry_of; congruence).
  split; [|split; [|split]].
  - split; [exact Ht|]. split; [exact Hnd|].
    intros e' He'.
    destruct (Hall e' He') as (c0 & Hl & Hm & Hi & Htu & HS & Hph & Hfr).
    unfold live in *. simpl.
    destruct (Nat.eq_dec (e_value e') (e_value e)) as [E|E].
    + rewrite E in *. rewrite Hl in Hlive. inversion Hlive; subst c0.
      exists c'. rewrite list_lookup_insert_eq by exact Hp.
      split; [reflexivity|]. rewrite Hie, Hte.
      split; [exact Hm|]. split; [exact Hi|]. split; [exact Htu|].
      split; [congruence|].
      destruct (Hall e He) as (c1 & Hl1 & Hm1 & _).
      unfold live in Hl1. rewrite Hl in Hl1. inversion Hl1; subst c1.
      destruct (pending_visit e todo (e_value e) c Hfresh Hm1) as [Hp1 Hp2].
      rewrite Hp1 in Hph, Hfr.
      destruct (Hstep _ Hp2 Hph) as [Hph' Huse].
      unfold pending in *. rewrite Hie, Hte. split; [exact Hph'|].
      intros Hf. destruct (Hfr Hf) as [Hu|Hz]; [auto | discriminate].
    + exists c0. rewrite list_lookup_insert_ne by auto.
      split; [exact Hl|]. split; [exact Hm|]. split; [exact Hi|].
      split; [exact Htu|]. split; [exact HS|].
      rewrite pending_skip in Hph, Hfr; [auto | | | |];
        intros ->; simpl in E; congruence.
  - simpl in Hndt. apply NoDup_cons in Hndt as [_ ?]. assumption.
  - intros e' He'. apply Hlinked. apply elem_of_cons. auto.
  - exact Hsurv.
Qed.

Lemma walking_remove e todo w es c k :
  walking (e :: todo) w es -> e ∈ es -> live w (e_value e) c -> use c = 1 ->
  walking todo
    {| heap := <[e_value e := None]> (heap w);
       ht_connections :=
         Table (remove_key KEY_TUPLE (KTuple (tuple c))
                 (remove_key KEY_INODE (KInode (inode c)) es));
       key_type := k |}
    (remove_key KEY_TUPLE (KTuple (tuple c))
       (remove_key KEY_INODE (KInode (inode c)) es)).
Proof.
  intros Hw He Hlive Huse.
  pose proof (walking_head_fresh _ _ _ _ Hw) as Hhead.
  destruct Hw as ((Ht & Hnd & Hall) & Hndt & Hlinked & Hsurv).
  destruct (Hall e He) as (c1 & Hl1 & Hm1 & Hi & Htu & _ & _ & Hfr1).
  assert (c1 = c) by (unfold live in *; congruence). subst c1.
  assert (Hold : ~ fresh (e_value e)).
  { intros Hf. destruct (pending_visit e todo (e_value e) c Hhead Hm1) as [Hp1 _].
    destruct (Hfr1 Hf) as [?|Hz]; [lia|]. rewrite Hp1 in Hz. discriminate. }
  destruct (remove_key_nodup KEY_INODE es _ Hnd Hi eq_refl) as [Hnd1 Hin1].
  assert (Htu1 : tuple_entry_of (e_value e) c ∈
                 remove_key KEY_INODE (e_key (inode_entry_of (e_value e) c)) es).
  { apply Hin1. split; [exact Htu | discriminate]. }
  destruct (remove_key_nodup KEY_TUPLE _ _ Hnd1 Htu1 eq_refl) as [Hnd2 Hin2].
  simpl in Hin1, Hin2, Hnd1, Hnd2.
  set (es' := remove_key KEY_TUPLE (KTuple (tuple c))
                (remove_key KEY_INODE (KInode (inode c)) es)) in *.
  assert (Hes' : forall e', e' ∈ es' <->
                   e' ∈ es /\ e_key e' <> KInode (inode c) /\
                   e_key e' <> KTuple (tuple c)).
  { intros e'. rewrite Hin2, Hin1. tauto. }
  assert (Hother : forall e', e' ∈ es' -> e_value e' <> (e_value e)).
  { intros e' He' Hv. apply Hes' in He' as (He' & Hk1 & Hk2).
    destruct (Hall e' He') as (c0 & Hl0 & Hm0 & _).
    rewrite Hv in *. assert (c0 = c) by (unfold live in *; congruence). subst c0.
    destruct Hm0 as [E|E]; rewrite E in Hk1, Hk2; simpl in *; congruence. }
  assert (Hkeep : forall e', e' ∈ es -> e_value e' <> (e_value e) -> e' ∈ es').
  { intros e' He' Hv. apply Hes'. split; [exact He'|]. split.
    - intros Hk. apply Hv.
      rewrite (entry_by_key es e' (inode_entry_of (e_value e) c) Hnd He' Hi Hk).
      reflexivity.
    - intros Hk. apply Hv.
      rewrite (entry_by_key es e' (tuple_entry_of (e_value e) c) Hnd He' Htu Hk).
      reflexivity. }
  split; [|split; [|split]].
  - split; [reflexivity|]. split; [exact Hnd2|].
    intros e' He'. pose proof (Hother e' He') as Hv.
    apply Hes' in He' as (He' & _).
    destruct (Hall e' He') as (c0 & Hl0 & Hm0 & Hi0 & Ht0 & HS & Hph & Hfr).
    exists c0. split.
    { unfold live in *. simpl. rewrite list_lookup_insert_ne by auto. exact Hl0. }
    split; [exact Hm0|].
    split; [apply Hkeep; [exact Hi0 | exact Hv]|].
    split; [apply Hkeep; [exact Ht0 | exact Hv]|].
    split; [exact HS|].
    rewrite pending_skip in Hph, Hfr; [auto | | | |];
      intros ->; simpl in Hv; congruence.
  - simpl in Hndt. apply NoDup_cons in Hndt as [_ ?]. assumption.
  - intros e' He'.
    destruct (Nat.eq_dec (e_value e') (e_value e)) as [E|E].
    + right. intros e'' He''. rewrite E. apply Hother. exact He''.
    + destruct (Hlinked e' ltac:(apply elem_of_cons; auto)) as [Hin|Hgone].
      * left. apply Hkeep; assumption.
      * right. intros e'' He''. apply Hgone. apply Hes' in He''. tauto.
  - intros e' He' Hf. apply Hkeep; [apply Hsurv; assumption|].
    intros Hv. apply Hold. rewrite <- Hv. exact Hf.
Qed.

Lemma phase_after_active r c :
  active c = true -> phase N (Datatypes.S r) c ->
  phase N r (with_active false c) /\
  (use c = 2 -> use (with_active false c) = 2 \/ r = 0%nat).
Proof.
  intros Ha Hph. split; [|simpl; auto].
  destruct Hph as [H|[H|[H|[H|H]]]]; unfold phase; simpl.
  - destruct H as (Hr & ? & ? & ?). right. left. repeat split; auto; lia.
  - destruct H as (_ & _ & ? & _). congruence.
  - destruct H as (? & _). lia.
  - destruct H as (Hr & ?). do 4 right. repeat split; auto; lia.
  - destruct H as (_ & _ & ?). congruence.
Qed.

Lemma phase_after_counted_down r c :
  active c = false -> use c <> 1 -> phase N (Datatypes.S r) c ->
  phase N r (with_use (use c - 1) c) /\
  (use c = 2 -> use (with_use (use c - 1) c) = 2 \/ r = 0%nat).
Proof.
  intros Ha Hu [H|[H|[H|[H|H]]]]; unfold phase; simpl.
  - destruct H as (_ & _ & ? & _). congruence.
  - destruct H as (Hr & Hu2 & ? & ?). split; [|right; lia].
    do 2 right. left. repeat split; auto; lia.
  - destruct H as (? & _). lia.
  - destruct H as (_ & ?). contradiction.
  - destruct H as (_ & ? & _). contradiction.
Qed.

Lemma linked_run e w es :
  ht_connections w = Table es ->
  linked e w = inr (existsb (entry_eqb e) es, w).
Proof.
  intros Ht. unfold linked, bind, entries, ret. rewrite Ht. reflexivity.
Qed.

Lemma foreach_walk : forall todo w es,
  walking todo w es ->
  exists w' es',
    foreach_from (remove_dead_conn impl) todo w = inr (tt, w') /\
    walking [] w' es'.
Proof.
  induction todo as [|e rest IH]; intros w es Hw.
  - exists w, es. split; [reflexivity | exact Hw].
  - pose proof Hw as ((Ht & Hnd & Hall) & _ & _).
    cbn [foreach_from]. unfold bind at 1. rewrite (linked_run e w es Ht).
    destruct (existsb (entry_eqb e) es) eqn:Hmem.
    + apply mem_entry in Hmem.
      destruct (Hall e Hmem) as (c & Hl & Hm & Hi & Htu & HS & Hph & _).
      destruct (active c) eqn:Ha.
      * unfold bind at 1. rewrite (visit_active impl w _ c Hl Ha).
        change (0 =? 0) with true. cbv iota.
        apply (IH _ es).
        apply (walking_update e rest w es c (with_active false c) Hw Hmem Hl);
          [reflexivity | reflexivity |].
        intros r _. apply phase_after_active. exact Ha.
      * destruct (Z.eq_dec (use c) 1) as [Hu|Hu].
        -- unfold bind at 1.
           assert (Hkeys : keys_in S es).
           { apply (indexes_keys_in S (walked (e :: rest)) w es);
               [intros ? ? (? & _); assumption | exact (proj1 Hw)]. }
           rewrite (visit_removes impl w _ c es Hl Ha Hu Ht Hnd
                      (keys_apart_inode S es _ Hkeys
                         (unmixed_inode S _ _ S_unmixed HS))
                      (keys_apart_tuple S es _ Hkeys
                         (unmixed_tuple S _ _ S_unmixed HS)) Hi Htu).
           change (0 =? 0) with true. cbv iota.
           eapply IH. eapply walking_remove; eauto.
        -- unfold bind at 1. rewrite (visit_counted_down impl w _ c Hl Ha Hu).
           change (0 =? 0) with true. cbv iota.
           apply (IH _ es).
           apply (walking_update e rest w es c (with_use (use c - 1) c)
                    Hw Hmem Hl); [reflexivity | reflexivity |].
           intros r _. apply phase_after_counted_down; assumption.
    + apply mem_entry_false in Hmem.
      unfold bind at 1. unfold ret at 1.
      change (0 =? 0) with true. cbv iota.
      apply (IH _ es). eapply walking_skip; eauto.
Qed.

(** What an update leaves of a record: one reference, inactive, made by a
    line of this update. *)
Definition settled (_ : nat) (c : connection_t) : Prop :=
  S (inode c) (tuple c) /\ use c = 1 /\ active c = false /\
  N (inode c) (tuple c).

End Walk.

Lemma aging_pass impl (S N : Z -> struct_tuple -> Prop) fresh w es :
  unmixed S ->
  indexes (during S N fresh) w es ->
  exists w' es',
    hashtable_foreach (remove_dead_conn impl) w = inr (tt, w') /\
    indexes (settled S N) w' es' /\
    (forall e, e ∈ es -> fresh (e_value e) -> e ∈ es').
Proof.
  intros Hunm Hix.
  assert (Hw : walking S N fresh es es w es).
  { pose proof Hix as (Ht & Hnd & Hall).
    split; [|split; [exact Hnd | auto]].
    split; [exact Ht|]. split; [exact Hnd|].
    intros e He.
    destruct (Hall e He) as (c & Hl & Hm & Hi & Htu & HS & HN & Hfr).
    exists c. split; [exact Hl|]. split; [exact Hm|]. split; [exact Hi|].
    split; [exact Htu|]. split; [exact HS|].
    unfold pending.
    rewrite (proj2 (mem_entry _ _) Hi), (proj2 (mem_entry _ _) Htu). simpl.
    split; [|auto].
    destruct HN as [Hu|(Hu & Ha & Hn)]; unfold phase; auto 10. }
  destruct (foreach_walk impl S N fresh es Hunm es w es Hw) as (w' & es' & Hrun & Hw').
  exists w', es'. split; [|split].
  - unfold hashtable_foreach, bind, entries.
    destruct Hix as (Ht & _). rewrite Ht. exact Hrun.
  - destruct Hw' as (Hix' & _).
    eapply indexes_weaken; [|exact Hix'].
    intros p c (HS & Hph & _). unfold pending in Hph. simpl in Hph.
    destruct Hph as [H|[H|[H|[H|H]]]];
      try (destruct H as (Hr & _); discriminate).
    destruct H as (_ & ? & ? & ?). split; auto.
  - destruct Hw' as (_ & _ & _ & Hsurv). exact Hsurv.
Qed.

(** *** Whole updates *)

(** The pairs of inode and tuple that an update reads, in a state other
    than TIME_WAIT and LISTEN, in the files it is asked for. *)
Definition seen (files : procnet) (proto : Z) (i : Z) (t : struct_tuple)
    : Prop :=
  (Z.land proto TCP <> 0 /\
   accepted IPPROTO_TCP (body (PATH_TCP files)) i t) \/
  (Z.land proto UDP <> 0 /\
   accepted IPPROTO_UDP (body (PATH_UDP files)) i t).

Lemma during_weaken (S N N' : Z -> struct_tuple -> Prop) fresh p c :
  (forall i t, N i t -> N' i t) ->
  during S N fresh p c -> during S N' fresh p c.
Proof.
  intros HN (HS & Hc & Hf). split; [exact HS|]. split; [|exact Hf].
  destruct Hc as [Hc|(Hu & Ha & Hn)]; [left | right]; auto.
Qed.

Lemma has_inode_added n es es' i :
  extends n es es' -> has_inode es' i ->
  (forall e, e ∈ es -> e_key e <> KInode i) ->
  exists e, e ∈ es' /\ e_key e = KInode i /\ (n <= e_value e)%nat.
Proof.
  intros (added & -> & Hadd) (e & He & Hk) Hno.
  exists e. split; [exact He|]. split; [exact Hk|].
  apply elem_of_app in He as [He|He]; [auto|].
  destruct (Hno e He Hk).
Qed.

Lemma update_settles impl (S N : Z -> struct_tuple -> Prop) fresh
    files proto w es w' :
  one_inode_per_tuple S ->
  unmixed S ->
  indexes (during S N fresh) w es ->
  (forall i t, seen files proto i t -> S i t) ->
  connection_update impl files proto w = inr (true, w') ->
  exists es',
    indexes (settled S (fun i t => N i t \/ seen files proto i t)) w' es' /\
    ((forall n, (length (heap w) <= n)%nat -> fresh n) ->
     forall i t, seen files proto i t ->
       (forall e, e ∈ es -> e_key e <> KInode i) -> has_inode es' i).
Proof.
  intros HS1 Hunm Hix Hseen Hrun.
  set (N' := fun i t => N i t \/ seen files proto i t).
  assert (Hix' : indexes (during S N' fresh) w es).
  { eapply indexes_weaken; [|exact Hix].
    intros p c. apply during_weaken. unfold N'. auto. }
  clear Hix. unfold connection_update in Hrun.
  assert (Htcp : exists r w1 es1,
            (if negb (Z.land proto TCP =? 0)
             then connection_update_ impl (PATH_TCP files) IPPROTO_TCP
             else ret 1) w = inr (r, w1) /\
            indexes (during S N' fresh) w1 es1 /\
            (length (heap w) <= length (heap w1))%nat /\
            extends (length (heap w)) es es1 /\
            (r <> 0 -> Z.land proto TCP <> 0 ->
             forall i t, accepted IPPROTO_TCP (body (PATH_TCP files)) i t ->
                         has_inode es1 i)).
  { destruct (Z.eqb_spec (Z.land proto TCP) 0) as [E|E]; simpl.
    - exists 1, w, es. split; [reflexivity|]. split; [exact Hix'|].
      split; [lia|]. split; [apply extends_refl|]. intros _ H. contradiction.
    - destruct (connection_update__indexed impl S N' fresh HS1 Hunm
                  (PATH_TCP files) IPPROTO_TCP w es Hix')
        as (r & w1 & es1 & H1 & H2 & H3 & H4 & H5).
      { intros i t Hacc. assert (Hs : seen files proto i t) by (left; auto).
        split; [auto | unfold N'; auto]. }
      exists r, w1, es1. split; [exact H1|]. split; [exact H2|].
      split; [exact H3|]. split; [exact H4|]. intros Hr _. exact (H5 Hr). }
  destruct Htcp as (r1 & w1 & es1 & Hrun1 & Hix1 & Hlen1 & Hext1 & Hhas1).
  unfold bind at 1 in Hrun. rewrite Hrun1 in Hrun.
  destruct (Z.eqb_spec r1 0) as [|Hr1]; [inversion Hrun|].
  assert (Hudp : exists r w2 es2,
            (if negb (Z.land proto UDP =? 0)
             then connection_update_ impl (PATH_UDP files) IPPROTO_UDP
             else ret 1) w1 = inr (r, w2) /\
            indexes (during S N' fresh) w2 es2 /\
            (length (heap w1) <= length (heap w2))%nat /\
            extends (length (heap w1)) es1 es2 /\
            (r <> 0 -> Z.land proto UDP <> 0 ->
             forall i t, accepted IPPROTO_UDP (body (PATH_UDP files)) i t ->
                         has_inode es2 i)).
  { destruct (Z.eqb_spec (Z.land proto UDP) 0) as [E|E]; simpl.
    - exists 1, w1, es1. split; [reflexivity|]. split; [exact Hix1|].
      split; [lia|]. split; [apply extends_refl|]. intros _ H. contradiction.
    - destruct (connection_update__indexed impl S N' fresh HS1 Hunm
                  (PATH_UDP files) IPPROTO_UDP w1 es1 Hix1)
        as (r & w2 & es2 & H1 & H2 & H3 & H4 & H5).
      { intros i t Hacc. assert (Hs : seen files proto i t) by (right; auto).
        split; [auto | unfold N'; auto]. }
      exists r, w2, es2. split; [exact H1|]. split; [exact H2|].
      split; [exact H3|]. split; [exact H4|]. intros Hr _. exact (H5 Hr). }
  destruct Hudp as (r2 & w2 & es2 & Hrun2 & Hix2 & Hlen2 & Hext2 & Hhas2).
  unfold bind at 1 in Hrun. rewrite Hrun2 in Hrun.
  destruct (Z.eqb_spec r2 0) as [|Hr2]; [inversion Hrun|].
  destruct (aging_pass impl S N' fresh w2 es2 Hunm Hix2)
    as (w3 & es3 & Hrun3 & Hix3 & Hsurv).
  unfold bind at 1 in Hrun. rewrite Hrun3 in Hrun.
  inversion Hrun; subst w'. exists es3. split; [exact Hix3|].
  intros Hfresh i t Hs Hno.
  assert (Hext : extends (length (heap w)) es es2)
    by (eapply extends_trans; eauto).
  assert (H2 : has_inode es2 i).
  { destruct Hs as [[Hreq Hacc]|[Hreq Hacc]].
    - destruct (Hhas1 Hr1 Hreq i t Hacc) as (e & He & Hk).
      exists e. split; [exact (extends_elem _ _ _ _ Hext2 He) | exact Hk].
    - exact (Hhas2 Hr2 Hreq i t Hacc). }
  destruct (has_inode_added _ _ _ _ Hext H2 Hno) as (e & He & Hk & Hn).
  exists e. split; [|exact Hk]. apply Hsurv; [exact He|]. apply Hfresh. exact Hn.
Qed.

(** The pairs of inode and tuple of the records in the table. *)
Definition recorded (w : world) (i : Z) (t : struct_tuple) : Prop :=
  exists es e c, ht_connections w = Table es /\ e ∈ es /\
                 live w (e_value e) c /\ inode c = i /\ tuple c = t.

(** The table as [connection_init] and the updates leave it: every record
    is indexed by its two keys, no key twice, and its count is 1, or 2
    while it is active. *)
Definition well_indexed (w : world) : Prop :=
  indexed (fun _ c => counted (fun _ _ => True) c) w.

Lemma indexes_recorded Q w es :
  indexes Q w es ->
  indexes (fun p c => Q p c /\ recorded w (inode c) (tuple c)) w es.
Proof.
  intros (Ht & Hnd & Hall). split; [exact Ht|]. split; [exact Hnd|].
  intros e He. destruct (Hall e He) as (c & Hl & Hm & Hi & Htu & HQ).
  exists c. split; [exact Hl|]. split; [exact Hm|]. split; [exact Hi|].
  split; [exact Htu|]. split; [exact HQ|]. exists es, e, c. auto.
Qed.

Lemma settled_unseen (S : Z -> struct_tuple -> Prop) files proto w es :
  indexes (settled S (fun i t => False \/ seen files proto i t)) w es ->
  (forall i, (forall t, ~ seen files proto i t) ->
     Forall (apart (KInode i)) es ->
     connection_get_by_inode i w = inr (None, with_key_type KEY_INODE w)) /\
  (forall t, (forall i, ~ seen files proto i t) ->
     Forall (apart (KTuple t)) es ->
     connection_get_by_tuple t w = inr (None, with_key_type KEY_TUPLE w)).
Proof.
  intros Hes. pose proof Hes as (Ht & _). split.
  - intros i Hno Hap. rewrite (get_by_inode_apart w es i Ht Hap).
    destruct (find_key KEY_INODE (KInode i) es) as [e|] eqn:Hf; [|reflexivity].
    destruct (indexes_find_inode _ _ _ _ _ Hes Hf)
      as (c & _ & Hi & _ & _ & _ & [[]|Hs]).
    rewrite Hi in Hs. destruct (Hno _ Hs).
  - intros t Hno Hap. rewrite (get_by_tuple_apart w es t Ht Hap).
    destruct (find_key KEY_TUPLE (KTuple t) es) as [e|] eqn:Hf; [|reflexivity].
    destruct (indexes_find_tuple _ _ _ _ _ Hes Hf)
      as (c & _ & Hi & _ & _ & _ & [[]|Hs]).
    rewrite Hi in Hs. destruct (Hno _ Hs).
Qed.

Lemma settled_present (S N : Z -> struct_tuple -> Prop) w es i :
  unmixed S ->
  indexes (settled S N) w es -> has_inode es i ->
  exists p c,
    live w p c /\ inode c = i /\ N i (tuple c) /\
    connection_get_by_inode i w = inr (Some p, with_key_type KEY_INODE w) /\
    connection_get_by_tuple (tuple c) w
    = inr (Some p, with_key_type KEY_TUPLE w).
Proof.
  intros Hunm Hes (e & He & Hk). pose proof Hes as (Ht & Hnd & Hall).
  destruct (Hall e He) as (c & Hl & Hm & Hi & Htu & HS & _ & _ & HN).
  assert (Hkeys : keys_in S es).
  { apply (indexes_keys_in S (settled S N) w es);
      [intros ? ? (? & _); assumption | exact Hes]. }
  assert (Hic : inode c = i).
  { destruct Hm as [E|E]; rewrite E in Hk; simpl in Hk; inversion Hk; auto. }
  exists (e_value e), c. split; [exact Hl|]. split; [exact Hic|].
  split; [rewrite <- Hic; exact HN|]. split.
  - pose proof (find_key_nodup KEY_INODE es _ Hnd Hi eq_refl) as Hf.
    simpl in Hf. rewrite <- Hic.
    rewrite (get_by_inode_apart w es _ Ht
               (keys_apart_inode S es _ Hkeys (unmixed_inode S _ _ Hunm HS))), Hf.
    reflexivity.
  - pose proof (find_key_nodup KEY_TUPLE es _ Hnd Htu eq_refl) as Hf.
    simpl in Hf.
    rewrite (get_by_tuple_apart w es _ Ht
               (keys_apart_tuple S es _ Hkeys (unmixed_tuple S _ _ Hunm HS))), Hf.
    reflexivity.
Qed.

(** C4, amended. After two consecutive successful updates of a
    well-indexed table, where no tuple belongs to two inodes and the
    first eight bytes of no tuple read as an inode of the table or of
    the files: an inode that the second update does not read (in a state
    other than TIME_WAIT and LISTEN), and that is not what the first
    eight bytes of a tuple read as, is not in the inode index, and a
    tuple that the second update does not read, and whose first eight
    bytes read as no inode, is not in the tuple index, whether the first
    update read them or not; a connection that the second update reads
    and whose inode was not in the table when that update began is in
    both indexes, which return the same record. *)
Theorem aging_after_two_updates impl files1 proto1 files2 proto2 w0 w1 w2 :
  well_indexed w0 ->
  one_inode_per_tuple
    (fun i t => recorded w0 i t \/ seen files1 proto1 i t \/
                seen files2 proto2 i t) ->
  unmixed
    (fun i t => recorded w0 i t \/ seen files1 proto1 i t \/
                seen files2 proto2 i t) ->
  connection_update impl files1 proto1 w0 = inr (true, w1) ->
  connection_update impl files2 proto2 w1 = inr (true, w2) ->
  (forall i, (forall t, ~ seen files2 proto2 i t) ->
     (forall j u, recorded w0 j u \/ seen files1 proto1 j u \/
                  seen files2 proto2 j u -> tuple_head u <> i) ->
     connection_get_by_inode i w2 = inr (None, with_key_type KEY_INODE w2)) /\
  (forall t, (forall i, ~ seen files2 proto2 i t) ->
     (forall j u, recorded w0 j u \/ seen files1 proto1 j u \/
                  seen files2 proto2 j u -> j <> tuple_head t) ->
     connection_get_by_tuple t w2 = inr (None, with_key_type KEY_TUPLE w2)) /\
  (forall i t, seen files2 proto2 i t -> (forall t', ~ recorded w1 i t') ->
     exists p c,
       live w2 p c /\ inode c = i /\ seen files2 proto2 i (tuple c) /\
       connection_get_by_inode i w2
       = inr (Some p, with_key_type KEY_INODE w2) /\
       connection_get_by_tuple (tuple c) w2
       = inr (Some p, with_key_type KEY_TUPLE w2)).
Proof.
  intros (es0 & Hes0) Hone Hunm Hrun1 Hrun2.
  set (S := fun i t => recorded w0 i t \/ seen files1 proto1 i t \/
                       seen files2 proto2 i t) in *.
  assert (H0 : indexes (during S (fun _ _ => True) (fun _ => False)) w0 es0).
  { apply indexes_recorded in Hes0.
    eapply indexes_weaken; [|exact Hes0].
    intros p c [Hc Hr]. split; [left; exact Hr|]. split; [exact Hc | tauto]. }
  destruct (update_settles impl S _ _ files1 proto1 w0 es0 w1 Hone Hunm H0
              ltac:(unfold S; auto) Hrun1) as (es1 & Hes1 & _).
  set (fresh := fun p => (length (heap w1) <= p)%nat).
  assert (H1 : indexes (during S (fun _ _ => False) fresh) w1 es1).
  { pose proof Hes1 as (Ht & Hnd & Hall).
    split; [exact Ht|]. split; [exact Hnd|].
    intros e He. destruct (Hall e He) as (c & Hl & Hm & Hi & Htu & HS & Hu & _).
    exists c. split; [exact Hl|]. split; [exact Hm|]. split; [exact Hi|].
    split; [exact Htu|]. split; [exact HS|]. split; [left; exact Hu|].
    unfold fresh. intros Hf. apply lookup_lt_Some in Hl. lia. }
  destruct (update_settles impl S _ fresh files2 proto2 w1 es1 w2 Hone Hunm H1
              ltac:(unfold S; auto) Hrun2) as (es2 & Hes2 & Hnew).
  assert (Hkeys : keys_in S es2).
  { apply (indexes_keys_in S _ w2 es2 (fun p c H => proj1 H) Hes2). }
  destruct (settled_unseen S files2 proto2 w2 es2 Hes2) as [Hi Ht].
  split; [|split].
  { intros i Hno Hap. apply Hi; [exact Hno|].
    apply (keys_apart_inode S es2 i Hkeys Hap). }
  { intros t Hno Hap. apply Ht; [exact Hno|].
    apply (keys_apart_tuple S es2 t Hkeys Hap). }
  intros i t Hs Hnot.
  assert (Hno : forall e, e ∈ es1 -> e_key e <> KInode i).
  { intros e He Hk. pose proof Hes1 as (Ht1 & _ & Hall).
    destruct (Hall e He) as (c & Hl & Hm & _).
    apply (Hnot (tuple c)). exists es1, e, c.
    split; [exact Ht1|]. split; [exact He|]. split; [exact Hl|].
    split; [|reflexivity].
    destruct Hm as [E|E]; rewrite E in Hk; simpl in Hk; inversion Hk; auto. }
  pose proof (Hnew ltac:(unfold fresh; auto) i t Hs Hno) as Hhas.
  destruct (settled_present _ _ w2 es2 i Hunm Hes2 Hhas)
    as (p & c & Hl & Hic & [[]|HN] & Hgi & Hgt).
  exists p, c. auto.
Qed.

(** In a well-indexed table both lookups of an indexed record return
    it. *)
Lemma indexes_dual (S : Z -> struct_tuple -> Prop) Q w es e :
  unmixed S -> (forall p c, Q p c -> S (inode c) (tuple c)) ->
  indexes Q w es -> e ∈ es ->
  exists c,
    live w (e_value e) c /\
    connection_get_by_inode (inode c) w
    = inr (Some (e_value e), with_key_type KEY_INODE w) /\
    connection_get_by_tuple (tuple c) w
    = inr (Some (e_value e), with_key_type KEY_TUPLE w).
Proof.
  intros Hunm HQ Hix He.
  pose proof (indexes_keys_in S Q w es HQ Hix) as Hkeys.
  destruct Hix as (Ht & Hnd & Hall).
  destruct (Hall e He) as (c & Hl & _ & Hi & Htu & Hq).
  pose proof (HQ _ _ Hq) as HS.
  exists c. split; [exact Hl|]. split.
  - pose proof (find_key_nodup KEY_INODE es _ Hnd Hi eq_refl) as Hf.
    simpl in Hf.
    rewrite (get_by_inode_apart w es _ Ht
               (keys_apart_inode S es _ Hkeys (unmixed_inode S _ _ Hunm HS))), Hf.
    reflexivity.
  - pose proof (find_key_nodup KEY_TUPLE es _ Hnd Htu eq_refl) as Hf.
    simpl in Hf.
    rewrite (get_by_tuple_apart w es _ Ht
               (keys_apart_tuple S es _ Hkeys (unmixed_tuple S _ _ Hunm HS))), Hf.
    reflexivity.
Qed.

(** X20. As long as no tuple belongs to two inodes and the first eight
    bytes of no tuple read as an inode, a successful update leaves the
    two indexes consistent. *)
Lemma dual_index_after_update impl files proto w0 w1 :
  well_indexed w0 ->
  one_inode_per_tuple
    (fun i t => recorded w0 i t \/ seen files proto i t) ->
  unmixed
    (fun i t => recorded w0 i t \/ seen files proto i t) ->
  connection_update impl files proto w0 = inr (true, w1) ->
  forall i t, recorded w1 i t ->
    exists p c,
      live w1 p c /\ inode c = i /\ tuple c = t /\
      connection_get_by_inode i w1
      = inr (Some p, with_key_type KEY_INODE w1) /\
      connection_get_by_tuple t w1
      = inr (Some p, with_key_type KEY_TUPLE w1).
Proof.
  intros (es0 & Hes0) Hone Hunm Hrun i t (es & e & c & Ht & He & Hl & Hi & Htu).
  set (S := fun i t => recorded w0 i t \/ seen files proto i t) in *.
  assert (H0 : indexes (during S (fun _ _ => True) (fun _ => False)) w0 es0).
  { apply indexes_recorded in Hes0.
    eapply indexes_weaken; [|exact Hes0].
    intros p c' [Hc Hr]. split; [left; exact Hr|]. split; [exact Hc | tauto]. }
  destruct (update_settles impl S _ _ files proto w0 es0 w1 Hone Hunm H0
              ltac:(unfold S; auto) Hrun) as (es1 & Hes1 & _).
  pose proof Hes1 as (Ht1 & _). rewrite Ht in Ht1. inversion Ht1; subst es1.
  destruct (indexes_dual S _ _ _ _ Hunm (fun p c H => proj1 H) Hes1 He)
    as (c' & Hl' & Hgi & Hgt).
  assert (c' = c) by (unfold live in *; congruence). subst c'.
  exists (e_value e), c. rewrite <- Hi, <- Htu. auto.
Qed.

(** X19. Being well indexed is kept by every update, failed or not, as long
    as no tuple belongs to two inodes and the first eight bytes of no
    tuple read as an inode. *)
Lemma update_keeps_well_indexed impl files proto w0 b w1 :
  well_indexed w0 ->
  one_inode_per_tuple
    (fun i t => recorded w0 i t \/ seen files proto i t) ->
  unmixed
    (fun i t => recorded w0 i t \/ seen files proto i t) ->
  connection_update impl files proto w0 = inr (b, w1) ->
  well_indexed w1.
Proof.
  intros (es0 & Hes0) Hone Hunm Hrun.
  set (S := fun i t => recorded w0 i t \/ seen files proto i t) in *.
  set (N := fun (_ : Z) (_ : struct_tuple) => True).
  set (fresh := fun _ : nat => False).
  assert (H0 : indexes (during S N fresh) w0 es0).
  { apply indexes_recorded in Hes0.
    eapply indexes_weaken; [|exact Hes0].
    intros p c [Hc Hr]. split; [left; exact Hr|].
    split; [exact Hc | unfold fresh; tauto]. }
  assert (Hweak : forall w es, indexes (during S N fresh) w es ->
                               well_indexed w).
  { intros w es H. exists es. eapply indexes_weaken; [|exact H].
    intros p c (_ & Hc & _). exact Hc. }
  unfold connection_update in Hrun.
  assert (Htcp : exists r w' es',
            (if negb (Z.land proto TCP =? 0)
             then connection_update_ impl (PATH_TCP files) IPPROTO_TCP
             else ret 1) w0 = inr (r, w') /\
            indexes (during S N fresh) w' es').
  { destruct (Z.eqb_spec (Z.land proto TCP) 0) as [E|E]; simpl.
    - exists 1, w0, es0. split; [reflexivity | exact H0].
    - destruct (connection_update__indexed impl S N fresh Hone Hunm
                  (PATH_TCP files) IPPROTO_TCP w0 es0 H0)
        as (r & w' & es' & H1 & H2 & _).
      { intros i t Hacc. split; [right; left; auto | exact I]. }
      exists r, w', es'. auto. }
  destruct Htcp as (r1 & wa & esa & Hrun1 & Hixa).
  unfold bind at 1 in Hrun. rewrite Hrun1 in Hrun.
  destruct (Z.eqb_spec r1 0) as [|Hr1].
  { inversion Hrun; subst. exact (Hweak _ _ Hixa). }
  assert (Hudp : exists r w' es',
            (if negb (Z.land proto UDP =? 0)
             then connection_update_ impl (PATH_UDP files) IPPROTO_UDP
             else ret 1) wa = inr (r, w') /\
            indexes (during S N fresh) w' es').
  { destruct (Z.eqb_spec (Z.land proto UDP) 0) as [E|E]; simpl.
    - exists 1, wa, esa. split; [reflexivity | exact Hixa].
    - destruct (connection_update__indexed impl S N fresh Hone Hunm
                  (PATH_UDP files) IPPROTO_UDP wa esa Hixa)
        as (r & w' & es' & H1 & H2 & _).
      { intros i t Hacc. split; [right; right; auto | exact I]. }
      exists r, w', es'. auto. }
  destruct Hudp as (r2 & wb & esb & Hrun2 & Hixb).
  unfold bind at 1 in Hrun. rewrite Hrun2 in Hrun.
  destruct (Z.eqb_spec r2 0) as [|Hr2].
  { inversion Hrun; subst. exact (Hweak _ _ Hixb). }
  destruct (aging_pass impl S N fresh wb esb Hunm Hixb)
    as (wc & esc & Hrun3 & Hixc & _).
  unfold bind at 1 in Hrun. rewrite Hrun3 in Hrun.
  inversion Hrun; subst. exists esc.
  eapply indexes_weaken; [|exact Hixc].
  intros p c (_ & Hu & _). left. exact Hu.
Qed.

End WithLayout.

End Aging.

(** ** The line parser on well-formed lines *)

Module KernelLineFacts.
Import CInt Scanf Conn ScanfFacts ConnFacts KernelLine.

Lemma is_dec_is_hex c : is_dec c = true -> is_hex c = true.
Proof. unfold is_hex. intros ->. reflexivity. Qed.

Lemma skip_space_spaces n s : skip_space (spaces n ++ s) = skip_space s.
Proof. induction n as [|n IH]; simpl; auto. Qed.

Lemma skip_space_text c cs rest :
  is_hex c = true -> skip_space ((c :: cs) ++ rest) = (c :: cs) ++ rest.
Proof. intros H. simpl. now rewrite (is_hex_not_space c H). Qed.

(** What may follow a number: nothing, or a character that is neither a
    digit nor the [x] of a prefix. *)
Definition stops (rest : list ascii) : bool :=
  match rest with
  | [] => true
  | c :: _ => negb (is_hex c) && negb (Ascii.eqb c "x") && negb (Ascii.eqb c "X")
  end.

Lemma stops_span p rest :
  (forall c, p c = true -> is_hex c = true) -> stops rest = true ->
  match rest with [] => True | c :: _ => p c = false end.
Proof.
  intros Hp. destruct rest as [|c rest]; simpl; [auto|].
  intros H. apply andb_prop in H as [H _]. apply andb_prop in H as [H _].
  destruct (p c) eqn:E; [|reflexivity]. rewrite (Hp c E) in H. discriminate.
Qed.

Lemma scan_integer_text base cs rest :
  (base = 10 \/ base = 16) ->
  forallb (if base =? 16 then is_hex else is_dec) cs = true -> cs <> [] ->
  stops rest = true ->
  scan_integer base (cs ++ rest) = Matched (VNum (digits_value base cs)) rest.
Proof.
  intros Hb Hall Hne Hstop. destruct cs as [|c cs]; [congruence|].
  assert (Hhex : forall d, (if base =? 16 then is_hex else is_dec) d = true ->
                           is_hex d = true).
  { intros d. destruct Hb as [-> | ->]; simpl; auto using is_dec_is_hex. }
  pose proof Hall as Hall'. simpl in Hall'. apply andb_prop in Hall' as [Hc Hcs].
  unfold scan_integer. rewrite (skip_space_text c cs rest (Hhex c Hc)).
  simpl app. unfold strip_sign.
  rewrite (hex_not_char c "-" (Hhex c Hc) eq_refl),
          (hex_not_char c "+" (Hhex c Hc) eq_refl).
  assert (Hs : (if base =? 16 then strip_0x (c :: cs ++ rest) else c :: cs ++ rest)
               = (c :: cs) ++ rest).
  { destruct (base =? 16); [|reflexivity]. unfold strip_0x.
    destruct cs as [|x cs]; simpl.
    - destruct rest as [|x [|d rest]]; try reflexivity.
      simpl in Hstop. apply andb_prop in Hstop as [H1 H2].
      apply andb_prop in H1 as [_ H1].
      apply negb_true_iff in H1, H2. rewrite H1, H2, andb_false_r. reflexivity.
    - simpl in Hcs. apply andb_prop in Hcs as [Hx _].
      rewrite (hex_not_char x "x" (Hhex x Hx) eq_refl),
              (hex_not_char x "X" (Hhex x Hx) eq_refl), andb_false_r.
      destruct (cs ++ rest); reflexivity. }
  rewrite Hs.
  rewrite (span_app _ (c :: cs) rest Hall (stops_span _ rest Hhex Hstop)).
  rewrite Z.mul_1_l. reflexivity.
Qed.

Lemma sscanf_dec t cs rest fmt b args :
  forallb is_dec cs = true -> cs <> [] -> stops rest = true ->
  sscanf_from (Conv t Dec :: fmt) (cs ++ rest) b args
  = match stored t (VNum (digits_value 10 cs)) with
    | Some v => sscanf_from fmt rest true (args ++ [v])
    | None => sscanf_from fmt rest b args
    end.
Proof.
  intros Hall Hne Hstop. simpl.
  rewrite (scan_integer_text 10 cs rest) by auto. reflexivity.
Qed.

Lemma sscanf_hex t cs rest fmt b args :
  forallb is_hex cs = true -> cs <> [] -> stops rest = true ->
  sscanf_from (Conv t Hex :: fmt) (cs ++ rest) b args
  = match stored t (VNum (digits_value 16 cs)) with
    | Some v => sscanf_from fmt rest true (args ++ [v])
    | None => sscanf_from fmt rest b args
    end.
Proof.
  intros Hall Hne Hstop. simpl.
  rewrite (scan_integer_text 16 cs rest) by auto. reflexivity.
Qed.

Lemma scan_set_text cs rest :
  forallb is_hex cs = true -> cs <> [] -> (length cs <= 9)%nat ->
  stops rest = true ->
  scan_conv (Scanset 9 is_hex) (cs ++ rest) = Matched (VStr cs) rest.
Proof.
  intros Hall Hne Hlen Hstop.
  pose proof (span_n_app is_hex cs 9 rest Hall Hlen
                (stops_span is_hex rest (fun _ H => H) Hstop)) as Hsp.
  destruct cs as [|c cs]; [congruence|].
  unfold scan_conv. simpl app in *. cbv iota. rewrite Hsp. reflexivity.
Qed.

Lemma sscanf_set cs rest fmt b args :
  forallb is_hex cs = true -> cs <> [] -> (length cs <= 9)%nat ->
  stops rest = true ->
  sscanf_from (Conv Chars (Scanset 9 is_hex) :: fmt) (cs ++ rest) b args
  = sscanf_from fmt rest true (args ++ [VStr cs]).
Proof.
  intros Hall Hne Hlen Hstop. cbn [sscanf_from].
  rewrite (scan_set_text cs rest) by auto. reflexivity.
Qed.

Lemma sscanf_white_spaces n s fmt b args :
  sscanf_from (White :: fmt) (" "%char :: spaces n ++ s) b args
  = sscanf_from (White :: fmt) s b args.
Proof. simpl. rewrite skip_space_spaces. reflexivity. Qed.

Lemma sscanf_white_text cs rest fmt b args :
  forallb is_hex cs = true -> cs <> [] ->
  sscanf_from (White :: fmt) (cs ++ rest) b args
  = sscanf_from fmt (cs ++ rest) b args.
Proof.
  intros Hall Hne. destruct cs as [|c cs]; [congruence|].
  simpl in Hall. apply andb_prop in Hall as [Hc _].
  cbn [sscanf_from]. rewrite (skip_space_text c cs rest Hc). reflexivity.
Qed.

Lemma hex_field_text w cs :
  hex_field w cs = true -> (0 < w)%nat ->
  forallb is_hex cs = true /\ cs <> [] /\ length cs = w.
Proof.
  unfold hex_field. intros H Hw. apply andb_prop in H as [H1 H2].
  apply Nat.eqb_eq in H2. split; [exact H1|]. split; [|exact H2].
  intros ->. simpl in H2. lia.
Qed.

Lemma dec_field_text cs :
  dec_field cs = true ->
  forallb is_dec cs = true /\ forallb is_hex cs = true /\ cs <> [].
Proof.
  unfold dec_field. intros H. apply andb_prop in H as [H1 H2].
  split; [exact H1|]. split.
  - apply forallb_forall. intros c Hc. apply is_dec_is_hex.
    eapply (proj1 (forallb_forall _ _) H1); eauto.
  - intros ->. discriminate.
Qed.


Lemma scan_integer_spaces base n s :
  scan_integer base (spaces n ++ s) = scan_integer base s.
Proof. unfold scan_integer. rewrite skip_space_spaces. reflexivity. Qed.

Lemma sscanf_indent t c n s fmt b args :
  c = Dec \/ c = Hex ->
  sscanf_from (Conv t c :: fmt) (spaces n ++ s) b args
  = sscanf_from (Conv t c :: fmt) s b args.
Proof.
  intros [-> | ->]; cbn [sscanf_from scan_conv];
    rewrite scan_integer_spaces; reflexivity.
Qed.

Lemma sscanf_lit c rest fmt b args :
  sscanf_from (Lit c :: fmt) (c :: rest) b args = sscanf_from fmt rest b args.
Proof. cbn [sscanf_from]. rewrite Ascii.eqb_refl. reflexivity. Qed.

Lemma sscanf_white_space s fmt b args :
  sscanf_from (White :: fmt) (" "%char :: s) b args
  = sscanf_from (White :: fmt) s b args.
Proof. reflexivity. Qed.

Lemma sscanf_white_indent n s fmt b args :
  sscanf_from (White :: fmt) (spaces n ++ s) b args
  = sscanf_from (White :: fmt) s b args.
Proof. cbn [sscanf_from]. rewrite skip_space_spaces. reflexivity. Qed.

Lemma sscanf_tail rest args :
  sscanf_from [White; Conv Suppressed (Str 512); White] rest true args
  = (Z.of_nat (length args), args).
Proof.
  cbn [sscanf_from scan_conv].
  destruct (skip_space (skip_space rest)) as [|c s]; [reflexivity|].
  destruct (span_n 512 _ (c :: s)) as [cs r]. reflexivity.
Qed.

Lemma ends_field_stops rest : ends_field rest = true -> stops rest = true.
Proof.
  destruct rest as [|c rest]; simpl; [auto|]. intros H.
  assert (Hh : is_hex c = false).
  { destruct (is_hex c) eqn:E; [|reflexivity].
    rewrite (is_hex_not_space c E) in H. discriminate. }
  rewrite Hh. simpl.
  assert (Hx : forall d, isspace d = false -> Ascii.eqb c d = false).
  { intros d Hd. destruct (Ascii.eqb c d) eqn:E; [|reflexivity].
    apply Ascii.eqb_eq in E. subst. congruence. }
  rewrite (Hx "x"%char eq_refl), (Hx "X"%char eq_refl). reflexivity.
Qed.

(** The fields [sscanf] stores for a well-formed line. *)
Definition fields_of (k : kernel_line) : line_fields :=
  {| f_local_addr := k_local_addr k;
     f_local_port := to_unsigned 16 (digits_value 16 (k_local_port k));
     f_rem_addr := k_rem_addr k;
     f_rem_port := to_unsigned 16 (digits_value 16 (k_rem_port k));
     f_state := to_unsigned 8 (digits_value 16 (k_st k));
     f_inode := to_unsigned 64 (digits_value 10 (k_inode k)) |}.

Ltac field_facts :=
  repeat match goal with
         | H : _ && _ = true |- _ => apply andb_prop in H as [? ?]
         end;
  repeat match goal with
         | H : hex_field _ _ = true |- _ =>
             apply hex_field_text in H as (? & ? & ?); [|lia]
         | H : dec_field _ = true |- _ =>
             apply dec_field_text in H as (? & ? & ?)
         | H : ends_field _ = true |- _ => apply ends_field_stops in H
         end.

Ltac scan_step :=
  first
    [ rewrite sscanf_lit
    | rewrite sscanf_white_space
    | rewrite sscanf_white_indent
    | rewrite sscanf_indent by auto
    | rewrite sscanf_white_text by assumption
    | rewrite sscanf_set by (assumption || reflexivity || lia)
    | rewrite sscanf_hex by (assumption || reflexivity)
    | rewrite sscanf_dec by (assumption || reflexivity) ];
  cbn [stored app].

Lemma scan_line_well_formed w k :
  (0 < w <= 9)%nat -> well_formed w k = true ->
  scan_line (render k) = Some (fields_of k).
Proof.
  intros Hw Hwf. unfold well_formed in Hwf. field_facts.
  unfold scan_line, sscanf, line_format, render.
  repeat scan_step.
  rewrite sscanf_tail. reflexivity.
Qed.


Lemma digit_value_hex c : is_hex c = true -> 0 <= digit_value c < 16.
Proof.
  intros H. pose proof (is_hex_code c H) as Hc. unfold digit_value, is_dec.
  repeat match goal with
         | |- context [?a <=? ?b] => destruct (Z.leb_spec a b)
         end; simpl; lia.
Qed.

Lemma digits_value_bound cs :
  forallb is_hex cs = true ->
  0 <= digits_value 16 cs < 16 ^ Z.of_nat (length cs).
Proof.
  unfold digits_value. intros Hall.
  assert (H : forall acc B, 0 <= acc < B ->
            0 <= fold_left (fun a c => a * 16 + digit_value c) cs acc
              < B * 16 ^ Z.of_nat (length cs)).
  { induction cs as [|c cs IH]; intros acc B Hacc.
    - simpl. lia.
    - simpl in Hall. apply andb_prop in Hall as [Hc Hcs].
      pose proof (digit_value_hex c Hc) as Hd.
      specialize (IH Hcs (acc * 16 + digit_value c) (B * 16) ltac:(lia)).
      cbn [fold_left length]. rewrite Nat2Z.inj_succ, Z.pow_succ_r by lia.
      lia. }
  specialize (H 0 1 ltac:(lia)). lia.
Qed.

Lemma hex_field_value bits w cs :
  forallb is_hex cs = true -> length cs = w -> 16 ^ Z.of_nat w = 2 ^ bits ->
  to_unsigned bits (digits_value 16 cs) = digits_value 16 cs.
Proof.
  intros Hall Hlen Hpow. pose proof (digits_value_bound cs Hall) as Hb.
  rewrite Hlen, Hpow in Hb. unfold to_unsigned. apply Z.mod_small. exact Hb.
Qed.

(** A well-formed line with addresses of 8 hexadecimal characters is
    accepted, and [create_new_conn] makes of its fields a record that
    holds the values of its columns. *)
Lemma ipv4_line_parsed protocol k w :
  well_formed 8 k = true ->
  exists f w' c,
    scan_line (render k) = Some f /\
    create_new_conn (f_inode f) (f_local_addr f) (f_rem_addr f)
      (f_local_port f) (f_rem_port f) (f_state f) protocol w
    = inr (Some (length (heap w)), w') /\
    heap w' !! length (heap w) = Some (Some c) /\
    tuple c = {| local_ip := digits_value 16 (k_local_addr k);
                 remote_ip := digits_value 16 (k_rem_addr k);
                 local_port := digits_value 16 (k_local_port k);
                 remote_port := digits_value 16 (k_rem_port k);
                 protocol := protocol |} /\
    state c = digits_value 16 (k_st k) /\
    inode c = to_unsigned 64 (digits_value 10 (k_inode k)).
Proof.
  intros Hwf.
  pose proof (scan_line_well_formed 8 k ltac:(lia) Hwf) as Hscan.
  destruct (scan_line_hex _ _ Hscan) as [Hl Hr].
  unfold well_formed in Hwf. field_facts.
  eexists (fields_of k), _, _.
  split; [exact Hscan|].
  split; [apply (create_new_conn_run w _ _ _ _ _ _ _ Hl Hr)|].
  split; [simpl; apply ConnFacts.lookup_new|].
  simpl.
  rewrite (hex_field_value 32 8 (k_local_addr k)) by auto.
  rewrite (hex_field_value 32 8 (k_rem_addr k)) by auto.
  rewrite (hex_field_value 16 4 (k_local_port k)) by auto.
  rewrite (hex_field_value 16 4 (k_rem_port k)) by auto.
  rewrite (hex_field_value 8 2 (k_st k)) by auto.
  auto.
Qed.

Lemma span_n_long p n : forall cs rest,
  forallb p cs = true -> (n <= length cs)%nat ->
  span_n n p (cs ++ rest) = (firstn n cs, skipn n cs ++ rest).
Proof.
  induction n as [|n IH]; intros cs rest Hall Hlen.
  - rewrite take_0, drop_0. simpl. destruct (cs ++ rest); reflexivity.
  - destruct cs as [|c cs]; [simpl in Hlen; lia|].
    simpl in Hall. apply andb_prop in Hall as [Hc Hcs].
    simpl. rewrite Hc, (IH cs rest Hcs ltac:(simpl in Hlen; lia)). reflexivity.
Qed.

Lemma scan_set_long cs rest :
  forallb is_hex cs = true -> (9 <= length cs)%nat ->
  scan_conv (Scanset 9 is_hex) (cs ++ rest)
  = Matched (VStr (firstn 9 cs)) (skipn 9 cs ++ rest).
Proof.
  intros Hall Hlen.
  pose proof (span_n_long is_hex 9 cs rest Hall Hlen) as Hsp.
  destruct cs as [|c cs]; [simpl in Hlen; lia|].
  unfold scan_conv. simpl app in *. cbv iota. rewrite Hsp. reflexivity.
Qed.

(** A line whose addresses are longer than the nine characters the
    buffers take is not accepted. *)
Lemma scan_line_long_address w k :
  (9 < w)%nat -> well_formed w k = true -> scan_line (render k) = None.
Proof.
  intros Hw Hwf. unfold well_formed in Hwf. field_facts.
  unfold scan_line, sscanf, line_format, render.
  do 5 scan_step.
  cbn [sscanf_from]. rewrite scan_set_long by (assumption || lia).
  cbn [stored app].
  destruct (skipn 9 (k_local_addr k)) as [|c rest] eqn:Es.
  { apply (f_equal length) in Es. rewrite length_skipn in Es. simpl in Es. lia. }
  assert (Hc : is_hex c = true).
  { assert (Hin : In c (k_local_addr k)).
    { pose proof (firstn_skipn 9 (k_local_addr k)) as Hsplit.
      rewrite Es in Hsplit. rewrite <- Hsplit.
      apply in_or_app. right. simpl. auto. }
    match goal with
    | H : forallb is_hex (k_local_addr k) = true |- _ =>
        exact (proj1 (forallb_forall _ _) H c Hin)
    end. }
  cbn [sscanf_from app].
  rewrite Ascii.eqb_sym, (hex_not_char c ":" Hc eq_refl).
  reflexivity.
Qed.

(** C6, amended. A well-formed line with IPv4 addresses (8 hexadecimal
    characters) is accepted by the line parser, and [create_new_conn]
    makes of its fields a record whose tuple holds the values of the
    address and port columns, whose state is the value of the state column
    and whose inode is that of the inode column.  A well-formed line with
    IPv6 addresses (32 hexadecimal characters) is not accepted. *)
Theorem ipv4_accepted_ipv6_rejected protocol k4 k6 w :
  well_formed 8 k4 = true -> well_formed 32 k6 = true ->
  (exists f w' c,
     scan_line (render k4) = Some f /\
     create_new_conn (f_inode f) (f_local_addr f) (f_rem_addr f)
       (f_local_port f) (f_rem_port f) (f_state f) protocol w
     = inr (Some (length (heap w)), w') /\
     heap w' !! length (heap w) = Some (Some c) /\
     tuple c = {| local_ip := digits_value 16 (k_local_addr k4);
                  remote_ip := digits_value 16 (k_rem_addr k4);
                  local_port := digits_value 16 (k_local_port k4);
                  remote_port := digits_value 16 (k_rem_port k4);
                  protocol := protocol |} /\
     state c = digits_value 16 (k_st k4) /\
     inode c = to_unsigned 64 (digits_value 10 (k_inode k4))) /\
  scan_line (render k6) = None.
Proof.
  intros H4 H6. split.
  - exact (ipv4_line_parsed protocol k4 w H4).
  - exact (scan_line_long_address 32 k6 ltac:(lia) H6).
Qed.

End KernelLineFacts.

(** ** The connection table on concrete kernel files *)

Module ConnRuns.
Import Conn Scanf Scenario.

Ltac run_all :=
  unfold all_impls;
  repeat match goal with |- Forall _ _ => constructor end;
  vm_compute; repeat split; reflexivity.

(** S2. A listening socket leaves the table empty; once established it is
    in the table. *)
Example listen_then_established :
  Forall (fun impl =>
    let w1 := after started (connection_update impl (tcp_only [line_listen]) TCP) in
    let w2 := after w1 (connection_update impl (tcp_only [line_established]) TCP) in
    result_in w1 (connection_get_by_inode 20911) = Some None /\
    result_in w2 (connection_get_by_inode 20911) = Some (Some 0%nat) /\
    result_in w2 (connection_get_by_tuple tuple_established) = Some (Some 0%nat))
  all_impls.
Proof. run_all. Qed.

(** A socket that stays established is in the table after the first
    update, gone after the second and back, as a new record, after the
    third. *)
Example steady_connection_flickers :
  Forall (fun impl =>
    let files := tcp_only [line_established] in
    let w1 := after started (connection_update impl files TCP) in
    let w2 := after w1 (connection_update impl files TCP) in
    let w3 := after w2 (connection_update impl files TCP) in
    result_in w1 (connection_get_by_inode 20911) = Some (Some 0%nat) /\
    result_in w2 (connection_get_by_inode 20911) = Some None /\
    result_in w3 (connection_get_by_inode 20911) = Some (Some 1%nat))
  all_impls.
Proof. run_all. Qed.

(** C1. Two UDP sockets that share a port have the same tuple and
    different inodes.  After a successful update the record of inode 30001
    is in the table, at address 0, and the lookup by its own tuple returns
    the other record. *)
Theorem shared_tuple_breaks_dual_index :
  Forall (fun impl =>
    let files := udp_only [line_mdns_1; line_mdns_2] in
    let w := after started (connection_update impl files UDP) in
    result_in started (connection_update impl files UDP) = Some true /\
    result_in w (connection_get_by_inode 30001) = Some (Some 0%nat) /\
    result_in w (let* c := load 0 in ret (inode c, tuple c))
      = Some (30001, tuple_mdns) /\
    result_in w (connection_get_by_tuple tuple_mdns) = Some (Some 1%nat))
  all_impls.
Proof. run_all. Qed.

(** C2. Inode 50000 is seen with one tuple, then with another.  The line
    of the second update finds the record by its inode and only marks it
    active: the record keeps the first tuple, no record is created, and
    after the update the second tuple is not in the table. *)
Theorem reused_inode_not_replaced :
  Forall (fun impl =>
    let w1 := after started
                (connection_update impl (tcp_only [line_reuse_1]) TCP) in
    let w1' := after w1 (update_line impl IPPROTO_TCP line_reuse_2) in
    let w2 := after w1 (connection_update impl (tcp_only [line_reuse_2]) TCP) in
    result_in w1 (connection_get_by_tuple tuple_reuse_1) = Some (Some 0%nat) /\
    result_in w1' (let* c := load 0 in ret (tuple c, active c))
      = Some (tuple_reuse_1, true) /\
    result_in w1' (connection_get_by_tuple tuple_reuse_2) = Some None /\
    result_in w1 (connection_update impl (tcp_only [line_reuse_2]) TCP)
      = Some true /\
    result_in w2 (connection_get_by_tuple tuple_reuse_2) = Some None /\
    result_in w2 (let* w := get_world in ret (length (heap w))) = Some 1%nat)
  all_impls.
Proof. run_all. Qed.

(** C3. After one successful update the record of the only connection has
    [use] 1 while two entries of the table hold its address;
    [connection_free] then frees it at the first entry and reads it again
    at the second. *)
Theorem destroy_reads_freed_record :
  Forall (fun impl =>
    let w := after started
               (connection_update impl (tcp_only [line_established]) TCP) in
    result_in w (let* c := load 0 in ret (use c)) = Some 1 /\
    result_in w (let* es := entries in ret (map e_value es))
      = Some [0%nat; 0%nat] /\
    after w connection_free = inl (UseAfterFree 0))
  all_impls.
Proof. run_all. Qed.

(** When the socket of a port is replaced by another one between two
    updates, removing the old record takes the tuple entry of the new one,
    and the table is left with an entry for a freed record. *)
Example rebound_port_leaves_dangling_entry :
  let impl := {| set_replaces := false; remove_frees := false |} in
  let w1 := after started (connection_update impl (udp_only [line_mdns_1]) UDP) in
  let w2 := after w1 (connection_update impl (udp_only [line_mdns_2]) UDP) in
  result_in w2 (connection_get_by_tuple tuple_mdns) = Some (Some 0%nat) /\
  result_in w2 (load 0) = None.
Proof. vm_compute. repeat split; reflexivity. Qed.

(** The one table holds both kinds of key, and [ht_cb_compare] reads the
    first eight bytes behind each: the lookup of inode 0 finds the tuple
    entry of a socket bound to 0.0.0.0 with no peer, whose two addresses
    are eight zero bytes, and returns the record of inode 30001. *)
Example inode_found_in_tuple_bytes :
  Forall (fun impl =>
    let w := after started
               (connection_update impl (udp_only [line_mdns_1]) UDP) in
    result_in w (connection_get_by_inode 0) = Some (Some 0%nat) /\
    result_in w (let* c := load 0 in ret (inode c)) = Some 30001)
  all_impls.
Proof. run_all. Qed.

(** C4, as stated, fails: a connection that is in the first of two
    snapshots and not in the second is in neither index after the second
    update, although both updates succeed. *)
Lemma present_in_first_snapshot_evicted :
  Forall (fun impl =>
    let w1 := after started
                (connection_update impl (tcp_only [line_established]) TCP) in
    let w2 := after w1 (connection_update impl (tcp_only []) TCP) in
    result_in started (connection_update impl (tcp_only [line_established]) TCP)
      = Some true /\
    result_in w1 (connection_update impl (tcp_only []) TCP) = Some true /\
    result_in w1 (connection_get_by_inode 20911) = Some (Some 0%nat) /\
    result_in w2 (connection_get_by_inode 20911) = Some None /\
    result_in w2 (connection_get_by_tuple tuple_established) = Some None)
  all_impls.
Proof. run_all. Qed.

(** C6, as stated, fails: a line with addresses of 32 hexadecimal
    characters stops the [sscanf] after the ninth of them, and the update
    returns an error. *)
Lemma ipv6_line_rejected :
  sscanf line_ipv6 line_format = (1, [VStr (text "000000000")]) /\
  scan_line line_ipv6 = None /\
  Forall (fun impl =>
    result_in started (connection_update impl (tcp_only [line_ipv6]) TCP)
      = Some false /\
    result_in (after started (connection_update impl (tcp_only [line_ipv6]) TCP))
      (connection_get_by_inode 25000) = Some None)
  all_impls.
Proof. split; [|split]; [vm_compute; reflexivity .. | run_all]. Qed.

(** C7, as stated, fails: the same [hashtable_get], with the same key and
    the same table, finds the record or not according to [key_type]; so do
    the two callbacks. *)
Lemma key_type_decides_lookup :
  let c := {| inode := 20911; tuple := tuple_established; state := 1;
              active := false; use := 1 |} in
  let table := [ {| e_key := KTuple tuple_established; e_value := 0%nat; e_conn := 0%nat |};
                 {| e_key := KInode 20911; e_value := 0%nat; e_conn := 0%nat |} ] in
  let w k := {| heap := [Some c]; ht_connections := Table table;
                key_type := k |} in
  result_in (inr (w KEY_INODE)) (hashtable_get (KInode 20911))
    = Some (Some 0%nat) /\
  result_in (inr (w 0)) (hashtable_get (KInode 20911)) = Some None /\
  ht_cb_compare KEY_INODE (MInode 20911 (after_inode c)) (MInode 20911 [])
    = true /\
  ht_cb_compare 0 (MInode 20911 (after_inode c)) (MInode 20911 []) = false /\
  ht_cb_hash_size KEY_INODE 16 = 8 /\
  ht_cb_hash_size 0 16 = 0.
Proof. vm_compute. repeat split; reflexivity. Qed.

Definition impl_chain : hashtable_impl :=
  {| set_replaces := false; remove_frees := false |}.

(** The memory after [connection_init]. *)
Definition fresh : world :=
  {| heap := []; ht_connections := Table []; key_type := 0 |}.

Definition fields_established : line_fields :=
  {| f_local_addr := text "3500007F"; f_local_port := 53;
     f_rem_addr := text "00000000"; f_rem_port := 0;
     f_state := 1; f_inode := 20911 |}.

Lemma fresh_sound : ConnFacts.table_sound fresh.
Proof. exists []. split; [reflexivity | constructor]. Defined.

Lemma malformed_line_aborts_update_witness :
  let files := tcp_only [line_established; line_garbage] in
  ConnFacts.malformed files TCP /\
  exists w',
    connection_update impl_chain files TCP fresh = inr (false, w') /\
    ConnFacts.kept fresh w' /\
    ConnFacts.answers w' 20911.
Proof.
  assert (Hm : ConnFacts.malformed
                 (tcp_only [line_established; line_garbage]) TCP).
  { left. split; [vm_compute; discriminate|].
    exists header, [line_established; line_garbage]. split; [reflexivity|].
    apply Exists_cons_tl, Exists_cons_hd. vm_compute. reflexivity. }
  assert (Hr : ConnFacts.read_file
                 (PATH_TCP (tcp_only [line_established; line_garbage]))
               = [fields_established]) by (vm_compute; reflexivity).
  split; [exact Hm|].
  destruct (ConnFacts.malformed_line_aborts_update impl_chain _ TCP fresh Hm)
    as [(w' & Hrun & Hk & Hans) | (f & Hrun & _)].
  - exists w'. split; [exact Hrun|]. split; [exact Hk|].
    apply (Hans fields_established); [|reflexivity].
    left. split; [vm_compute; discriminate|].
    rewrite Hr. apply list_elem_of_here.
  - vm_compute in Hrun. discriminate Hrun.
Defined.


Example columns_render :
  KernelLine.render columns_established = line_established.
Proof. vm_compute. reflexivity. Qed.

Example columns_ipv6_render :
  KernelLine.render columns_ipv6 = line_ipv6.
Proof. vm_compute. reflexivity. Qed.

Lemma ipv4_accepted_ipv6_rejected_witness :
  KernelLine.well_formed 8 columns_established = true /\
  KernelLine.well_formed 32 columns_ipv6 = true /\
  (exists f w' c,
     scan_line (KernelLine.render columns_established) = Some f /\
     create_new_conn (f_inode f) (f_local_addr f) (f_rem_addr f)
       (f_local_port f) (f_rem_port f) (f_state f) IPPROTO_TCP fresh
     = inr (Some 0%nat, w') /\
     heap w' !! 0%nat = Some (Some c) /\
     tuple c = tuple_established /\ state c = 1 /\ inode c = 20911) /\
  scan_line (KernelLine.render columns_ipv6) = None.
Proof.
  split; [reflexivity|]. split; [reflexivity|].
  exact (KernelLineFacts.ipv4_accepted_ipv6_rejected IPPROTO_TCP
           columns_established columns_ipv6 fresh eq_refl eq_refl).
Defined.

Definition world_of (r : fault + world) : world :=
  match r with
  | inr w => w
  | inl _ => boot
  end.

(** Inode 20911 in the first snapshot, inode 50000 in the second. *)
Definition first_snapshot : procnet := tcp_only [line_established].
Definition second_snapshot : procnet := tcp_only [line_reuse_1].

Definition after_first : world :=
  world_of (after (inr fresh)
              (connection_update impl_chain first_snapshot TCP)).

Definition after_second : world :=
  world_of (after (inr after_first)
              (connection_update impl_chain second_snapshot TCP)).

Definition fields_reuse_1 : line_fields :=
  {| f_local_addr := text "0100007F"; f_local_port := 0x1F90;
     f_rem_addr := text "0100007F"; f_rem_port := 0xC000;
     f_state := 1; f_inode := 50000 |}.

Lemma seen_tcp_only line f i t :
  scan_line line = Some f ->
  Aging.seen (tcp_only [line]) TCP i t ->
  i = f_inode f /\ t = ConnFacts.tuple_of f IPPROTO_TCP.
Proof.
  intros Hs [[_ (l & f' & Hl & Hs' & _ & Hi & Ht)] | [Hreq _]].
  - apply list_elem_of_singleton in Hl. subst l.
    rewrite Hs in Hs'. inversion Hs'; subst f'. auto.
  - exfalso. apply Hreq. reflexivity.
Defined.

Lemma fresh_well_indexed : Aging.well_indexed fresh.
Proof.
  exists []. split; [reflexivity|]. split; [constructor|].
  intros e He. inversion He.
Defined.

Lemma snapshots_share_no_tuple :
  Aging.one_inode_per_tuple
    (fun i t => Aging.recorded fresh i t \/
                Aging.seen first_snapshot TCP i t \/
                Aging.seen second_snapshot TCP i t).
Proof.
  assert (H1 : scan_line line_established = Some fields_established)
    by (vm_compute; reflexivity).
  assert (H2 : scan_line line_reuse_1 = Some fields_reuse_1)
    by (vm_compute; reflexivity).
  assert (Hrec : forall i t, ~ Aging.recorded fresh i t).
  { intros i t (es & e & c & Ht & He & _). simpl in Ht.
    inversion Ht; subst es. inversion He. }
  intros i i' t [Ha|[Ha|Ha]] [Hb|[Hb|Hb]];
    try (destruct (Hrec _ _ Ha)); try (destruct (Hrec _ _ Hb));
    repeat match goal with
           | H : Aging.seen first_snapshot TCP _ _ |- _ =>
               apply (seen_tcp_only _ _ _ _ H1) in H; destruct H
           | H : Aging.seen second_snapshot TCP _ _ |- _ =>
               apply (seen_tcp_only _ _ _ _ H2) in H; destruct H
           end; subst; try reflexivity; discriminate.
Defined.

Lemma snapshots_unmixed :
  Aging.unmixed
    (fun i t => Aging.recorded fresh i t \/
                Aging.seen first_snapshot TCP i t \/
                Aging.seen second_snapshot TCP i t).
Proof.
  assert (H1 : scan_line line_established = Some fields_established)
    by (vm_compute; reflexivity).
  assert (H2 : scan_line line_reuse_1 = Some fields_reuse_1)
    by (vm_compute; reflexivity).
  assert (Hrec : forall i t, ~ Aging.recorded fresh i t).
  { intros i t (es & e & c & Ht & He & _). simpl in Ht.
    inversion Ht; subst es. inversion He. }
  intros i t i' t' [Ha|[Ha|Ha]] [Hb|[Hb|Hb]];
    try (destruct (Hrec _ _ Ha)); try (destruct (Hrec _ _ Hb));
    repeat match goal with
           | H : Aging.seen first_snapshot TCP _ _ |- _ =>
               apply (seen_tcp_only _ _ _ _ H1) in H; destruct H
           | H : Aging.seen second_snapshot TCP _ _ |- _ =>
               apply (seen_tcp_only _ _ _ _ H2) in H; destruct H
           end; subst; vm_compute; discriminate.
Defined.

Lemma aging_after_two_updates_witness :
  let S := fun i t => Aging.recorded fresh i t \/
                      Aging.seen first_snapshot TCP i t \/
                      Aging.seen second_snapshot TCP i t in
  Aging.well_indexed fresh /\
  Aging.one_inode_per_tuple S /\
  Aging.unmixed S /\
  connection_update impl_chain first_snapshot TCP fresh
  = inr (true, after_first) /\
  connection_update impl_chain second_snapshot TCP after_first
  = inr (true, after_second) /\
  (forall i, (forall t, ~ Aging.seen second_snapshot TCP i t) ->
     (forall j u, S j u -> tuple_head u <> i) ->
     connection_get_by_inode i after_second
     = inr (None, with_key_type KEY_INODE after_second)) /\
  (forall t, (forall i, ~ Aging.seen second_snapshot TCP i t) ->
     (forall j u, S j u -> j <> tuple_head t) ->
     connection_get_by_tuple t after_second
     = inr (None, with_key_type KEY_TUPLE after_second)) /\
  (forall i t, Aging.seen second_snapshot TCP i t ->
     (forall t', ~ Aging.recorded after_first i t') ->
     exists p c,
       ConnFacts.live after_second p c /\ inode c = i /\
       Aging.seen second_snapshot TCP i (tuple c) /\
       connection_get_by_inode i after_second
       = inr (Some p, with_key_type KEY_INODE after_second) /\
       connection_get_by_tuple (tuple c) after_second
       = inr (Some p, with_key_type KEY_TUPLE after_second)).
Proof.
  assert (U1 : connection_update impl_chain first_snapshot TCP fresh
               = inr (true, after_first)) by (vm_compute; reflexivity).
  assert (U2 : connection_update impl_chain second_snapshot TCP after_first
               = inr (true, after_second)) by (vm_compute; reflexivity).
  split; [exact fresh_well_indexed|].
  split; [exact snapshots_share_no_tuple|].
  split; [exact snapshots_unmixed|].
  split; [exact U1|]. split; [exact U2|].
  exact (Aging.aging_after_two_updates impl_chain first_snapshot TCP
           second_snapshot TCP fresh after_first after_second
           fresh_well_indexed snapshots_share_no_tuple snapshots_unmixed
           U1 U2).
Defined.

Example second_snapshot_replaces_first :
  connection_get_by_inode 20911 after_second
  = inr (None, with_key_type KEY_INODE after_second) /\
  connection_get_by_inode 50000 after_second
  = inr (Some 1%nat, with_key_type KEY_INODE after_second) /\
  connection_get_by_tuple tuple_reuse_1 after_second
  = inr (Some 1%nat, with_key_type KEY_TUPLE after_second).
Proof. vm_compute. repeat split; reflexivity. Qed.

End ConnRuns.

(** ** What [%d] prints and reads back *)

Module PrintfRoundTrip.
Import CInt Printf Scanf PrintfFacts.

Lemma digit_char_value d :
  0 <= d <= 9 ->
  is_dec (digit_char d) = true /\ digit_value (digit_char d) = d.
Proof.
  intros Hd.
  assert (H : d = 0 \/ d = 1 \/ d = 2 \/ d = 3 \/ d = 4 \/ d = 5 \/ d = 6 \/
              d = 7 \/ d = 8 \/ d = 9) by lia.
  repeat (destruct H as [-> | H]; [split; reflexivity|]).
  subst d. split; reflexivity.
Qed.

Lemma digits_value_snoc base ds c :
  digits_value base (ds ++ [c]) = digits_value base ds * base + digit_value c.
Proof. unfold digits_value. rewrite fold_left_app. reflexivity. Qed.

Lemma digits_value_one base c : digits_value base [c] = digit_value c.
Proof. unfold digits_value. cbn [fold_left]. lia. Qed.

Lemma pow10_succ f : 10 ^ Z.of_nat (S f) = 10 * 10 ^ Z.of_nat f.
Proof. rewrite Nat2Z.inj_succ, Z.pow_succ_r; lia. Qed.

(** What [%d] prints for a number that is not negative: digits only, which
    read back as the number. *)
Lemma dec_digits_read fuel : forall n acc,
  0 <= n < 10 ^ Z.of_nat fuel -> (0 < fuel)%nat ->
  exists ds, dec_digits fuel n acc = ds ++ acc /\ ds <> [] /\
             forallb is_dec ds = true /\ digits_value 10 ds = n.
Proof.
  induction fuel as [|f IH]; intros n acc Hn Hf; [lia|].
  assert (Hm : 0 <= n mod 10 <= 9) by (pose proof (Z.mod_pos_bound n 10); lia).
  destruct (digit_char_value _ Hm) as [Hdec Hval].
  pose proof (Z.div_mod n 10 ltac:(lia)) as Hdm.
  cbn [dec_digits]. cbv zeta. destruct (Z.eqb_spec (n / 10) 0) as [E|E].
  - exists [digit_char (n mod 10)]. split; [reflexivity|]. split; [discriminate|].
    split; [cbn [forallb]; rewrite Hdec; reflexivity|].
    rewrite digits_value_one, Hval. lia.
  - rewrite pow10_succ in Hn.
    assert (Hq : 0 <= n / 10 < 10 ^ Z.of_nat f).
    { split; [apply Z.div_pos; lia|]. apply Z.div_lt_upper_bound; lia. }
    assert (Hf' : (0 < f)%nat).
    { destruct f; [|lia]. change (10 ^ Z.of_nat 0) with 1 in Hq. lia. }
    destruct (IH (n / 10) (digit_char (n mod 10) :: acc) Hq Hf')
      as (ds & Heq & Hne & Hall & Hv).
    exists (ds ++ [digit_char (n mod 10)]). split.
    { rewrite Heq, <- app_assoc. reflexivity. }
    split; [destruct ds; discriminate|]. split.
    { rewrite forallb_app, Hall. cbn [forallb]. rewrite Hdec. reflexivity. }
    rewrite digits_value_snoc, Hv, Hval. lia.
Qed.

Lemma dec_of_nonneg_read n :
  0 <= n < 10 ^ 10 ->
  dec_of_nonneg n <> [] /\ forallb is_dec (dec_of_nonneg n) = true /\
  digits_value 10 (dec_of_nonneg n) = n.
Proof.
  intros Hn. destruct (dec_digits_read 10 n [] Hn ltac:(lia))
    as (ds & Heq & Hne & Hall & Hv).
  unfold dec_of_nonneg. rewrite Heq, app_nil_r. auto.
Qed.
Lemma digits_value_zeros k ds :
  digits_value 10 (repeat "0"%char k ++ ds) = digits_value 10 ds.
Proof.
  unfold digits_value. rewrite fold_left_app. f_equal.
  induction k as [|k IH]; [reflexivity|].
  cbn [repeat fold_left]. exact IH.
Qed.

Lemma fmt_0d_read w n :
  0 <= n < 10 ^ 10 ->
  forallb is_dec (fmt_0d w n) = true /\ digits_value 10 (fmt_0d w n) = n.
Proof.
  intros Hn. destruct (dec_of_nonneg_read n Hn) as (_ & Hall & Hv).
  unfold fmt_0d. destruct (Z.ltb_spec n 0); [lia|]. unfold zero_pad. split.
  - rewrite forallb_app, Hall, andb_true_r. apply forallb_forall.
    intros c Hc. apply repeat_spec in Hc. subst c. reflexivity.
  - rewrite digits_value_zeros. exact Hv.
Qed.

End PrintfRoundTrip.

(** ** [sec2clock] on every argument *)

Module TimerBounds.
Import CInt Printf Scanf Timer CIntFacts PrintfFacts TimerFacts PrintfRoundTrip.

Lemma fmt_0d_2_signed n :
  - 10 ^ 6 < n < 10 ^ 6 -> (length (fmt_0d 2 n) <= 7)%nat.
Proof.
  intros Hn. unfold fmt_0d. destruct (Z.ltb_spec n 0).
  - cbn [length]. unfold zero_pad. rewrite length_app, repeat_length.
    pose proof (dec_digits_length 10 6 (- n) [] ltac:(lia) ltac:(simpl; lia)) as Hl.
    unfold dec_of_nonneg. simpl length in *. lia.
  - pose proof (fmt_0d_2_bound n 6 ltac:(lia) ltac:(simpl; lia)) as Hl.
    unfold fmt_0d in Hl. destruct (Z.ltb_spec n 0); [lia|]. lia.
Qed.

Lemma to_int_range x : - 2 ^ 31 <= to_int x < 2 ^ 31.
Proof.
  unfold to_int, to_signed.
  pose proof (Z.mod_pos_bound x (2 ^ 32) ltac:(lia)) as Hm.
  change (32 - 1) with 31.
  destruct (Z.ltb_spec (x mod 2 ^ 32) (2 ^ 31)); lia.
Qed.

Lemma minute_second secs :
  0 <= clock_minute secs < 60 /\ 0 <= clock_second secs < 60 /\
  clock_minute secs * 60 + clock_second secs = secs mod 3600.
Proof.
  unfold clock_minute, clock_second.
  assert (Hr : 0 <= secs mod 3600 < 3600) by (apply Z.mod_pos_bound; lia).
  rewrite (to_int_small (secs mod 3600)) by lia.
  rewrite Z.quot_div_nonneg, Z.rem_mod_nonneg by lia.
  assert (0 <= secs mod 3600 mod 60 < 60) by (apply Z.mod_pos_bound; lia).
  assert (0 <= secs mod 3600 / 60 < 60).
  { split; [apply Z.div_pos; lia|]. apply Z.div_lt_upper_bound; lia. }
  pose proof (Z.div_mod (secs mod 3600) 60 ltac:(lia)). lia.
Qed.

Lemma hour_range secs : - 10 ^ 6 < clock_hour secs < 10 ^ 6.
Proof.
  unfold clock_hour. pose proof (to_int_range secs) as Hr.
  pose proof (Z.quot_rem' (to_int secs) 3600) as Hq.
  pose proof (Z.rem_bound_abs (to_int secs) 3600 ltac:(lia)). lia.
Qed.

Lemma sec2clock_whole secs :
  sec2clock secs
  = clock_text (clock_hour secs) (clock_minute secs) (clock_second secs).
Proof.
  destruct (minute_second secs) as (Hm & Hs & _).
  unfold sec2clock, clock_text, sec2clock_buf, snprintf_trunc. f_equal.
  apply firstn_all2.
  rewrite !length_app, (fmt_0d_2_small (clock_minute secs)) by lia.
  rewrite (fmt_0d_2_small (clock_second secs)) by lia.
  pose proof (fmt_0d_2_signed (clock_hour secs) (hour_range secs)).
  unfold LEN_BUFF_CLOCK, colon. simpl length. lia.
Qed.

(** X1. The 14 bytes of [clock] are enough for every argument: nothing is cut,
    and the minute and second fields are always those of [secs], also
    when the hour, taken from the low 32 bits, is not. *)
Theorem sec2clock_never_cut secs :
  sec2clock secs
  = clock_text (clock_hour secs) (clock_minute secs) (clock_second secs) /\
  0 <= clock_minute secs < 60 /\ 0 <= clock_second secs < 60 /\
  clock_minute secs * 60 + clock_second secs = secs mod 3600.
Proof.
  split; [apply sec2clock_whole | apply minute_second].
Qed.

(** X2. From [2^31] on the hour is computed from a negative [int]: the text
    begins with a minus sign. *)
Theorem sec2clock_negative_hour secs :
  2 ^ 31 <= secs <= 2 ^ 32 - 3600 ->
  clock_hour secs = Z.quot (secs - 2 ^ 32) 3600 /\
  clock_hour secs < 0 /\
  exists rest, sec2clock secs = String "-"%char rest.
Proof.
  intros Hs.
  assert (Hi : to_int secs = secs - 2 ^ 32).
  { unfold to_int, to_signed. change (32 - 1) with 31.
    rewrite (Z.mod_small secs) by lia.
    destruct (Z.ltb_spec secs (2 ^ 31)); lia. }
  assert (Hh : clock_hour secs < 0).
  { unfold clock_hour. rewrite Hi.
    pose proof (Z.quot_rem' (secs - 2 ^ 32) 3600) as Hq.
    pose proof (Z.rem_bound_abs (secs - 2 ^ 32) 3600 ltac:(lia)). lia. }
  split; [unfold clock_hour; rewrite Hi; reflexivity|]. split; [exact Hh|].
  unfold sec2clock, sec2clock_buf, snprintf_trunc, fmt_0d at 1.
  destruct (Z.ltb_spec (clock_hour secs) 0); [|lia].
  change (LEN_BUFF_CLOCK - 1)%nat with 13%nat.
  cbn [app firstn string_of_list_ascii]. eexists. reflexivity.
Qed.

Lemma two_chars (l : list ascii) :
  length l = 2%nat -> exists a b, l = [a; b].
Proof.
  destruct l as [|a [|b [|c l]]]; simpl; intros H; try lia. eauto.
Qed.

(** X3. Below a hundred hours the clock has its eight characters: two digits,
    a colon, two digits, a colon, two digits. *)
Theorem sec2clock_fixed_width secs :
  0 <= secs < 360000 ->
  exists h1 h2 m1 m2 s1 s2,
    sec2clock_buf secs = [h1; h2; ":"; m1; m2; ":"; s1; s2]%char /\
    forallb is_dec [h1; h2; m1; m2; s1; s2] = true.
Proof.
  intros Hs.
  destruct (clock_fields secs ltac:(lia)) as (Hh & Hm & Hsec & Hsum).
  assert (Hh' : 0 <= clock_hour secs < 100) by lia.
  destruct (two_chars _ (fmt_0d_2_small _ Hh')) as (h1 & h2 & Eh).
  destruct (two_chars _ (fmt_0d_2_small (clock_minute secs) ltac:(lia)))
    as (m1 & m2 & Em).
  destruct (two_chars _ (fmt_0d_2_small (clock_second secs) ltac:(lia)))
    as (s1 & s2 & Es).
  destruct (fmt_0d_read 2 (clock_hour secs) ltac:(lia)) as [Dh _].
  destruct (fmt_0d_read 2 (clock_minute secs) ltac:(lia)) as [Dm _].
  destruct (fmt_0d_read 2 (clock_second secs) ltac:(lia)) as [Ds _].
  exists h1, h2, m1, m2, s1, s2. unfold sec2clock_buf.
  rewrite Eh, Em, Es in *. split; [reflexivity|].
  cbn [forallb] in *. repeat (apply andb_prop in Dh as [? Dh]).
  repeat (apply andb_prop in Dm as [? Dm]).
  repeat (apply andb_prop in Ds as [? Ds]).
  repeat (apply andb_true_intro; split; [assumption|]). reflexivity.
Qed.

(** X4. Two different durations below [2^31] seconds never print alike. *)
Theorem sec2clock_injective a b :
  0 <= a < 2 ^ 31 -> 0 <= b < 2 ^ 31 -> a <> b ->
  sec2clock a <> sec2clock b.
Proof.
  intros Ha Hb Hab Heq. apply Hab.
  destruct (clock_fields a Ha) as (Hha & Hma & Hsa & Hsuma).
  destruct (clock_fields b Hb) as (Hhb & Hmb & Hsb & Hsumb).
  rewrite (sec2clock_whole a), (sec2clock_whole b) in Heq. unfold clock_text in Heq.
  apply (f_equal list_ascii_of_string) in Heq.
  rewrite !list_ascii_of_string_of_list_ascii in Heq.
  unfold colon in Heq. simpl app in Heq.
  pose proof (fmt_0d_2_small (clock_minute a) ltac:(lia)) as Lma.
  pose proof (fmt_0d_2_small (clock_minute b) ltac:(lia)) as Lmb.
  pose proof (fmt_0d_2_small (clock_second a) ltac:(lia)) as Lsa.
  pose proof (fmt_0d_2_small (clock_second b) ltac:(lia)) as Lsb.
  apply app_inj_2 in Heq as [Hh Hrest].
  2:{ cbn [length]. rewrite !length_app. cbn [length]. lia. }
  inversion Hrest as [Hms]. apply app_inj_1 in Hms as [Hm Hs]; [|lia].
  inversion Hs as [Hs'].
  destruct (fmt_0d_read 2 (clock_hour a) ltac:(lia)) as [_ Va].
  destruct (fmt_0d_read 2 (clock_hour b) ltac:(lia)) as [_ Vb].
  destruct (fmt_0d_read 2 (clock_minute a) ltac:(lia)) as [_ Vma].
  destruct (fmt_0d_read 2 (clock_minute b) ltac:(lia)) as [_ Vmb].
  destruct (fmt_0d_read 2 (clock_second a) ltac:(lia)) as [_ Vsa].
  destruct (fmt_0d_read 2 (clock_second b) ltac:(lia)) as [_ Vsb].
  rewrite Hh in Va. rewrite Hm in Vma. rewrite Hs' in Vsa. lia.
Qed.

End TimerBounds.

(** ** [dir.c]: directory names *)

Module DirProps.
Import CInt Printf Dir CIntFacts PrintfFacts PrintfRoundTrip.

Lemma numeric_entries_take names : forall buffer lenght,
  (length buffer <= lenght)%nat ->
  numeric_entries names buffer lenght
  = firstn lenght (buffer ++ map atoi (List.filter is_number names)).
Proof.
  induction names as [|name rest IH]; intros buffer lenght Hlen.
  - cbn [numeric_entries List.filter map]. rewrite app_nil_r.
    symmetry. apply firstn_all2. exact Hlen.
  - cbn [numeric_entries List.filter].
    destruct (Nat.ltb_spec (length buffer) lenght) as [Hlt|Hge].
    + destruct (is_number name).
      * rewrite IH by (rewrite length_app; simpl; lia).
        cbn [map]. rewrite <- app_assoc. reflexivity.
      * apply IH. exact Hlen.
    + rewrite firstn_app. replace (lenght - length buffer)%nat with 0%nat by lia.
      rewrite firstn_all2 by lia. cbn [firstn]. rewrite app_nil_r. reflexivity.
Qed.

(** X5. [get_numeric_directory] returns, in the order of the directory, the
    numbers of the names made of digits only, and stops at [lenght] of
    them; a directory that cannot be opened gives none. *)
Theorem get_numeric_directory_filter dir lenght :
  get_numeric_directory dir lenght
  = match dir with
    | None => []
    | Some names => firstn lenght (map atoi (List.filter is_number names))
    end /\
  (length (get_numeric_directory dir lenght) <= lenght)%nat.
Proof.
  assert (E : get_numeric_directory dir lenght
              = match dir with
                | None => []
                | Some names =>
                    firstn lenght (map atoi (List.filter is_number names))
                end).
  { destruct dir as [names|]; [|reflexivity].
    unfold get_numeric_directory.
    rewrite numeric_entries_take by (simpl; lia). reflexivity. }
  split; [exact E|]. rewrite E. destruct dir; [|simpl; lia].
  rewrite length_take. lia.
Qed.

(** *** Directory names and the paths built from them *)

Definition name_value (name : list ascii) : Z :=
  fold_left (fun acc c => acc * 10 + (Z.of_nat (nat_of_ascii c) - 48)) name 0.

(** A number as the kernel names a pid or a descriptor: digits, without
    a leading zero. *)
Definition numeral (name : list ascii) : bool :=
  is_number name &&
  match name with
  | [] => false
  | [_] => true
  | c :: _ => negb (Ascii.eqb c "0")
  end.

Lemma isdigit_range c :
  isdigit c = true -> 0 <= Z.of_nat (nat_of_ascii c) - 48 <= 9.
Proof.
  unfold isdigit. cbv zeta. intros H. apply andb_prop in H as [H1 H2].
  apply Z.leb_le in H1, H2. lia.
Qed.

Lemma digit_char_of_digit c :
  isdigit c = true -> digit_char (Z.of_nat (nat_of_ascii c) - 48) = c.
Proof.
  intros H. pose proof (isdigit_range c H) as Hr. unfold digit_char.
  replace (48 + Z.to_nat (Z.of_nat (nat_of_ascii c) - 48))%nat
    with (nat_of_ascii c) by lia.
  apply ascii_nat_embedding.
Qed.

Lemma name_value_snoc name c :
  name_value (name ++ [c])
  = name_value name * 10 + (Z.of_nat (nat_of_ascii c) - 48).
Proof. unfold name_value. rewrite fold_left_app. reflexivity. Qed.

Lemma name_value_bound name :
  is_number name = true -> 0 <= name_value name < 10 ^ Z.of_nat (length name).
Proof.
  induction name as [|c name IH] using rev_ind; intros H.
  - change (name_value []) with 0. simpl. lia.
  - unfold is_number in H. rewrite forallb_app in H.
    apply andb_prop in H as [Hn Hc]. cbn [forallb] in Hc.
    apply andb_prop in Hc as [Hc _].
    pose proof (isdigit_range c Hc). specialize (IH Hn).
    rewrite name_value_snoc, length_app. cbn [length].
    replace (length name + 1)%nat with (S (length name)) by lia.
    rewrite pow10_succ. lia.
Qed.

Lemma name_value_positive c name :
  is_number (c :: name) = true -> Ascii.eqb c "0" = false ->
  1 <= name_value (c :: name).
Proof.
  revert c. induction name as [|d name IH] using rev_ind; intros c H Hc.
  - unfold name_value. cbn [fold_left]. cbn [is_number forallb] in H.
    apply andb_prop in H as [H _]. pose proof (isdigit_range c H) as Hr.
    assert (Z.of_nat (nat_of_ascii c) - 48 <> 0); [|lia].
    intros E. assert (Hn : nat_of_ascii c = 48%nat) by lia.
    apply (f_equal ascii_of_nat) in Hn. rewrite ascii_nat_embedding in Hn.
    subst c. discriminate.
  - change (c :: name ++ [d]) with ((c :: name) ++ [d]) in *.
    unfold is_number in H. rewrite forallb_app in H.
    apply andb_prop in H as [Hn Hd]. cbn [forallb] in Hd.
    apply andb_prop in Hd as [Hd _]. pose proof (isdigit_range d Hd).
    rewrite name_value_snoc. specialize (IH c Hn Hc). lia.
Qed.

Lemma dec_digits_of_name name : forall fuel acc,
  numeral name = true -> (length name <= fuel)%nat ->
  dec_digits fuel (name_value name) acc = name ++ acc.
Proof.
  induction name as [|d init IH] using rev_ind; intros fuel acc Hnum Hlen.
  - unfold numeral in Hnum. rewrite andb_false_r in Hnum. discriminate.
  - unfold numeral in Hnum. apply andb_prop in Hnum as [Hall Hhead].
    pose proof Hall as Hall'. unfold is_number in Hall'.
    rewrite forallb_app in Hall'. apply andb_prop in Hall' as [Hinit Hd].
    cbn [forallb] in Hd. apply andb_prop in Hd as [Hd _].
    pose proof (isdigit_range d Hd) as Hr.
    rewrite length_app in Hlen. cbn [length] in Hlen.
    destruct fuel as [|fuel]; [lia|].
    cbn [dec_digits]. cbv zeta. rewrite name_value_snoc.
    pose proof (name_value_bound init Hinit) as Hb.
    assert (Hmod : (name_value init * 10 + (Z.of_nat (nat_of_ascii d) - 48))
                   mod 10 = Z.of_nat (nat_of_ascii d) - 48).
    { rewrite Z.add_comm, Z.mod_add by lia. apply Z.mod_small. lia. }
    assert (Hdiv : (name_value init * 10 + (Z.of_nat (nat_of_ascii d) - 48))
                   / 10 = name_value init).
    { rewrite Z.add_comm, Z.div_add by lia. rewrite Z.div_small by lia. lia. }
    rewrite Hmod, Hdiv, (digit_char_of_digit d Hd).
    destruct init as [|c init].
    + change (name_value []) with 0. reflexivity.
    + assert (Hc : Ascii.eqb c "0" = false).
      { cbn [app] in Hhead. destruct (init ++ [d]) eqn:E.
        - destruct init; discriminate.
        - apply negb_true_iff in Hhead. exact Hhead. }
      pose proof (name_value_positive c init Hinit Hc) as Hpos.
      destruct (Z.eqb_spec (name_value (c :: init)) 0) as [E|_]; [lia|].
      rewrite IH; [rewrite <- app_assoc; reflexivity| |cbn [length] in *; lia].
      unfold numeral, is_number. rewrite Hinit.
      destruct init; [reflexivity|]. rewrite Hc. reflexivity.
Qed.

(** X6. For a name without leading zero and of at most nine digits,
    printing with [%d] the number [atoi] reads gives the name back: the
    path [main] builds names the directory that was listed. *)
Theorem fmt_d_atoi name :
  numeral name = true -> (length name <= 9)%nat ->
  is_number name = true /\ 0 <= atoi name /\ fmt_d (atoi name) = name.
Proof.
  intros Hnum Hlen. pose proof Hnum as Hn. unfold numeral in Hn.
  apply andb_prop in Hn as [Hall _]. split; [exact Hall|].
  pose proof (name_value_bound name Hall) as Hb.
  assert (Hp : 10 ^ Z.of_nat (length name) <= 10 ^ 9).
  { apply Z.pow_le_mono_r; lia. }
  assert (Ha : atoi name = name_value name).
  { unfold atoi, LONG_MAX. fold (name_value name).
    rewrite Z.min_l by lia. apply to_int_small. lia. }
  rewrite Ha. split; [lia|].
  unfold fmt_d, fmt_0d. destruct (Z.ltb_spec (name_value name) 0); [lia|].
  unfold zero_pad, dec_of_nonneg.
  rewrite dec_digits_of_name by (auto; lia). rewrite app_nil_r. reflexivity.
Qed.

End DirProps.

(** ** [dir.c]: the matching loop when the links are read *)

Module MatchProps.
Import CInt Printf Dir CIntFacts PrintfFacts PrintfRoundTrip DirProps.

(** [p] is the beginning of [a]. *)
Fixpoint is_prefix (p a : list ascii) : bool :=
  match p, a with
  | [], _ => true
  | _ :: _, [] => false
  | cp :: p', ca :: a' => Ascii.eqb ca cp && is_prefix p' a'
  end.

Lemma is_prefix_app p : forall a,
  is_prefix p a = true <-> exists k, a = p ++ k.
Proof.
  induction p as [|cp p IH]; intros a.
  - split; [intros _; exists a; reflexivity | reflexivity].
  - destruct a as [|ca a]; cbn [is_prefix].
    + split; [discriminate | intros (k & E); discriminate].
    + rewrite andb_true_iff, Ascii.eqb_eq, IH. split.
      * intros (-> & k & ->). exists k. reflexivity.
      * intros (k & E). inversion E. eauto.
Qed.

Lemma strncmp_eq_is_prefix bytes : forall a rest,
  NUL ∉ bytes ->
  strncmp_eq a (bytes ++ NUL :: rest) (Z.of_nat (length bytes))
  = is_prefix bytes a.
Proof.
  induction bytes as [|b bytes IH]; intros a rest Hnul.
  - destruct a; reflexivity.
  - assert (Hb : Ascii.eqb b NUL = false).
    { apply Ascii.eqb_neq. intros ->. apply Hnul. left. }
    assert (Hrest : NUL ∉ bytes) by (intros H; apply Hnul; right; exact H).
    assert (Hn : (Z.of_nat (length (b :: bytes)) <=? 0) = false).
    { apply Z.leb_gt. cbn [length]. lia. }
    destruct a as [|ca a]; cbn [strncmp_eq app is_prefix]; rewrite Hn.
    + exact Hb.
    + destruct (Ascii.eqb ca b); [|reflexivity].
      replace (Z.of_nat (length (b :: bytes)) - 1)
        with (Z.of_nat (length bytes)) by (cbn [length]; lia).
      apply IH. exact Hrest.
Qed.

(** The buffer after a [readlink] that succeeds and the store of the
    terminator. *)
Lemma readlink_then_nul fs pid fd buf target :
  link_target fs pid fd = Some target -> length buf = MAX_TEMP ->
  exists rest,
    readlink fs pid fd buf
    = (Z.of_nat (length (firstn 99 target)),
       firstn 99 target ++ skipn (length (firstn 99 target)) buf) /\
    store_nul (Z.of_nat (length (firstn 99 target)))
      (firstn 99 target ++ skipn (length (firstn 99 target)) buf)
    = (firstn 99 target ++ NUL :: rest, []) /\
    length (firstn 99 target ++ NUL :: rest) = MAX_TEMP.
Proof.
  intros Hlink Hlen. unfold readlink. rewrite Hlink.
  set (bytes := firstn 99 target).
  assert (Hb : (length bytes <= 99)%nat).
  { unfold bytes. rewrite length_take. lia. }
  unfold MAX_TEMP in *.
  destruct (skipn (length bytes) buf) as [|x rest] eqn:Hdrop.
  { apply (f_equal (@length ascii)) in Hdrop. rewrite length_drop in Hdrop.
    simpl in Hdrop. lia. }
  assert (Hrest : length rest = (999 - length bytes)%nat).
  { apply (f_equal (@length ascii)) in Hdrop. rewrite length_drop in Hdrop.
    cbn [length] in Hdrop. lia. }
  exists rest. split; [reflexivity|]. split.
  - unfold store_nul.
    assert (Hin : (0 <=? Z.of_nat (length bytes)) &&
                  (Z.of_nat (length bytes)
                   <? Z.of_nat (length (bytes ++ x :: rest))) = true).
    { apply andb_true_intro. split; [apply Z.leb_le; lia|].
      apply Z.ltb_lt. rewrite length_app. cbn [length]. lia. }
    rewrite Hin, Nat2Z.id.
    rewrite insert_app_r_alt by lia. rewrite Nat.sub_diag. reflexivity.
  - rewrite length_app. cbn [length]. lia.
Qed.

Lemma match_inode_readable fs pid fd buf out inode target :
  link_target fs pid fd = Some target -> NUL ∉ target ->
  length buf = MAX_TEMP ->
  exists buf',
    length buf' = MAX_TEMP /\
    match_inode fs pid fd (buf, out) inode
    = (buf', out ++ (if is_prefix (firstn 99 target) (socket_text inode)
                     then [Printed pid inode] else [])).
Proof.
  intros Hlink Hnul Hlen.
  destruct (readlink_then_nul fs pid fd buf target Hlink Hlen)
    as (rest & Hread & Hstore & Hlen').
  exists (firstn 99 target ++ NUL :: rest). split; [exact Hlen'|].
  unfold match_inode. rewrite Hread. cbv beta iota zeta. rewrite Hstore.
  cbv beta iota zeta.
  assert (Hb : (length (firstn 99 target) <= 99)%nat)
    by (rewrite length_take; lia).
  assert (Hu : to_unsigned 64 (Z.of_nat (length (firstn 99 target)))
               = Z.of_nat (length (firstn 99 target))).
  { unfold to_unsigned. apply Z.mod_small. lia. }
  rewrite Hu, strncmp_eq_is_prefix.
  - rewrite app_nil_r. destruct (is_prefix _ _); [reflexivity|].
    rewrite app_nil_r. reflexivity.
  - intros Hin. apply Hnul. rewrite <- (take_drop 99 target).
    apply elem_of_app. left. exact Hin.
Qed.

(** X7. What one iteration of the loop over the inodes does when the link of
    the descriptor is read: the buffer holds the first 99 bytes of the
    target, and the pair is printed exactly when these bytes are the
    beginning of ["socket:[inode]"].  Nothing is stored out of bounds. *)
Theorem readable_fd_matches_prefix fs pid fd buf out inode target :
  link_target fs pid fd = Some target -> NUL ∉ target ->
  length buf = MAX_TEMP ->
  exists buf',
    length buf' = MAX_TEMP /\
    match_inode fs pid fd (buf, out) inode
    = (buf', out ++ (if is_prefix (firstn 99 target) (socket_text inode)
                     then [Printed pid inode] else [])).
Proof. apply match_inode_readable. Qed.

(** *** The whole loop *)

Definition fds_of (fs : procfs) (pid : Z) : list Z :=
  get_numeric_directory (fd_dir fs pid) 1000.

(** Every descriptor the loop visits has a link that can be read. *)
Definition readable (fs : procfs) (process_pids : list Z) : Prop :=
  forall pid fd, pid ∈ process_pids -> fd ∈ fds_of fs pid ->
    exists target, link_target fs pid fd = Some target /\ NUL ∉ target.

Definition in_bounds (st : list ascii * list event) : Prop :=
  length (fst st) = MAX_TEMP.

Lemma elem_of_rev_list {A} (x : A) l : x ∈ rev l <-> x ∈ l.
Proof. rewrite !list_elem_of_In. symmetry. apply in_rev. Qed.

Lemma fold_events {X} (step : list ascii * list event -> X ->
                              list ascii * list event)
    (l : list X) (E : X -> event -> Prop) :
  (forall st x, x ∈ l -> in_bounds st ->
     in_bounds (step st x) /\
     forall ev, ev ∈ snd (step st x) <-> ev ∈ snd st \/ E x ev) ->
  forall st, in_bounds st ->
    in_bounds (fold_left step l st) /\
    forall ev, ev ∈ snd (fold_left step l st) <->
               ev ∈ snd st \/ exists x, x ∈ l /\ E x ev.
Proof.
  induction l as [|x l IH]; intros Hstep st Hst.
  - split; [exact Hst|]. intros ev. cbn [fold_left]. split; [auto|].
    intros [H|(x & Hx & _)]; [exact H | inversion Hx].
  - cbn [fold_left].
    destruct (Hstep st x ltac:(left) Hst) as [Hin Hev].
    destruct (IH (fun st y Hy => Hstep st y ltac:(right; exact Hy))
                (step st x) Hin) as [Hin' Hev'].
    split; [exact Hin'|]. intros ev. rewrite Hev', Hev. split.
    + intros [[H|H]|(y & Hy & H)]; [auto | right | right].
      * exists x. split; [left | exact H].
      * exists y. split; [right; exact Hy | exact H].
    + intros [H|(y & Hy & H)]; [auto|].
      apply elem_of_cons in Hy as [-> | Hy]; [auto|]. right. eauto.
Qed.

Lemma resolve_events fs process_pids inodes temp_buff :
  length temp_buff = MAX_TEMP -> readable fs process_pids ->
  forall ev,
    ev ∈ snd (resolve fs process_pids inodes temp_buff) <->
    exists pid fd inode target,
      ev = Printed pid inode /\
      pid ∈ process_pids /\ fd ∈ fds_of fs pid /\ inode ∈ inodes /\
      link_target fs pid fd = Some target /\
      is_prefix (firstn 99 target) (socket_text inode) = true.
Proof.
  intros Hlen Hread ev. unfold resolve.
  set (E3 := fun pid fd inode ev =>
               exists target, ev = Printed pid inode /\
                 link_target fs pid fd = Some target /\
                 is_prefix (firstn 99 target) (socket_text inode) = true).
  set (E2 := fun pid fd ev => exists inode, inode ∈ inodes /\ E3 pid fd inode ev).
  set (E1 := fun pid ev => exists fd, fd ∈ fds_of fs pid /\ E2 pid fd ev).
  assert (H3 : forall pid fd, pid ∈ process_pids -> fd ∈ fds_of fs pid ->
            forall st inode, inode ∈ inodes -> in_bounds st ->
              in_bounds (match_inode fs pid fd st inode) /\
              forall ev, ev ∈ snd (match_inode fs pid fd st inode) <->
                         ev ∈ snd st \/ E3 pid fd inode ev).
  { intros pid fd Hpid Hfd [buf out] inode _ Hst.
    destruct (Hread pid fd Hpid Hfd) as (target & Hlink & Hnul).
    destruct (match_inode_readable fs pid fd buf out inode target
                Hlink Hnul Hst) as (buf' & Hlen' & Hrun).
    rewrite Hrun. split; [exact Hlen'|]. intros ev'. cbn [snd].
    rewrite elem_of_app. unfold E3. split.
    - intros [H|H]; [auto|]. right. exists target.
      destruct (is_prefix _ _); [|inversion H].
      apply list_elem_of_singleton in H. auto.
    - intros [H|(target' & -> & Hl & Hp)]; [auto|]. right.
      rewrite Hlink in Hl. inversion Hl; subst target'. rewrite Hp. left. }
  assert (H2 : forall pid, pid ∈ process_pids ->
            forall st fd, fd ∈ rev (fds_of fs pid) -> in_bounds st ->
              in_bounds (fold_left (match_inode fs pid fd) inodes st) /\
              forall ev, ev ∈ snd (fold_left (match_inode fs pid fd) inodes st)
                         <-> ev ∈ snd st \/ E2 pid fd ev).
  { intros pid Hpid st fd Hfd Hst.
    apply (proj1 (elem_of_rev_list _ _)) in Hfd.
    exact (fold_events _ inodes (E3 pid fd) (H3 pid fd Hpid Hfd) st Hst). }
  assert (H1 : forall st pid, pid ∈ process_pids -> in_bounds st ->
            in_bounds (match_fds fs pid inodes st (fds_of fs pid)) /\
            forall ev, ev ∈ snd (match_fds fs pid inodes st (fds_of fs pid))
                       <-> ev ∈ snd st \/ E1 pid ev).
  { intros st pid Hpid Hst. unfold match_fds.
    destruct (fold_events _ (rev (fds_of fs pid)) (E2 pid) (H2 pid Hpid) st Hst)
      as [Hin Hev].
    split; [exact Hin|]. intros ev'. rewrite Hev. unfold E1. split.
    - intros [H|(fd & Hfd & H)]; [auto|]. right. exists fd.
      split; [|exact H]. exact (proj1 (elem_of_rev_list _ _) Hfd).
    - intros [H|(fd & Hfd & H)]; [auto|]. right. exists fd.
      split; [|exact H]. exact (proj2 (elem_of_rev_list _ _) Hfd). }
  destruct (fold_events _ process_pids E1 H1 (temp_buff, []) Hlen) as [_ Hev].
  unfold fds_of in Hev at 1. rewrite Hev. cbn [snd]. unfold E1, E2, E3. split.
  - intros [H|(pid & Hpid & fd & Hfd & inode & Hino & target & -> & Hl & Hp)];
      [inversion H|].
    exists pid, fd, inode, target. auto 10.
  - intros (pid & fd & inode & target & -> & Hpid & Hfd & Hino & Hl & Hp).
    right. exists pid. split; [exact Hpid|]. exists fd. split; [exact Hfd|].
    exists inode. split; [exact Hino|]. exists target. auto.
Qed.

(** X8. What the program prints when every link it visits can be read: the
    pair of a process and an inode exactly when one of the descriptors
    of the process has a link whose first 99 bytes are the beginning of
    ["socket:[inode]"]; and it stores nothing out of bounds. *)
Theorem resolve_reports fs process_pids inodes temp_buff ev :
  length temp_buff = MAX_TEMP -> readable fs process_pids ->
  (ev ∈ snd (resolve fs process_pids inodes temp_buff) <->
   exists pid fd inode target,
     ev = Printed pid inode /\
     pid ∈ process_pids /\ fd ∈ fds_of fs pid /\ inode ∈ inodes /\
     link_target fs pid fd = Some target /\
     is_prefix (firstn 99 target) (socket_text inode) = true).
Proof. intros Hlen Hread. apply resolve_events; assumption. Qed.

End MatchProps.

(** ** [dir.c]: links of sockets *)

Module SocketLinks.
Import CInt Printf Dir CIntFacts PrintfFacts PrintfRoundTrip DirProps MatchProps.

(** The target of the link of a socket descriptor, as the kernel writes
    it: the inode in decimal, without sign. *)
Definition socket_link (inode : Z) : list ascii :=
  list_ascii_of_string "socket:[" ++ dec_of_nonneg inode ++ ["]"%char].

Lemma is_dec_not c d :
  Scanf.is_dec c = true -> Scanf.is_dec d = false -> Ascii.eqb d c = false.
Proof.
  intros Hc Hd. apply Ascii.eqb_neq. intros ->. congruence.
Qed.

Lemma prefix_of_digits dm : forall dn,
  forallb Scanf.is_dec dm = true -> forallb Scanf.is_dec dn = true ->
  is_prefix (dm ++ ["]"%char]) (dn ++ ["]"%char]) = true -> dm = dn.
Proof.
  induction dm as [|c dm IH]; intros dn Hm Hn Hp.
  - destruct dn as [|d dn]; [reflexivity|]. cbn [forallb] in Hn.
    apply andb_prop in Hn as [Hd _]. cbn [app is_prefix] in Hp.
    apply andb_prop in Hp as [Hp _]. apply Ascii.eqb_eq in Hp. subst d.
    discriminate.
  - cbn [forallb] in Hm. apply andb_prop in Hm as [Hc Hm].
    destruct dn as [|d dn]; cbn [app is_prefix] in Hp.
    + apply andb_prop in Hp as [Hp _]. apply Ascii.eqb_eq in Hp. subst c.
      discriminate.
    + cbn [forallb] in Hn. apply andb_prop in Hn as [Hd Hn].
      apply andb_prop in Hp as [Hp Hrest]. apply Ascii.eqb_eq in Hp. subst d.
      f_equal. apply IH; assumption.
Qed.

Lemma is_prefix_refl p k : is_prefix p (p ++ k) = true.
Proof. apply is_prefix_app. eauto. Qed.

Lemma dec_of_nonneg_length n :
  0 <= n < 10 ^ 10 -> (length (dec_of_nonneg n) <= 10)%nat.
Proof.
  intros Hn. unfold dec_of_nonneg.
  pose proof (dec_digits_length 10 10 n [] ltac:(lia) Hn) as Hl.
  cbn [length] in Hl. lia.
Qed.

Lemma socket_link_clean m :
  0 <= m < 2 ^ 32 ->
  (NUL ∉ socket_link m) /\ firstn 99 (socket_link m) = socket_link m.
Proof.
  intros Hm. destruct (dec_of_nonneg_read m ltac:(lia)) as (_ & Hall & _).
  pose proof (dec_of_nonneg_length m ltac:(lia)) as Hlen. split.
  - unfold socket_link. rewrite !elem_of_app. intros [H|[H|H]].
    + cbn in H. repeat (apply elem_of_cons in H as [H|H]; [discriminate|]).
      inversion H.
    + apply list_elem_of_In in H.
      pose proof (proj1 (forallb_forall _ _) Hall NUL H). discriminate.
    + apply list_elem_of_singleton in H. discriminate.
  - apply firstn_all2. unfold socket_link. rewrite !length_app.
    cbn [length list_ascii_of_string]. lia.
Qed.

Lemma socket_text_small n :
  0 <= n < 2 ^ 31 -> socket_text n = socket_link n.
Proof.
  intros Hn. unfold socket_text, snprintf_trunc, socket_link.
  rewrite (to_int_small n Hn). unfold fmt_d, fmt_0d.
  destruct (Z.ltb_spec n 0); [lia|]. unfold zero_pad.
  change (repeat "0"%char (0 - length (dec_of_nonneg n))) with (@nil ascii).
  cbn [app]. apply firstn_all2.
  pose proof (dec_of_nonneg_length n ltac:(lia)).
  cbn [length list_ascii_of_string app]. rewrite length_app. cbn [length]. lia.
Qed.

Lemma socket_text_large n :
  2 ^ 31 <= n < 2 ^ 32 ->
  exists tail,
    socket_text n = list_ascii_of_string "socket:[" ++ "-"%char :: tail.
Proof.
  intros Hn. unfold socket_text, snprintf_trunc.
  assert (Hi : to_int n = n - 2 ^ 32).
  { unfold to_int, to_signed. change (32 - 1) with 31.
    rewrite (Z.mod_small n) by lia.
    destruct (Z.ltb_spec n (2 ^ 31)); lia. }
  rewrite Hi. unfold fmt_d, fmt_0d.
  destruct (Z.ltb_spec (n - 2 ^ 32) 0); [|lia].
  change (100 - 1)%nat with 99%nat.
  cbn [list_ascii_of_string app firstn]. eexists. reflexivity.
Qed.

(** X9. The link of a socket is matched by the inode it names and by no
    other; an inode from [2^31] on, which [%d] prints with a minus sign,
    is matched by no link. *)
Theorem socket_link_matches_own_inode fs pid fd buf out m n :
  0 <= m < 2 ^ 32 -> 0 <= n < 2 ^ 32 ->
  link_target fs pid fd = Some (socket_link m) -> length buf = MAX_TEMP ->
  snd (match_inode fs pid fd (buf, out) n)
  = out ++ (if (n =? m) && (n <? 2 ^ 31) then [Printed pid n] else []).
Proof.
  intros Hm Hn Hlink Hlen.
  destruct (socket_link_clean m Hm) as [Hnul Htake].
  destruct (match_inode_readable fs pid fd buf out n (socket_link m)
              Hlink Hnul Hlen) as (buf' & _ & Hrun).
  rewrite Hrun, Htake. cbn [snd]. f_equal.
  destruct (dec_of_nonneg_read m ltac:(lia)) as (Hne & Hdm & Hvm).
  destruct (Z.ltb_spec n (2 ^ 31)) as [Hsmall|Hlarge].
  - rewrite andb_true_r, (socket_text_small n ltac:(lia)).
    destruct (dec_of_nonneg_read n ltac:(lia)) as (_ & Hdn & Hvn).
    destruct (Z.eqb_spec n m) as [->|Hneq].
    + unfold socket_link. rewrite <- (app_nil_r (_ ++ _ ++ _)) at 2.
      rewrite is_prefix_refl. reflexivity.
    + destruct (is_prefix (socket_link m) (socket_link n)) eqn:Hp;
        [|reflexivity].
      exfalso. apply Hneq. unfold socket_link in Hp.
      cbn [list_ascii_of_string app is_prefix] in Hp.
      rewrite !Ascii.eqb_refl in Hp. cbn [andb] in Hp.
      apply prefix_of_digits in Hp; [|assumption|assumption]. congruence.
  - rewrite andb_false_r.
    destruct (socket_text_large n ltac:(lia)) as (tail & ->).
    unfold socket_link. destruct (dec_of_nonneg m) as [|d dm]; [congruence|].
    cbn [forallb] in Hdm. apply andb_prop in Hdm as [Hd _].
    cbn [list_ascii_of_string app is_prefix]. rewrite !Ascii.eqb_refl.
    cbn [andb]. rewrite (is_dec_not d "-"%char Hd eq_refl). reflexivity.
Qed.

End SocketLinks.

(** ** [dir.c]: the inodes of /proc/net/tcp *)

Module InodeFile.
Import CInt Scanf Conn KernelLine Dir ScanfFacts ConnFacts KernelLineFacts.

(** The value of the variable [inode] after each line. *)
Fixpoint inode_values (lines : list (list ascii)) (inode : Z) : list Z :=
  match lines with
  | [] => []
  | line :: rest =>
      scan_inode line inode :: inode_values rest (scan_inode line inode)
  end.

Lemma inode_values_length lines : forall inode,
  length (inode_values lines inode) = length lines.
Proof. induction lines; intros; cbn [inode_values length]; auto. Qed.

Lemma inode_entries_take lines : forall inode buffer lenght,
  (length buffer <= lenght)%nat ->
  inode_entries lines inode buffer lenght
  = firstn lenght (buffer ++ inode_values lines inode).
Proof.
  induction lines as [|line rest IH]; intros inode buffer lenght Hlen.
  - cbn [inode_entries inode_values]. rewrite app_nil_r.
    symmetry. apply firstn_all2. exact Hlen.
  - cbn [inode_entries inode_values]. cbv zeta.
    destruct (Nat.ltb_spec (length buffer) lenght) as [Hlt|Hge].
    + rewrite IH by (rewrite length_app; simpl; lia).
      rewrite <- app_assoc. reflexivity.
    + rewrite firstn_app. replace (lenght - length buffer)%nat with 0%nat by lia.
      rewrite firstn_all2 by lia. cbn [firstn]. rewrite app_nil_r. reflexivity.
Qed.

Lemma get_inodes_values hdr lines inode lenght :
  get_inodes (Some (hdr :: lines)) inode lenght
  = firstn lenght (inode_values lines inode).
Proof.
  unfold get_inodes. rewrite inode_entries_take by (simpl; lia). reflexivity.
Qed.

(** X10. [get_inodes] stores one entry for every line after the header,
    whether the line can be parsed or not, up to [lenght] entries; a file
    that cannot be opened or has no header gives none. *)
Theorem get_inodes_count inode_file inode lenght :
  length (get_inodes inode_file inode lenght)
  = match inode_file with
    | Some (_ :: lines) => Nat.min lenght (length lines)
    | _ => 0%nat
    end.
Proof.
  destruct inode_file as [[|hdr lines]|]; [reflexivity| |reflexivity].
  rewrite get_inodes_values, length_take, inode_values_length. reflexivity.
Qed.

(** *** Lines the kernel writes *)

Lemma scan_inode_well_formed w k inode :
  (0 < w)%nat -> well_formed w k = true -> forallb is_dec (k_tr k) = true ->
  scan_inode (render k) inode = to_unsigned 32 (digits_value 10 (k_inode k)).
Proof.
  intros Hw Hwf Htr. unfold well_formed in Hwf. field_facts.
  unfold scan_inode, sscanf, inode_format, render. cbv zeta.
  repeat scan_step.
  reflexivity.
Qed.

Lemma digits_value_dec_nonneg cs :
  forallb is_dec cs = true -> 0 <= digits_value 10 cs.
Proof.
  unfold digits_value. intros Hall.
  assert (H : forall acc, 0 <= acc ->
            0 <= fold_left (fun a c => a * 10 + digit_value c) cs acc).
  { induction cs as [|c cs IH]; intros acc Hacc; [exact Hacc|].
    cbn [forallb] in Hall. apply andb_prop in Hall as [Hc Hcs].
    cbn [fold_left]. apply (IH Hcs).
    pose proof (digit_value_hex c (is_dec_is_hex c Hc)). lia. }
  apply H. lia.
Qed.

(** The columns of a line of /proc/net/tcp as the kernel writes it for
    IPv4, with the timer column in digits and an inode that fits an
    [unsigned int]. *)
Definition tcp4_line (k : kernel_line) : Prop :=
  well_formed 8 k = true /\ forallb is_dec (k_tr k) = true /\
  digits_value 10 (k_inode k) < 2 ^ 32.

Lemma scan_inode_tcp4 k inode :
  tcp4_line k -> scan_inode (render k) inode = digits_value 10 (k_inode k).
Proof.
  intros (Hwf & Htr & Hlt).
  rewrite (scan_inode_well_formed 8 k inode ltac:(lia) Hwf Htr).
  unfold to_unsigned. apply Z.mod_small. split; [|exact Hlt].
  apply digits_value_dec_nonneg. unfold well_formed in Hwf. field_facts.
  assumption.
Qed.

Lemma inode_values_tcp4 ks : forall inode,
  Forall tcp4_line ks ->
  inode_values (map render ks) inode
  = map (fun k => digits_value 10 (k_inode k)) ks.
Proof.
  intros inode Hall. revert inode.
  induction Hall as [|k ks Hk _ IH]; intros inode; [reflexivity|].
  cbn [map inode_values]. rewrite (scan_inode_tcp4 k inode Hk), IH.
  reflexivity.
Qed.

(** X11. On a file of lines the kernel writes, [get_inodes] returns the
    inode columns of the first [lenght] lines, in order. *)
Theorem get_inodes_well_formed hdr ks inode lenght :
  Forall tcp4_line ks ->
  get_inodes (Some (hdr :: map render ks)) inode lenght
  = firstn lenght (map (fun k => digits_value 10 (k_inode k)) ks).
Proof.
  intros Hall. rewrite get_inodes_values, (inode_values_tcp4 ks inode Hall).
  reflexivity.
Qed.

(** X12. dir.c and connection.c read the same inode from a line the kernel
    writes. *)
Theorem parsers_agree_on_inode k inode :
  tcp4_line k ->
  exists f, scan_line (render k) = Some f /\
            scan_inode (render k) inode = f_inode f.
Proof.
  intros Hk. pose proof Hk as (Hwf & Htr & Hlt).
  exists (fields_of k). split.
  - apply (scan_line_well_formed 8); [lia | exact Hwf].
  - rewrite (scan_inode_tcp4 k inode Hk). cbn [fields_of f_inode].
    unfold to_unsigned. symmetry. apply Z.mod_small. split; [|lia].
    apply digits_value_dec_nonneg. unfold well_formed in Hwf. field_facts.
    assumption.
Qed.

(** *** Lines that do not parse *)

Lemma sscanf_from_result fmt : forall s b args n out,
  sscanf_from fmt s b args = (n, out) ->
  n = Z.of_nat (length out) \/ (n = EOF /\ b = false /\ out = args).
Proof.
  induction fmt as [|d fmt IH]; intros s b args n out H; cbn [sscanf_from] in H.
  - inversion H; subst. auto.
  - destruct d as [|c|t c].
    + apply IH in H. exact H.
    + destruct s as [|c' s].
      * destruct b; inversion H; subst; auto.
      * destruct (Ascii.eqb c c'); [apply IH in H; exact H|].
        inversion H; subst. auto.
    + destruct (scan_conv c s) as [v rest| |].
      * destruct (stored t v) as [v'|].
        -- apply IH in H as [H|(_ & Hb & _)]; [auto | discriminate].
        -- apply IH in H. exact H.
      * inversion H; subst. auto.
      * destruct b; inversion H; subst; auto.
Qed.

Lemma scan_inode_unparsed line inode :
  fst (sscanf line inode_format) <> 14 -> scan_inode line inode = inode.
Proof.
  intros Hrs. unfold scan_inode.
  destruct (sscanf line inode_format) as [n out] eqn:E. cbn [fst snd] in *.
  unfold sscanf in E.
  destruct (sscanf_from_fits _ _ _ _ _ _ E) as (new & Hout & Hfit).
  cbn [app] in Hout. subst new.
  apply Forall2_length in Hfit. rewrite length_take in Hfit.
  change (length (assigned inode_format)) with 14%nat in Hfit.
  assert (Hlen : (length out <= 13)%nat).
  { destruct (sscanf_from_result _ _ _ _ _ _ E) as [Hn|(_ & _ & ->)];
      [lia | simpl; lia]. }
  rewrite (proj2 (nth_error_None out 13) Hlen). reflexivity.
Qed.

Lemma inode_values_lookup lines : forall inode k line,
  lines !! k = Some line ->
  inode_values lines inode !! k
  = Some (scan_inode line
            (match k with
             | O => inode
             | S j => default inode (inode_values lines inode !! j)
             end)).
Proof.
  induction lines as [|l0 rest IH]; intros inode k line Hk; [inversion Hk|].
  destruct k as [|j]; cbn [inode_values].
  - inversion Hk; subst. reflexivity.
  - change ((l0 :: rest) !! S j) with (rest !! j) in Hk.
    change ((?x :: ?l) !! S j) with (l !! j).
    rewrite (IH (scan_inode l0 inode) j line Hk). do 2 f_equal.
    destruct j as [|j']; [reflexivity|].
    change ((?x :: ?l) !! S j') with (l !! j').
    assert (Hlt : (j' < length (inode_values rest (scan_inode l0 inode)))%nat).
    { rewrite inode_values_length. apply lookup_lt_Some in Hk. lia. }
    apply lookup_lt_is_Some_2 in Hlt as [v Hv]. rewrite Hv. reflexivity.
Qed.

(** X13. The result of [sscanf] is not tested: for a line that does not parse,
    [get_inodes] stores again the inode of the line before it, and for a
    first line that does not parse what the variable held on entry. *)
Theorem unparsed_line_repeats_inode hdr lines inode lenght k line :
  lines !! k = Some line -> (k < lenght)%nat ->
  fst (sscanf line inode_format) <> 14 ->
  get_inodes (Some (hdr :: lines)) inode lenght !! k
  = match k with
    | O => Some inode
    | S j => get_inodes (Some (hdr :: lines)) inode lenght !! j
    end.
Proof.
  intros Hk Hlt Hrs. rewrite get_inodes_values.
  rewrite lookup_take_lt by exact Hlt.
  rewrite (inode_values_lookup lines inode k line Hk).
  rewrite (scan_inode_unparsed line _ Hrs).
  destruct k as [|j]; [reflexivity|].
  rewrite lookup_take_lt by lia.
  assert (Hj : (j < length (inode_values lines inode))%nat).
  { rewrite inode_values_length. apply lookup_lt_Some in Hk. lia. }
  apply lookup_lt_is_Some_2 in Hj as [v Hv]. rewrite Hv. reflexivity.
Qed.

End InodeFile.

(** ** [dir.c]: from the listings to the output *)

Module MainProps.
Import CInt Printf Scanf KernelLine Dir DirProps MatchProps InodeFile.

(** X14. From the listing of [/proc/] to the output: on a /proc/net/tcp of
    lines the kernel writes, and when every link visited can be read,
    [main] prints the pair of a process and an inode exactly when the
    process is one of the first [MAX_PROCESS] numeric names, the inode
    is in one of the first [MAX_INODES] lines, and a descriptor of the
    process has a link whose first 99 bytes are the beginning of
    ["socket:[inode]"]. *)
Theorem main_reports names hdr ks fs inode temp_buff ev :
  length temp_buff = MAX_TEMP -> Forall tcp4_line ks ->
  readable fs (firstn MAX_PROCESS (map atoi (List.filter is_number names))) ->
  (ev ∈ main (Some names) (Some (hdr :: map render ks)) fs inode temp_buff <->
   exists pid fd n target,
     ev = Printed pid n /\
     pid ∈ firstn MAX_PROCESS (map atoi (List.filter is_number names)) /\
     fd ∈ fds_of fs pid /\
     n ∈ firstn MAX_INODES (map (fun k => digits_value 10 (k_inode k)) ks) /\
     link_target fs pid fd = Some target /\
     is_prefix (firstn 99 target) (socket_text n) = true).
Proof.
  intros Hlen Hks Hread. unfold main.
  assert (Hp : get_numeric_directory (Some names) MAX_PROCESS
               = firstn MAX_PROCESS (map atoi (List.filter is_number names))).
  { unfold get_numeric_directory.
    rewrite numeric_entries_take by (simpl; lia). reflexivity. }
  assert (Hi : get_inodes (Some (hdr :: map render ks)) inode MAX_INODES
               = firstn MAX_INODES
                   (map (fun k => digits_value 10 (k_inode k)) ks)).
  { rewrite get_inodes_values, (inode_values_tcp4 ks inode Hks).
    reflexivity. }
  rewrite Hp, Hi. apply resolve_events; assumption.
Qed.

End MainProps.

(** ** [connection.c]: when an update fails *)

Module UpdateResult.
Import CInt Scanf Conn ScanfFacts ConnFacts.

Definition parsed (line : list ascii) : Prop := scan_line line <> None.

Lemma all_parsed lines : ~ Exists unparsed lines <-> Forall parsed lines.
Proof.
  unfold parsed, unparsed. split.
  - intros H. apply Forall_forall. intros l Hl E. apply H.
    apply Exists_exists. eauto.
  - intros H HE. apply Exists_exists in HE as (l & Hl & E).
    exact (proj1 (Forall_forall _ _) H l Hl E).
Qed.

(** X15. On a table whose entries point to live records [connection_update_]
    never stops at a fault, and it returns 1 exactly when the file was
    opened, has a header line, and every line after it gives the six
    fields. *)
Theorem update_fails_only_on_bad_input {L : layout} impl file protocol w :
  table_sound w ->
  exists r w',
    connection_update_ impl file protocol w = inr (r, w') /\
    (r = 0 \/ r = 1) /\
    (r = 1 <-> exists hdr lines, file = Some (hdr :: lines) /\
                                 Forall parsed lines).
Proof.
  intros Hs.
  destruct (connection_update__outcome impl file protocol w)
    as [(r & w' & Hrun & _ & Hr & Hiff) | (f & _ & Hst)].
  - exists r, w'. split; [exact Hrun|]. split; [exact Hr|]. rewrite Hiff.
    split; intros (hdr & lines & E & H); exists hdr, lines;
      (split; [exact E | apply all_parsed; exact H]).
  - destruct (stale_not_sound w f Hs Hst).
Qed.

Lemma scan_line_six line f :
  scan_line line = Some f -> fst (sscanf line line_format) = 6.
Proof.
  unfold scan_line. destruct (sscanf line line_format) as [n out].
  cbn [fst]. intros H.
  destruct n as [|p|p]; [discriminate| |discriminate].
  destruct p as [q|q|]; [discriminate| |discriminate].
  destruct q as [r|r|]; [|discriminate|discriminate].
  destruct r; [discriminate|discriminate|reflexivity].
Qed.

Lemma first_conversion fmt line n out :
  sscanf_from (Conv Suppressed Dec :: fmt) line false [] = (n, out) ->
  0 < n -> exists v rest, scan_integer 10 line = Matched v rest.
Proof.
  cbn [sscanf_from scan_conv].
  destruct (scan_integer 10 line) as [v rest| |]; [eauto| |];
    intros H Hn; inversion H; subst; cbn in Hn; unfold EOF in *; lia.
Qed.

(** X16. A line is parsed only if, after white space, it begins with a
    decimal number, with or without sign: an empty line, a line of white
    space and a line of text are rejected. *)
Theorem line_begins_with_number line f :
  scan_line line = Some f ->
  exists c rest,
    skip_space line = c :: rest /\
    (is_dec c = true \/
     ((c = "-"%char \/ c = "+"%char) /\
      exists d rest', rest = d :: rest' /\ is_dec d = true)).
Proof.
  intros Hscan. pose proof (scan_line_six line f Hscan) as Hsix.
  destruct (sscanf line line_format) as [n out] eqn:E. cbn [fst] in Hsix.
  unfold sscanf, line_format in E. cbv zeta in E.
  apply first_conversion in E as (v & rest0 & Hint); [|lia].
  clear Hscan. unfold scan_integer in Hint.
  destruct (skip_space line) as [|c rest]; [discriminate|].
  exists c, rest. split; [reflexivity|].
  unfold strip_sign in Hint. change (10 =? 16) with false in Hint.
  destruct (Ascii.eqb c "-") eqn:Em.
  - apply Ascii.eqb_eq in Em. right. split; [auto|].
    destruct rest as [|d rest']; [discriminate|]. cbn [span] in Hint.
    destruct (is_dec d) eqn:Ed; [eauto | discriminate].
  - destruct (Ascii.eqb c "+") eqn:Ep.
    + apply Ascii.eqb_eq in Ep. right. split; [auto|].
      destruct rest as [|d rest']; [discriminate|]. cbn [span] in Hint.
      destruct (is_dec d) eqn:Ed; [eauto | discriminate].
    + left. cbn [span] in Hint.
      destruct (is_dec c); [reflexivity | discriminate].
Qed.

End UpdateResult.

(** ** [connection.c]: insert, then look up *)

Module InsertLookup.
Import CInt Scanf Conn ScanfFacts ConnFacts.

(** X17. Insert, then look up: after [connection_insert] of a record, whatever
    the table held, the lookup by its inode and the lookup by its tuple
    both return it, with a count of two references. *)
Theorem insert_then_lookup {L : layout} impl w p c es :
  live w p c -> ht_connections w = Table es ->
  exists w',
    connection_insert impl p w = inr (tt, w') /\
    live w' p (with_use 2 c) /\
    connection_get_by_inode (inode c) w'
    = inr (Some p, with_key_type KEY_INODE w') /\
    connection_get_by_tuple (tuple c) w'
    = inr (Some p, with_key_type KEY_TUPLE w').
Proof.
  intros Hl Ht. eexists.
  split; [exact (connection_insert_run impl w p c es Hl Ht)|].
  destruct (lookups_after_insert impl (<[p := Some (with_use 2 c)]> (heap w))
              (inode c) (tuple c) p es) as [Hi Htu].
  split; [|split].
  - unfold live in *. cbn [heap]. apply list_lookup_insert_eq.
    eapply lookup_lt_Some; eauto.
  - erewrite get_by_inode_run by reflexivity. cbn [heap].
    rewrite Hi. reflexivity.
  - erewrite get_by_tuple_run by reflexivity. cbn [heap].
    rewrite Htu. reflexivity.
Qed.

End InsertLookup.

(** ** [connection.c]: [connection_free] on counts that match *)

Module Destroy.
Import CInt Conn ConnFacts.

(** The number of entries of a chain that hold the record at [p]. *)
Definition refs (es : list entry) (p : nat) : nat :=
  length (List.filter (fun e => (e_value e =? p)%nat) es).

(** Every record a chain holds is live and counts the entries that hold
    it. *)
Definition counts_match (es : list entry) (w : world) : Prop :=
  forall p, (0 < refs es p)%nat ->
    exists c, live w p c /\ use c = Z.of_nat (refs es p).

Lemma refs_cons e es p :
  refs (e :: es) p
  = ((if (e_value e =? p)%nat then 1 else 0) + refs es p)%nat.
Proof.
  unfold refs. cbn [List.filter]. destruct (e_value e =? p)%nat; reflexivity.
Qed.

Lemma ht_cb_free_last w p c :
  live w p c -> use c = 1 ->
  ht_cb_free p w = inr (tt, with_heap (<[p := None]> (heap w)) w).
Proof.
  intros Hl Hu. unfold live in Hl.
  assert (Hp : (p < length (heap w))%nat) by (eapply lookup_lt_Some; eauto).
  destruct w as [h t k]. cbn [heap] in *.
  unfold ht_cb_free, bind, load, store, free, ret, with_heap.
  cbn [heap ht_connections key_type]. rewrite Hl. cbn [heap]. rewrite Hl.
  cbn [heap ht_connections key_type]. rewrite Hu.
  change (1 - 1 =? 0) with true. cbv beta iota.
  cbn [heap ht_connections key_type].
  rewrite list_lookup_insert_eq by exact Hp.
  rewrite list_insert_insert_eq. reflexivity.
Qed.

Lemma ht_cb_free_shared w p c :
  live w p c -> use c <> 1 ->
  ht_cb_free p w
  = inr (tt, with_heap (<[p := Some (with_use (use c - 1) c)]> (heap w)) w).
Proof.
  intros Hl Hu. unfold live in Hl.
  destruct w as [h t k]. cbn [heap] in *.
  unfold ht_cb_free, bind, load, store, free, ret, with_heap.
  cbn [heap ht_connections key_type]. rewrite Hl. cbn [heap]. rewrite Hl.
  cbn [heap ht_connections key_type].
  destruct (Z.eqb_spec (use c - 1) 0); [lia|]. reflexivity.
Qed.

Lemma destroy_from_run todo : forall w,
  counts_match todo w ->
  exists w',
    destroy_from todo w = inr (tt, w') /\
    ht_connections w' = ht_connections w /\ key_type w' = key_type w /\
    length (heap w') = length (heap w) /\
    (forall p, (0 < refs todo p)%nat -> heap w' !! p = Some None) /\
    (forall p, refs todo p = 0%nat -> heap w' !! p = heap w !! p).
Proof.
  induction todo as [|e rest IH]; intros w Hm.
  - exists w. split; [reflexivity|]. repeat split; auto.
    intros p Hp. cbn in Hp. lia.
  - set (p0 := e_value e).
    destruct (Hm p0) as (c & Hl & Hu).
    { rewrite refs_cons. unfold p0. rewrite Nat.eqb_refl. lia. }
    rewrite refs_cons in Hu. unfold p0 in Hu at 1. rewrite Nat.eqb_refl in Hu.
    assert (Hp0 : (p0 < length (heap w))%nat) by (eapply lookup_lt_Some; eauto).
    assert (Hstep : exists w1,
              ht_cb_free p0 w = inr (tt, w1) /\
              ht_connections w1 = ht_connections w /\
              key_type w1 = key_type w /\
              length (heap w1) = length (heap w) /\
              (forall p, p <> p0 -> heap w1 !! p = heap w !! p) /\
              (refs rest p0 = 0%nat -> heap w1 !! p0 = Some None) /\
              ((0 < refs rest p0)%nat ->
               exists c1, live w1 p0 c1 /\ use c1 = Z.of_nat (refs rest p0))).
    { destruct (refs rest p0) as [|r] eqn:Er.
      - eexists. split; [apply (ht_cb_free_last w p0 c Hl); lia|].
        cbn. rewrite length_insert. repeat split; auto.
        + intros p Hne. apply list_lookup_insert_ne. auto.
        + intros _. apply list_lookup_insert_eq. exact Hp0.
        + intros H. lia.
      - eexists. split; [apply (ht_cb_free_shared w p0 c Hl); lia|].
        cbn. rewrite length_insert. repeat split; auto.
        + intros p Hne. apply list_lookup_insert_ne. auto.
        + intros H. discriminate.
        + intros _. eexists. split.
          * unfold live. cbn. apply list_lookup_insert_eq. exact Hp0.
          * cbn. lia. }
    destruct Hstep as (w1 & Hrun1 & Ht1 & Hk1 & Hlen1 & Hother & Hgone & Hstill).
    assert (Hm1 : counts_match rest w1).
    { intros p Hp. destruct (Nat.eq_dec p p0) as [->|Hne]; [auto|].
      destruct (Hm p) as (c' & Hl' & Hu').
      { rewrite refs_cons. lia. }
      exists c'. unfold live in *. rewrite (Hother p Hne). split; [exact Hl'|].
      rewrite refs_cons in Hu'. fold p0 in Hu'.
      destruct (Nat.eqb_spec p0 p); [congruence|]. exact Hu'. }
    destruct (IH w1 Hm1) as (w' & Hrun & Ht & Hk & Hlen & Hfreed & Hkept).
    exists w'. cbn [destroy_from]. unfold bind. fold p0. rewrite Hrun1.
    split; [exact Hrun|]. split; [congruence|]. split; [congruence|].
    split; [congruence|]. split.
    + intros p Hp. destruct (Nat.eq_dec (refs rest p) 0%nat) as [Hz|Hnz].
      * rewrite (Hkept p Hz). rewrite refs_cons, Hz in Hp. fold p0 in Hp.
        destruct (Nat.eqb_spec p0 p) as [E|]; [|lia]. rewrite <- E in *.
        apply Hgone. exact Hz.
      * apply Hfreed. lia.
    + intros p Hp. rewrite refs_cons in Hp. fold p0 in Hp.
      destruct (Nat.eqb_spec p0 p) as [|Hne]; [lia|].
      rewrite (Hkept p ltac:(lia)). apply Hother. congruence.
Qed.

(** X18. When every record counts the entries that hold it, as after
    [connection_insert] and before any aging pass, [connection_free]
    stops at no fault, frees each of these records once and touches no
    other record.  It does not reset [ht_connections], which is left
    pointing to the destroyed table: a second [connection_free] hands
    that table to [hashtable_destroy] again. *)
Theorem connection_free_counts_match w es :
  ht_connections w = Table es -> counts_match es w ->
  exists w',
    connection_free w = inr (tt, w') /\
    ht_connections w' = Freed /\
    (forall e, e ∈ es -> heap w' !! e_value e = Some None) /\
    (forall p, refs es p = 0%nat -> heap w' !! p = heap w !! p) /\
    connection_free w' = inl FreedTable.
Proof.
  intros Ht Hm.
  destruct (destroy_from_run es w Hm) as (w1 & Hrun & _ & _ & _ & Hfreed & Hkept).
  exists (with_table Freed w1).
  unfold connection_free, hashtable_destroy, bind, entries. rewrite Ht, Hrun.
  split; [reflexivity|]. split; [reflexivity|]. split; [|split].
  - intros e He. cbn. apply Hfreed. unfold refs.
    assert (Hin : e ∈ List.filter (fun e' => (e_value e' =? e_value e)%nat) es).
    { apply list_elem_of_In, filter_In. split; [apply list_elem_of_In; exact He|].
      apply Nat.eqb_refl. }
    destruct (List.filter _ es); [inversion Hin | cbn; lia].
  - intros p Hp. cbn. apply Hkept. exact Hp.
  - reflexivity.
Qed.

End Destroy.

(** ** [connection.c]: how long a record stays *)

Module Eviction.
Import CInt Scanf Conn ScanfFacts ConnFacts Aging.

Section WithLayout.
Context {L : layout}.

Lemma has_inode_extends n es es' i :
  extends n es es' -> has_inode es i -> has_inode es' i.
Proof.
  intros Hext (e & He & Hk). exists e.
  split; [exact (extends_elem _ _ _ _ Hext He) | exact Hk].
Qed.

Section Created.
Variable impl : hashtable_impl.
Variables S N : Z -> struct_tuple -> Prop.
Variable fresh : nat -> Prop.
Hypothesis S_one : one_inode_per_tuple S.
Hypothesis S_unmixed : unmixed S.

(** The line loop, where [N] is asked only of the lines that make a
    record: those whose inode the chain does not have. *)
Lemma update_lines_created protocol lines : forall w es,
  indexes (during S N fresh) w es ->
  (forall i t, accepted protocol lines i t ->
     S i t /\ (~ has_inode es i -> N i t)) ->
  exists r w' es',
    update_lines impl protocol lines w = inr (r, w') /\
    indexes (during S N fresh) w' es' /\
    extends (length (heap w)) es es'.
Proof.
  induction lines as [|line rest IH]; intros w es Hix Hacc.
  - exists 1, w, es. split; [reflexivity|]. split; [exact Hix|].
    apply extends_refl.
  - assert (Hstep : exists fl w1 es1,
              update_line impl protocol line w = inr (fl, w1) /\
              indexes (during S N fresh) w1 es1 /\
              (length (heap w) <= length (heap w1))%nat /\
              extends (length (heap w)) es es1 /\
              (fl = Continue \/ fl = Exit 0)).
    { destruct (scan_line line) as [f|] eqn:Hscan.
      - destruct (skipped f) eqn:Hskip.
        + exists Continue, w, es.
          split; [eapply update_line_skip; eauto|]. split; [exact Hix|].
          split; [lia|]. split; [apply extends_refl | auto].
        + destruct (Hacc (f_inode f) (tuple_of f protocol)) as [HS HN].
          { exists line, f. split; [apply elem_of_cons; auto | auto]. }
          destruct (find_key KEY_INODE (KInode (f_inode f)) es) as [e|] eqn:Hf.
          * destruct (update_line_hit_indexed impl S N fresh S_unmixed protocol
                        line f w es e Hix Hscan Hskip HS Hf)
              as (w1 & Hrun & Hix1 & Hlen).
            exists Continue, w1, es. split; [exact Hrun|]. split; [exact Hix1|].
            split; [lia|]. split; [apply extends_refl | auto].
          * assert (Hno : ~ has_inode es (f_inode f)).
            { intros (e & He & Hk).
              exact (find_key_None _ _ _ Hf eq_refl e He Hk). }
            destruct (update_line_miss_indexed impl S N fresh S_one S_unmixed protocol
                        line f w es Hix Hscan Hskip HS (HN Hno) Hf)
              as (w1 & Hrun & Hix1 & Hlen).
            eexists Continue, w1, _. split; [exact Hrun|]. split; [exact Hix1|].
            split; [lia|]. split; [|auto].
            eexists [_; _]. split; [reflexivity|]. intros e He.
            rewrite !elem_of_cons in He.
            destruct He as [-> | [-> | He]]; simpl; [lia | lia | inversion He].
      - exists (Exit 0), w, es.
        split; [eapply update_line_bad; eauto|]. split; [exact Hix|].
        split; [lia|]. split; [apply extends_refl | auto]. }
    destruct Hstep as (fl & w1 & es1 & Hrun & Hix1 & Hlen1 & Hext1 & Hfl).
    cbn [update_lines]. unfold bind. rewrite Hrun. destruct Hfl as [-> | ->].
    + destruct (IH w1 es1 Hix1) as (r & w2 & es2 & Hrun2 & Hix2 & Hext2).
      { intros i t (l & f & Hl & Hrest). destruct (Hacc i t) as [HS HN].
        { exists l, f. split; [apply elem_of_cons; auto | exact Hrest]. }
        split; [exact HS|]. intros Hno. apply HN. intros Hhas. apply Hno.
        exact (has_inode_extends _ _ _ _ Hext1 Hhas). }
      exists r, w2, es2. split; [exact Hrun2|]. split; [exact Hix2|].
      eapply extends_trans; eauto.
    + exists 0, w1, es1. split; [reflexivity|]. split; [exact Hix1|].
      exact Hext1.
Qed.

Lemma connection_update__created file protocol w es :
  indexes (during S N fresh) w es ->
  (forall i t, accepted protocol (body file) i t ->
     S i t /\ (~ has_inode es i -> N i t)) ->
  exists r w' es',
    connection_update_ impl file protocol w = inr (r, w') /\
    indexes (during S N fresh) w' es' /\
    extends (length (heap w)) es es'.
Proof.
  intros Hix Hacc.
  assert (Hnone : exists r w' es',
            @ret Z 0 w = inr (r, w') /\ indexes (during S N fresh) w' es' /\
            extends (length (heap w)) es es').
  { exists 0, w, es. split; [reflexivity|]. split; [exact Hix|].
    apply extends_refl. }
  destruct file as [[|hdr lines]|]; cbn [connection_update_ body] in *;
    [exact Hnone| |exact Hnone].
  exact (update_lines_created protocol lines w es Hix Hacc).
Qed.

End Created.

(** After a successful update every record of the table was made by a
    line of [N]; [N] is asked only of lines whose inode the table did not
    have. *)
Lemma update_settles_created impl (S N : Z -> struct_tuple -> Prop) fresh
    files proto w es w' :
  one_inode_per_tuple S ->
  unmixed S ->
  indexes (during S N fresh) w es ->
  (forall i t, seen files proto i t -> S i t /\ (~ has_inode es i -> N i t)) ->
  connection_update impl files proto w = inr (true, w') ->
  exists es', indexes (settled S N) w' es'.
Proof.
  intros HS1 Hunm Hix Hseen Hrun. unfold connection_update in Hrun.
  assert (Htcp : exists r w1 es1,
            (if negb (Z.land proto TCP =? 0)
             then connection_update_ impl (PATH_TCP files) IPPROTO_TCP
             else ret 1) w = inr (r, w1) /\
            indexes (during S N fresh) w1 es1 /\
            extends (length (heap w)) es es1).
  { destruct (Z.eqb_spec (Z.land proto TCP) 0) as [E|E]; cbn [negb].
    - exists 1, w, es. split; [reflexivity|]. split; [exact Hix|].
      apply extends_refl.
    - apply (connection_update__created impl S N fresh HS1 Hunm); [exact Hix|].
      intros i t Hacc. apply Hseen. left. auto. }
  destruct Htcp as (r1 & w1 & es1 & Hrun1 & Hix1 & Hext1).
  unfold bind at 1 in Hrun. rewrite Hrun1 in Hrun.
  destruct (Z.eqb_spec r1 0) as [|Hr1]; [inversion Hrun|].
  assert (Hudp : exists r w2 es2,
            (if negb (Z.land proto UDP =? 0)
             then connection_update_ impl (PATH_UDP files) IPPROTO_UDP
             else ret 1) w1 = inr (r, w2) /\
            indexes (during S N fresh) w2 es2).
  { destruct (Z.eqb_spec (Z.land proto UDP) 0) as [E|E]; cbn [negb].
    - exists 1, w1, es1. split; [reflexivity | exact Hix1].
    - destruct (connection_update__created impl S N fresh HS1 Hunm
                  (PATH_UDP files) IPPROTO_UDP w1 es1 Hix1)
        as (r & w2 & es2 & H1 & H2 & _).
      { intros i t Hacc. destruct (Hseen i t) as [HS HN]; [right; auto|].
        split; [exact HS|]. intros Hno. apply HN. intros Hhas. apply Hno.
        exact (has_inode_extends _ _ _ _ Hext1 Hhas). }
      exists r, w2, es2. auto. }
  destruct Hudp as (r2 & w2 & es2 & Hrun2 & Hix2).
  unfold bind at 1 in Hrun. rewrite Hrun2 in Hrun.
  destruct (Z.eqb_spec r2 0) as [|Hr2]; [inversion Hrun|].
  destruct (aging_pass impl S N fresh w2 es2 Hunm Hix2) as (w3 & es3 & Hrun3 & Hix3 & _).
  unfold bind at 1 in Hrun. rewrite Hrun3 in Hrun.
  inversion Hrun; subst w'. exists es3. exact Hix3.
Qed.

(** X21. A record does not outlive the update after the one that made it:
    after two successful updates in a row, where no tuple belongs to two
    inodes and the first eight bytes of no tuple read as an inode, every
    connection that was in the table between them is in neither index,
    whether the second snapshot shows it or not. *)
Theorem resident_records_evicted impl files1 proto1 files2 proto2 w0 w1 w2 :
  well_indexed w0 ->
  one_inode_per_tuple
    (fun i t => recorded w0 i t \/ seen files1 proto1 i t \/
                seen files2 proto2 i t) ->
  unmixed
    (fun i t => recorded w0 i t \/ seen files1 proto1 i t \/
                seen files2 proto2 i t) ->
  connection_update impl files1 proto1 w0 = inr (true, w1) ->
  connection_update impl files2 proto2 w1 = inr (true, w2) ->
  forall i t, recorded w1 i t ->
    connection_get_by_inode i w2 = inr (None, with_key_type KEY_INODE w2) /\
    connection_get_by_tuple t w2 = inr (None, with_key_type KEY_TUPLE w2).
Proof.
  intros (es0 & Hes0) Hone Hunm Hrun1 Hrun2 i t Hrec.
  set (S := fun i t => recorded w0 i t \/ seen files1 proto1 i t \/
                       seen files2 proto2 i t) in *.
  assert (H0 : indexes (during S (fun _ _ => True) (fun _ => False)) w0 es0).
  { apply indexes_recorded in Hes0.
    eapply indexes_weaken; [|exact Hes0].
    intros p c [Hc Hr]. split; [left; exact Hr|]. split; [exact Hc | tauto]. }
  destruct (update_settles impl S _ _ files1 proto1 w0 es0 w1 Hone Hunm H0
              ltac:(unfold S; auto) Hrun1) as (es1 & Hes1 & _).
  set (N := fun (i : Z) (_ : struct_tuple) => ~ has_inode es1 i).
  assert (H1 : indexes (during S N (fun _ => False)) w1 es1).
  { eapply indexes_weaken; [|exact Hes1].
    intros p c (HS & Hu & _). split; [exact HS|].
    split; [left; exact Hu | tauto]. }
  destruct (update_settles_created impl S N _ files2 proto2 w1 es1 w2 Hone
              Hunm H1)
    as (es2 & Hes2); [|exact Hrun2|].
  { intros j u Hs. split; [unfold S; auto | unfold N; auto]. }
  destruct Hrec as (es & e & c & Ht & He & Hl & Hi & Htu).
  pose proof Hes1 as (Ht1 & _ & Hall1). rewrite Ht in Ht1.
  inversion Ht1; subst es.
  destruct (Hall1 e He) as (c' & Hl' & _ & Hie & _ & HSc & _).
  assert (c' = c) by (unfold live in *; congruence). subst c'.
  assert (Hhas : has_inode es1 i).
  { exists (inode_entry_of (e_value e) c). split; [exact Hie|].
    cbn. rewrite Hi. reflexivity. }
  assert (Hkeys : keys_in S es2).
  { apply (indexes_keys_in S _ w2 es2 (fun p c H => proj1 H) Hes2). }
  rewrite Hi, Htu in HSc.
  pose proof Hes2 as (Ht2 & _). split.
  - rewrite (get_by_inode_apart w2 es2 i Ht2
               (keys_apart_inode S es2 _ Hkeys (unmixed_inode S _ _ Hunm HSc))).
    destruct (find_key KEY_INODE (KInode i) es2) as [e2|] eqn:Hf;
      [|reflexivity].
    destruct (indexes_find_inode _ _ _ _ _ Hes2 Hf)
      as (c2 & _ & Hi2 & _ & _ & _ & HN).
    exfalso. apply HN. rewrite Hi2. exact Hhas.
  - rewrite (get_by_tuple_apart w2 es2 t Ht2
               (keys_apart_tuple S es2 _ Hkeys (unmixed_tuple S _ _ Hunm HSc))).
    destruct (find_key KEY_TUPLE (KTuple t) es2) as [e2|] eqn:Hf;
      [|reflexivity].
    destruct (indexes_find_tuple _ _ _ _ _ Hes2 Hf)
      as (c2 & _ & Ht2' & HS2 & _ & _ & HN).
    exfalso. apply HN. rewrite Ht2' in HS2.
    rewrite (Hone _ _ _ HS2 HSc). exact Hhas.
Qed.

End WithLayout.

End Eviction.

(** ** [show.c]: what the keys keep *)

Module ShowFacts.
Import Show.

Section Screen.
Variables COLS_PAD COLS_TO_SORT COLS LINES : Z.

(** What the keys keep: the horizontal scroll is at column 0 or leaves
    the terminal inside the pad, the selected line is the first one or
    one of the lines shown, the vertical scroll is at least 1 and the
    sort column is one of the columns. *)
Definition in_range (u : ui) : Prop :=
  0 <= scroll_x u /\ (scroll_x u = 0 \/ scroll_x u + COLS < COLS_PAD) /\
  1 <= scroll_y u /\
  1 <= selected u /\ (selected u = 1 \/ selected u <= tot_rows u) /\
  0 <= sort_by u < COLS_TO_SORT.

Lemma press_in_range ch u u' b :
  in_range u -> press COLS_PAD COLS_TO_SORT COLS LINES ch u = Goes_on u' b ->
  in_range u' /\ tot_rows u' = tot_rows u.
Proof.
  unfold in_range. intros (Hx & Hx' & Hy & Hs & Hs' & Hc) Hp.
  destruct ch; cbn [press] in Hp;
    repeat match type of Hp with
           | context [?a <? ?b] => destruct (Z.ltb_spec a b)
           | context [?a <=? ?b] => destruct (Z.leb_spec a b)
           end; cbn [andb] in Hp;
    inversion Hp; subst; cbn; repeat split; lia.
Qed.

Lemma running_input_keeps keys : forall u u',
  in_range u ->
  running_input COLS_PAD COLS_TO_SORT COLS LINES keys u = Some u' ->
  in_range u' /\ tot_rows u' = tot_rows u.
Proof.
  induction keys as [|ch rest IH]; intros u u' Hu Hrun; cbn [running_input] in Hrun.
  - inversion Hrun; subst. auto.
  - destruct (press COLS_PAD COLS_TO_SORT COLS LINES ch u) as [u1 b|] eqn:Hp;
      [|discriminate].
    destruct (press_in_range ch u u1 b Hu Hp) as [Hu1 Ht1].
    destruct (IH u1 u' Hu1 Hrun) as [Hu' Ht']. split; [exact Hu' | congruence].
Qed.

Lemma press_s_sort_by u :
  0 <= sort_by u < COLS_TO_SORT ->
  exists u', press COLS_PAD COLS_TO_SORT COLS LINES KEY_s u = Goes_on u' false /\
    sort_by u' = (sort_by u + 1) mod COLS_TO_SORT /\
    scroll_x u' = scroll_x u /\ scroll_y u' = scroll_y u /\
    selected u' = selected u /\ tot_rows u' = tot_rows u.
Proof.
  intros Hc. eexists. split; [reflexivity|]. cbn. repeat split.
  destruct (Z.ltb_spec (sort_by u + 1) COLS_TO_SORT).
  - symmetry. apply Z.mod_small. lia.
  - replace (sort_by u + 1) with COLS_TO_SORT by lia.
    symmetry. apply Z.mod_same. lia.
Qed.

Lemma ui_eq u u' :
  sort_by u' = sort_by u -> scroll_x u' = scroll_x u ->
  scroll_y u' = scroll_y u -> selected u' = selected u ->
  tot_rows u' = tot_rows u -> u' = u.
Proof. destruct u, u'; cbn; intros; subst; reflexivity. Qed.

Lemma press_s_times n : forall u,
  0 <= sort_by u < COLS_TO_SORT ->
  exists u',
    running_input COLS_PAD COLS_TO_SORT COLS LINES (repeat KEY_s n) u = Some u' /\
    sort_by u' = (sort_by u + Z.of_nat n) mod COLS_TO_SORT /\
    scroll_x u' = scroll_x u /\ scroll_y u' = scroll_y u /\
    selected u' = selected u /\ tot_rows u' = tot_rows u.
Proof.
  induction n as [|n IH]; intros u Hc.
  - exists u. split; [reflexivity|]. rewrite Z.add_0_r, Z.mod_small by lia. auto.
  - destruct (press_s_sort_by u Hc) as (u1 & Hp & Hs & Hx & Hy & Hsel & Ht).
    assert (Hc1 : 0 <= sort_by u1 < COLS_TO_SORT).
    { rewrite Hs. apply Z.mod_pos_bound. lia. }
    destruct (IH u1 Hc1) as (u' & Hrun & Hs' & Hx' & Hy' & Hsel' & Ht').
    exists u'. cbn [repeat running_input]. rewrite Hp. split; [exact Hrun|].
    split; [|repeat split; congruence].
    rewrite Hs', Hs, Zplus_mod_idemp_l. f_equal. lia.
Qed.

End Screen.

(** X22. The key handler keeps the screen variables in range, whatever keys
    are pressed, and does not change the number of lines shown. *)
Theorem running_input_in_range COLS_PAD COLS_TO_SORT COLS LINES keys u u' :
  in_range COLS_PAD COLS_TO_SORT COLS u ->
  running_input COLS_PAD COLS_TO_SORT COLS LINES keys u = Some u' ->
  in_range COLS_PAD COLS_TO_SORT COLS u' /\ tot_rows u' = tot_rows u.
Proof. apply running_input_keeps. Qed.

(** X23. The sort key goes round the columns: after [COLS_TO_SORT] presses of
    [s] everything is as before. *)
Theorem sort_key_cycles COLS_PAD COLS_TO_SORT COLS LINES u :
  0 <= sort_by u < COLS_TO_SORT ->
  running_input COLS_PAD COLS_TO_SORT COLS LINES
    (repeat KEY_s (Z.to_nat COLS_TO_SORT)) u = Some u.
Proof.
  intros Hc.
  destruct (press_s_times COLS_PAD COLS_TO_SORT COLS LINES
              (Z.to_nat COLS_TO_SORT) u Hc)
    as (u' & Hrun & Hs & Hx & Hy & Hsel & Ht).
  rewrite Hrun. f_equal. apply ui_eq; auto.
  rewrite Hs, Z2Nat.id by lia.
  rewrite <- (Z.mul_1_l COLS_TO_SORT) at 1. rewrite Z.mod_add by lia.
  apply Z.mod_small. exact Hc.
Qed.

End ShowFacts.

(** ** [dir.c]: a link that cannot be read *)

Module Unreadable.
Import CInt Printf Dir MatchProps.

(** A step of a loop only adds to what was printed and stored. *)
Definition adds {X} (step : list ascii * list event -> X ->
                            list ascii * list event) : Prop :=
  forall st x, exists evs, snd (step st x) = snd st ++ evs.

Lemma fold_adds {X} (step : list ascii * list event -> X ->
                             list ascii * list event) :
  adds step -> adds (fun st l => fold_left step l st).
Proof.
  intros Hstep st l. revert st. induction l as [|x l IH]; intros st.
  - exists []. cbn [fold_left]. rewrite app_nil_r. reflexivity.
  - cbn [fold_left]. destruct (Hstep st x) as (e1 & H1).
    destruct (IH (step st x)) as (e2 & H2).
    exists (e1 ++ e2). rewrite H2, H1, app_assoc. reflexivity.
Qed.

Lemma fold_event {X} (step : list ascii * list event -> X ->
                              list ascii * list event) l x ev :
  adds step -> x ∈ l -> (forall st, ev ∈ snd (step st x)) ->
  forall st, ev ∈ snd (fold_left step l st).
Proof.
  intros Hstep Hx Hev st.
  apply list_elem_of_split in Hx as (l1 & l2 & ->).
  rewrite fold_left_app. cbn [fold_left].
  destruct (fold_adds step Hstep (step (fold_left step l1 st) x) l2)
    as (evs & Hgrow).
  cbn beta in Hgrow. rewrite Hgrow. apply elem_of_app. left. apply Hev.
Qed.

Lemma match_inode_adds fs pid fd : adds (match_inode fs pid fd).
Proof.
  intros [buf out] inode. unfold match_inode.
  destruct (readlink fs pid fd buf) as [len buf1].
  destruct (store_nul len buf1) as [buf2 oob].
  destruct (strncmp_eq _ _ _); cbn [snd].
  - exists (oob ++ [Printed pid inode]). rewrite app_assoc. reflexivity.
  - exists oob. reflexivity.
Qed.

Lemma match_inode_unreadable fs pid fd st inode :
  link_target fs pid fd = None ->
  OutOfBounds (-1) ∈ snd (match_inode fs pid fd st inode).
Proof.
  intros Hlink. destruct st as [buf out]. unfold match_inode, readlink.
  rewrite Hlink. unfold store_nul. change (0 <=? -1) with false.
  cbn [andb]. destruct (strncmp_eq _ _ _); cbn [snd];
    rewrite ?elem_of_app, list_elem_of_singleton; auto.
Qed.

(** X24. What the loops do for a descriptor whose link cannot be read:
    [readlink] returns -1, which is not tested, and the terminator is
    stored at [temp_buff[-1]], outside the array, for every such
    descriptor that is visited. *)
Theorem unreadable_fd_stores_out_of_bounds fs process_pids inodes temp_buff
    pid fd inode :
  pid ∈ process_pids -> fd ∈ fds_of fs pid -> inode ∈ inodes ->
  link_target fs pid fd = None ->
  OutOfBounds (-1) ∈ snd (resolve fs process_pids inodes temp_buff).
Proof.
  intros Hpid Hfd Hino Hlink. unfold resolve.
  assert (A3 : forall p f, adds (match_inode fs p f))
    by (intros; apply match_inode_adds).
  assert (A2 : forall p,
            adds (fun st f => fold_left (match_inode fs p f) inodes st)).
  { intros p st f. exact (fold_adds _ (A3 p f) st inodes). }
  assert (A1 : adds (fun st p =>
                       match_fds fs p inodes st
                         (get_numeric_directory (fd_dir fs p) 1000))).
  { intros st p. unfold match_fds. exact (fold_adds _ (A2 p) st _). }
  apply (fold_event _ process_pids pid _ A1 Hpid). intros st.
  unfold match_fds.
  apply (fold_event _ _ fd _ (A2 pid)).
  { apply (proj2 (elem_of_rev_list _ _)). exact Hfd. }
  intros st'.
  apply (fold_event _ inodes inode _ (A3 pid fd) Hino). intros st''.
  apply match_inode_unreadable. exact Hlink.
Qed.

End Unreadable.

(** ** [connection.c]: what happens to a record *)

Module Records.
Import CInt Scanf Conn ScanfFacts ConnFacts Aging.

Section WithLayout.
Context {L : layout}.

(** X25. Reading the lines of a file changes no record that exists: after
    [connection_update_], whatever it returns, a record that was live is
    live at the same address with the inode, tuple, state and count it
    had, and is still active if it was; the tuple of a record is never
    brought up to date. *)
Theorem lines_keep_records impl file protocol w p c :
  table_sound w -> live w p c ->
  exists r w' c',
    connection_update_ impl file protocol w = inr (r, w') /\
    live w' p c' /\
    inode c' = inode c /\ tuple c' = tuple c /\ state c' = state c /\
    use c' = use c /\ (active c = true -> active c' = true).
Proof.
  intros Hs Hl.
  destruct (connection_update__outcome impl file protocol w)
    as [(r & w' & Hrun & (Hslots & _) & _) | (f & _ & Hst)];
    [|destruct (stale_not_sound w f Hs Hst)].
  destruct (Hslots p (Some c) Hl) as (b & Hb & Hkept).
  destruct b as [c'|]; [|destruct Hkept].
  exists r, w', c'. split; [exact Hrun|]. split; [exact Hb|]. exact Hkept.
Qed.

Lemma find_removed kt es e k :
  NoDup (e_key <$> es) -> e ∈ es -> key_kind (e_key e) = kt ->
  find_key k (e_key e) (remove_key kt (e_key e) es) = None.
Proof.
  intros Hnd He Hk.
  destruct (remove_key_nodup kt es e Hnd He Hk) as [_ Hin].
  destruct (find_key k (e_key e) (remove_key kt (e_key e) es))
    as [e'|] eqn:Hf; [|reflexivity].
  apply find_key_Some in Hf as (He' & Hk' & _).
  apply Hin in He' as [_ Hne]. contradiction.
Qed.

Lemma find_after_remove_other k key kt key' es :
  find_key k key es = None ->
  find_key k key (remove_key kt key' es) = None.
Proof.
  induction es as [|e es IH]; cbn [find_key remove_key]; [auto|].
  destruct (same_key k (e_key e) key) eqn:E; [discriminate|].
  intros Hf. destruct (same_key kt (e_key e) key'); [exact Hf|].
  cbn [find_key]. rewrite E. auto.
Qed.

(** X26. What the aging pass does to a record it finds inactive with a
    count of one, in a chain without repeated keys that holds its two
    entries, where the first eight bytes of no tuple key read as its
    inode and no inode key reads as the first eight bytes of its tuple:
    both entries leave the chain, the record is freed, the other records
    are left as they are, and afterwards neither lookup returns it. *)
Theorem dead_record_removed impl w p c es :
  live w p c -> active c = false -> use c = 1 ->
  ht_connections w = Table es -> NoDup (e_key <$> es) ->
  Forall (apart (KInode (inode c))) es ->
  Forall (apart (KTuple (tuple c))) es ->
  inode_entry_of p c ∈ es -> tuple_entry_of p c ∈ es ->
  exists w',
    remove_dead_conn impl p w = inr (0, w') /\
    heap w' !! p = Some None /\
    (forall q, q <> p -> heap w' !! q = heap w !! q) /\
    connection_get_by_inode (inode c) w'
    = inr (None, with_key_type KEY_INODE w') /\
    connection_get_by_tuple (tuple c) w'
    = inr (None, with_key_type KEY_TUPLE w').
Proof.
  intros Hl Ha Hu Ht Hnd Hai Hat Hi Htu.
  rewrite (visit_removes impl w p c es Hl Ha Hu Ht Hnd Hai Hat Hi Htu).
  eexists. split; [reflexivity|].
  assert (Hp : (p < length (heap w))%nat) by (eapply lookup_lt_Some; eauto).
  destruct (remove_key_nodup KEY_INODE es _ Hnd Hi eq_refl) as [Hnd1 Hin1].
  assert (Htu1 : tuple_entry_of p c ∈
                 remove_key KEY_INODE (e_key (inode_entry_of p c)) es).
  { apply Hin1. split; [exact Htu | discriminate]. }
  split; [|split; [|split]].
  - cbn [heap]. apply list_lookup_insert_eq. exact Hp.
  - intros q Hq. cbn [heap]. apply list_lookup_insert_ne. auto.
  - pose proof (find_after_remove_other KEY_INODE _ KEY_TUPLE
                  (KTuple (tuple c)) _
                  (find_removed KEY_INODE es _ KEY_INODE Hnd Hi eq_refl))
      as Hf.
    cbn [e_key inode_entry_of] in Hf.
    erewrite get_by_inode_apart;
      [rewrite Hf; reflexivity | reflexivity |].
    apply Forall_remove_key, Forall_remove_key. exact Hai.
  - pose proof (find_removed KEY_TUPLE _ (tuple_entry_of p c) KEY_TUPLE
                  Hnd1 Htu1 eq_refl) as Hf.
    cbn [e_key inode_entry_of tuple_entry_of] in Hf.
    erewrite get_by_tuple_apart;
      [rewrite Hf; reflexivity | reflexivity |].
    apply Forall_remove_key, Forall_remove_key. exact Hat.
Qed.

End WithLayout.

End Records.

(** ** [show.c]: the lines of the connections *)

Module ShowLines.
Import Show.

(** [k] + 1 lines for the connections from index [i] on, the last one,
    alone, drawn as the last. *)
Fixpoint tree_lines (i k : nat) : list (nat * bool) :=
  match k with
  | O => [(i, true)]
  | S k' => (i, false) :: tree_lines (S i) k'
  end.

Lemma tree_lines_length k : forall i, length (tree_lines i k) = S k.
Proof. induction k as [|k IH]; intros i; cbn [tree_lines length]; auto. Qed.

Lemma tree_lines_closed k : forall i, existsb snd (tree_lines i k) = true.
Proof. induction k as [|k IH]; intros i; cbn [tree_lines existsb snd orb]; auto. Qed.

Section Conections.
Variable conection_t : Type.
Variables avg_Bps_rx avg_Bps_tx tot_Bps_rx : conection_t -> Z.

Lemma conection_lines_shape conection : forall i,
  conection <> [] ->
  exists k,
    (k < length conection)%nat /\
    conection_lines conection_t avg_Bps_rx avg_Bps_tx tot_Bps_rx i conection
    = tree_lines i k /\
    (forall j c, (j < k)%nat -> conection !! (S j) = Some c ->
       next_is_idle conection_t avg_Bps_rx avg_Bps_tx tot_Bps_rx c = false) /\
    (forall c, conection !! (S k) = Some c ->
       next_is_idle conection_t avg_Bps_rx avg_Bps_tx tot_Bps_rx c = true).
Proof.
  induction conection as [|c0 rest IH]; intros i Hne; [congruence|].
  cbn [conection_lines]. cbv zeta. destruct rest as [|next rest'].
  - exists 0%nat. split; [simpl; lia|]. split; [reflexivity|].
    split; [intros j c Hj; lia|]. intros c Hc. inversion Hc.
  - destruct (next_is_idle conection_t avg_Bps_rx avg_Bps_tx tot_Bps_rx next)
      eqn:Hidle.
    + exists 0%nat. split; [simpl; lia|]. split; [reflexivity|].
      split; [intros j c Hj; lia|]. intros c Hc. inversion Hc; subst. exact Hidle.
    + destruct (IH (S i) ltac:(discriminate)) as (k & Hk & Hlines & Hbusy & Hlast).
      exists (S k). split; [cbn [length] in *; lia|]. split.
      { rewrite Hlines. reflexivity. }
      split.
      * intros j c Hj Hc. destruct j as [|j].
        -- inversion Hc; subst. exact Hidle.
        -- apply (Hbusy j c); [lia | exact Hc].
      * intros c Hc. apply Hlast. exact Hc.
Qed.

End Conections.

(** X27. The connections [show_conections] draws are the first ones of
    the array, from index 0 on, at least one and at most all of them;
    the last line drawn, and no other, closes the tree with the corner;
    the loop goes past a connection exactly when the next one is not
    idle; and [tot_rows] grows by the lines drawn and one empty line.
    Without connections nothing is drawn and [tot_rows] is kept. *)
Theorem show_conections_lines conection_t
    (avg_Bps_rx avg_Bps_tx tot_Bps_rx : conection_t -> Z) conection u :
  match conection with
  | [] =>
      show_conections conection_t avg_Bps_rx avg_Bps_tx tot_Bps_rx conection u
      = ([], u)
  | _ :: _ =>
      exists k u',
        (k < length conection)%nat /\
        show_conections conection_t avg_Bps_rx avg_Bps_tx tot_Bps_rx
          conection u
        = (tree_lines 0 k, u') /\
        tot_rows u' = tot_rows u + Z.of_nat (S k) + 1 /\
        sort_by u' = sort_by u /\ scroll_x u' = scroll_x u /\
        scroll_y u' = scroll_y u /\ selected u' = selected u /\
        (forall j c, (j < k)%nat -> conection !! (S j) = Some c ->
           next_is_idle conection_t avg_Bps_rx avg_Bps_tx tot_Bps_rx c
           = false) /\
        (forall c, conection !! (S k) = Some c ->
           next_is_idle conection_t avg_Bps_rx avg_Bps_tx tot_Bps_rx c = true)
  end.
Proof.
  destruct conection as [|c0 rest].
  - unfold show_conections. cbn [conection_lines length existsb].
    destruct u. cbn. rewrite !Z.add_0_r. reflexivity.
  - destruct (conection_lines_shape conection_t avg_Bps_rx avg_Bps_tx
                tot_Bps_rx (c0 :: rest) 0%nat ltac:(discriminate))
      as (k & Hk & Hlines & Hbusy & Hlast).
    eexists k, _. split; [exact Hk|]. unfold show_conections. cbv zeta.
    rewrite Hlines. split; [reflexivity|]. cbn [tot_rows sort_by scroll_x
      scroll_y selected].
    rewrite tree_lines_length, tree_lines_closed.
    repeat split; auto.
Qed.

End ShowLines.

(** ** Runs of the properties above *)

Module Runs.
Import CInt Scanf Conn Dir Show Scenario.

(** *** dir.c *)

(** Every descriptor of every process is the socket with inode 20911. *)
Definition socket_fs : procfs := {|
  fd_dir := fun _ => Some (DirFacts.names ["."; ".."; "3"]%string);
  link_target := fun _ _ => Some (text "socket:[20911]")
|}.

Lemma socket_text_clean : NUL ∉ text "socket:[20911]".
Proof.
  intros H. cbn in H.
  repeat (apply elem_of_cons in H as [H|H]; [discriminate H|]).
  inversion H.
Defined.

Lemma socket_fs_readable pids : MatchProps.readable socket_fs pids.
Proof.
  intros pid fd _ _. exists (text "socket:[20911]").
  split; [reflexivity | exact socket_text_clean].
Defined.

Lemma fmt_d_atoi_witness :
  DirProps.numeral (text "4242") = true /\
  (length (text "4242") <= 9)%nat /\
  is_number (text "4242") = true /\
  0 <= atoi (text "4242") /\
  Printf.fmt_d (atoi (text "4242")) = text "4242".
Proof.
  split; [reflexivity|]. split; [simpl; lia|].
  apply (DirProps.fmt_d_atoi (text "4242")); [reflexivity | simpl; lia].
Defined.

Lemma readable_fd_matches_prefix_witness :
  link_target socket_fs 100 3 = Some (text "socket:[20911]") /\
  (NUL ∉ text "socket:[20911]") /\
  length DirFacts.clean_buff = MAX_TEMP /\
  exists buf',
    length buf' = MAX_TEMP /\
    match_inode socket_fs 100 3 (DirFacts.clean_buff, []) 20911
    = (buf', [] ++ (if MatchProps.is_prefix
                         (firstn 99 (text "socket:[20911]"))
                         (socket_text 20911)
                    then [Printed 100 20911] else [])).
Proof.
  split; [reflexivity|]. split; [exact socket_text_clean|].
  split; [reflexivity|].
  apply (MatchProps.readable_fd_matches_prefix socket_fs 100 3
           DirFacts.clean_buff [] 20911 (text "socket:[20911]"));
    [reflexivity | exact socket_text_clean | reflexivity].
Defined.

Lemma resolve_reports_witness :
  length DirFacts.clean_buff = MAX_TEMP /\
  MatchProps.readable socket_fs [100] /\
  (Printed 100 20911 ∈ snd (resolve socket_fs [100] [20911; 44385]
                               DirFacts.clean_buff) <->
   exists pid fd inode target,
     Printed 100 20911 = Printed pid inode /\
     pid ∈ [100] /\ fd ∈ MatchProps.fds_of socket_fs pid /\
     inode ∈ [20911; 44385] /\
     link_target socket_fs pid fd = Some target /\
     MatchProps.is_prefix (firstn 99 target) (socket_text inode) = true).
Proof.
  split; [reflexivity|]. split; [exact (socket_fs_readable [100])|].
  apply (MatchProps.resolve_reports socket_fs [100] [20911; 44385]
           DirFacts.clean_buff (Printed 100 20911));
    [reflexivity | exact (socket_fs_readable [100])].
Defined.

Lemma socket_link_matches_own_inode_witness :
  0 <= 20911 < 2 ^ 32 /\ 0 <= 20911 < 2 ^ 32 /\
  link_target socket_fs 100 3 = Some (SocketLinks.socket_link 20911) /\
  length DirFacts.clean_buff = MAX_TEMP /\
  snd (match_inode socket_fs 100 3 (DirFacts.clean_buff, []) 20911)
  = [] ++ (if (20911 =? 20911) && (20911 <? 2 ^ 31)
           then [Printed 100 20911] else []).
Proof.
  split; [lia|]. split; [lia|]. split; [reflexivity|]. split; [reflexivity|].
  apply (SocketLinks.socket_link_matches_own_inode socket_fs 100 3
           DirFacts.clean_buff [] 20911 20911);
    [lia | lia | reflexivity | reflexivity].
Defined.

Lemma columns_established_tcp4 : InodeFile.tcp4_line columns_established.
Proof.
  split; [reflexivity|]. split; [reflexivity|]. vm_compute. reflexivity.
Defined.

Lemma get_inodes_well_formed_witness :
  Forall InodeFile.tcp4_line [columns_established] /\
  get_inodes (Some (header :: map KernelLine.render [columns_established]))
    0 MAX_INODES
  = firstn MAX_INODES
      (map (fun k => digits_value 10 (KernelLine.k_inode k))
         [columns_established]).
Proof.
  assert (H : Forall InodeFile.tcp4_line [columns_established]).
  { constructor; [exact columns_established_tcp4 | constructor]. }
  split; [exact H|].
  exact (InodeFile.get_inodes_well_formed header [columns_established] 0
           MAX_INODES H).
Defined.

Lemma parsers_agree_on_inode_witness :
  InodeFile.tcp4_line columns_established /\
  exists f, scan_line (KernelLine.render columns_established) = Some f /\
            scan_inode (KernelLine.render columns_established) 0 = f_inode f.
Proof.
  split; [exact columns_established_tcp4|].
  exact (InodeFile.parsers_agree_on_inode columns_established 0
           columns_established_tcp4).
Defined.

Lemma unparsed_line_repeats_inode_witness :
  [line_established; line_garbage] !! 1%nat = Some line_garbage /\
  (1 < MAX_INODES)%nat /\
  fst (sscanf line_garbage inode_format) <> 14 /\
  get_inodes (Some [header; line_established; line_garbage]) 0 MAX_INODES
    !! 1%nat
  = get_inodes (Some [header; line_established; line_garbage]) 0 MAX_INODES
      !! 0%nat.
Proof.
  assert (Hbad : fst (sscanf line_garbage inode_format) <> 14)
    by (vm_compute; discriminate).
  split; [reflexivity|]. split; [unfold MAX_INODES; lia|]. split; [exact Hbad|].
  apply (InodeFile.unparsed_line_repeats_inode header
           [line_established; line_garbage] 0 MAX_INODES 1 line_garbage);
    [reflexivity | unfold MAX_INODES; lia | exact Hbad].
Defined.

Lemma main_reports_witness :
  let names := DirFacts.names ["."; "100"; "self"]%string in
  length DirFacts.clean_buff = MAX_TEMP /\
  Forall InodeFile.tcp4_line [columns_established] /\
  MatchProps.readable socket_fs
    (firstn MAX_PROCESS (map atoi (List.filter is_number names))) /\
  (Printed 100 20911
     ∈ main (Some names)
         (Some (header :: map KernelLine.render [columns_established]))
         socket_fs 0 DirFacts.clean_buff <->
   exists pid fd n target,
     Printed 100 20911 = Printed pid n /\
     pid ∈ firstn MAX_PROCESS (map atoi (List.filter is_number names)) /\
     fd ∈ MatchProps.fds_of socket_fs pid /\
     n ∈ firstn MAX_INODES
           (map (fun k => digits_value 10 (KernelLine.k_inode k))
              [columns_established]) /\
     link_target socket_fs pid fd = Some target /\
     MatchProps.is_prefix (firstn 99 target) (socket_text n) = true).
Proof.
  assert (H : Forall InodeFile.tcp4_line [columns_established]).
  { constructor; [exact columns_established_tcp4 | constructor]. }
  cbv zeta. split; [reflexivity|]. split; [exact H|].
  split; [apply socket_fs_readable|].
  apply (MainProps.main_reports (DirFacts.names ["."; "100"; "self"]%string)
           header [columns_established] socket_fs 0 DirFacts.clean_buff
           (Printed 100 20911));
    [reflexivity | exact H | apply socket_fs_readable].
Defined.

Lemma unreadable_fd_stores_out_of_bounds_witness :
  100 ∈ [100] /\ 7 ∈ MatchProps.fds_of DirFacts.vanished_fd 100 /\
  20911 ∈ [20911] /\ link_target DirFacts.vanished_fd 100 7 = None /\
  OutOfBounds (-1)
    ∈ snd (resolve DirFacts.vanished_fd [100] [20911] DirFacts.clean_buff).
Proof.
  assert (Hfd : 7 ∈ MatchProps.fds_of DirFacts.vanished_fd 100)
    by (change (7 ∈ [7; 3]); left).
  split; [left|]. split; [exact Hfd|]. split; [left|]. split; [reflexivity|].
  apply (Unreadable.unreadable_fd_stores_out_of_bounds DirFacts.vanished_fd
           [100] [20911] DirFacts.clean_buff 100 7 20911);
    [left | exact Hfd | left | reflexivity].
Defined.

(** *** timer.c *)

Lemma sec2clock_negative_hour_witness :
  2 ^ 31 <= 2 ^ 31 <= 2 ^ 32 - 3600 /\
  Timer.clock_hour (2 ^ 31) = Z.quot (2 ^ 31 - 2 ^ 32) 3600 /\
  Timer.clock_hour (2 ^ 31) < 0 /\
  exists rest, Timer.sec2clock (2 ^ 31) = String "-"%char rest.
Proof.
  split; [lia|]. apply (TimerBounds.sec2clock_negative_hour (2 ^ 31)). lia.
Defined.

Lemma sec2clock_fixed_width_witness :
  0 <= 86399 < 360000 /\
  exists h1 h2 m1 m2 s1 s2,
    Timer.sec2clock_buf 86399 = [h1; h2; ":"; m1; m2; ":"; s1; s2]%char /\
    forallb is_dec [h1; h2; m1; m2; s1; s2] = true.
Proof.
  split; [lia|]. apply (TimerBounds.sec2clock_fixed_width 86399). lia.
Defined.

Lemma sec2clock_injective_witness :
  0 <= 61 < 2 ^ 31 /\ 0 <= 3661 < 2 ^ 31 /\ 61 <> 3661 /\
  Timer.sec2clock 61 <> Timer.sec2clock 3661.
Proof.
  split; [lia|]. split; [lia|]. split; [lia|].
  apply (TimerBounds.sec2clock_injective 61 3661); lia.
Defined.

(** *** connection.c *)

Lemma update_fails_only_on_bad_input_witness :
  let file := Some [header; line_established; line_garbage] in
  ConnFacts.table_sound ConnRuns.fresh /\
  exists r w',
    connection_update_ ConnRuns.impl_chain file IPPROTO_TCP ConnRuns.fresh
    = inr (r, w') /\
    (r = 0 \/ r = 1) /\
    (r = 1 <-> exists hdr lines, file = Some (hdr :: lines) /\
                                 Forall UpdateResult.parsed lines).
Proof.
  cbv zeta. split; [exact ConnRuns.fresh_sound|].
  exact (UpdateResult.update_fails_only_on_bad_input ConnRuns.impl_chain
           (Some [header; line_established; line_garbage]) IPPROTO_TCP
           ConnRuns.fresh ConnRuns.fresh_sound).
Defined.

Lemma line_begins_with_number_witness :
  scan_line line_established = Some ConnRuns.fields_established /\
  exists c rest,
    skip_space line_established = c :: rest /\
    (is_dec c = true \/
     ((c = "-"%char \/ c = "+"%char) /\
      exists d rest', rest = d :: rest' /\ is_dec d = true)).
Proof.
  assert (Hs : scan_line line_established = Some ConnRuns.fields_established)
    by (vm_compute; reflexivity).
  split; [exact Hs|].
  exact (UpdateResult.line_begins_with_number line_established
           ConnRuns.fields_established Hs).
Defined.

(** A record that [create_new_conn] has made and no table entry holds
    yet. *)
Definition created : world :=
  {| heap := [Some {| inode := 20911; tuple := tuple_established;
                      state := 1; active := true; use := 0 |}];
     ht_connections := Table []; key_type := 0 |}.

Lemma insert_then_lookup_witness :
  let c := {| inode := 20911; tuple := tuple_established;
              state := 1; active := true; use := 0 |} in
  ConnFacts.live created 0 c /\ ht_connections created = Table [] /\
  exists w',
    connection_insert ConnRuns.impl_chain 0 created = inr (tt, w') /\
    ConnFacts.live w' 0 (with_use 2 c) /\
    connection_get_by_inode (inode c) w'
    = inr (Some 0%nat, with_key_type KEY_INODE w') /\
    connection_get_by_tuple (tuple c) w'
    = inr (Some 0%nat, with_key_type KEY_TUPLE w').
Proof.
  cbv zeta. split; [reflexivity|]. split; [reflexivity|].
  exact (InsertLookup.insert_then_lookup ConnRuns.impl_chain created 0 _ []
           eq_refl eq_refl).
Defined.

(** The memory after the lines of a file are read and before any aging
    pass: one record, held by two entries. *)
Definition unaged : world :=
  {| heap := [Some (ConnFacts.conn_of ConnRuns.fields_established IPPROTO_TCP)];
     ht_connections :=
       Table [ {| e_key := KTuple tuple_established; e_value := 0; e_conn := 0 |};
              {| e_key := KInode 20911; e_value := 0; e_conn := 0 |} ];
     key_type := KEY_TUPLE |}.

Example unaged_is_reached :
  connection_update_ ConnRuns.impl_chain (Some [header; line_established])
    IPPROTO_TCP ConnRuns.fresh = inr (1, unaged).
Proof. vm_compute. reflexivity. Qed.

Lemma unaged_counts_match :
  Destroy.counts_match
    [ {| e_key := KTuple tuple_established; e_value := 0; e_conn := 0 |};
      {| e_key := KInode 20911; e_value := 0; e_conn := 0 |} ] unaged.
Proof.
  intros p Hp. destruct p as [|p].
  - eexists. split; reflexivity.
  - cbn in Hp. lia.
Defined.

Lemma connection_free_counts_match_witness :
  let es := [ {| e_key := KTuple tuple_established; e_value := 0%nat; e_conn := 0%nat |};
              {| e_key := KInode 20911; e_value := 0%nat; e_conn := 0%nat |} ] in
  ht_connections unaged = Table es /\ Destroy.counts_match es unaged /\
  exists w',
    connection_free unaged = inr (tt, w') /\
    ht_connections w' = Freed /\
    (forall e, e ∈ es -> heap w' !! e_value e = Some None) /\
    (forall p, Destroy.refs es p = 0%nat -> heap w' !! p = heap unaged !! p) /\
    connection_free w' = inl FreedTable.
Proof.
  cbv zeta. split; [reflexivity|]. split; [exact unaged_counts_match|].
  exact (Destroy.connection_free_counts_match unaged _ eq_refl
           unaged_counts_match).
Defined.

Lemma first_snapshot_shares_no_tuple :
  Aging.one_inode_per_tuple
    (fun i t => Aging.recorded ConnRuns.fresh i t \/
                Aging.seen ConnRuns.first_snapshot TCP i t).
Proof.
  intros i i' t Ha Hb.
  apply (ConnRuns.snapshots_share_no_tuple i i' t);
    [destruct Ha; [left | right; left] | destruct Hb; [left | right; left]];
    assumption.
Defined.

Lemma first_snapshot_unmixed :
  Aging.unmixed
    (fun i t => Aging.recorded ConnRuns.fresh i t \/
                Aging.seen ConnRuns.first_snapshot TCP i t).
Proof.
  intros i t i' t' Ha Hb.
  apply (ConnRuns.snapshots_unmixed i t i' t');
    [destruct Ha; [left | right; left] | destruct Hb; [left | right; left]];
    assumption.
Defined.

Lemma first_update_runs :
  connection_update ConnRuns.impl_chain ConnRuns.first_snapshot TCP
    ConnRuns.fresh = inr (true, ConnRuns.after_first).
Proof. vm_compute. reflexivity. Defined.

Lemma second_update_runs :
  connection_update ConnRuns.impl_chain ConnRuns.second_snapshot TCP
    ConnRuns.after_first = inr (true, ConnRuns.after_second).
Proof. vm_compute. reflexivity. Defined.

Lemma update_keeps_well_indexed_witness :
  Aging.well_indexed ConnRuns.fresh /\
  Aging.one_inode_per_tuple
    (fun i t => Aging.recorded ConnRuns.fresh i t \/
                Aging.seen ConnRuns.first_snapshot TCP i t) /\
  Aging.unmixed
    (fun i t => Aging.recorded ConnRuns.fresh i t \/
                Aging.seen ConnRuns.first_snapshot TCP i t) /\
  connection_update ConnRuns.impl_chain ConnRuns.first_snapshot TCP
    ConnRuns.fresh = inr (true, ConnRuns.after_first) /\
  Aging.well_indexed ConnRuns.after_first.
Proof.
  split; [exact ConnRuns.fresh_well_indexed|].
  split; [exact first_snapshot_shares_no_tuple|].
  split; [exact first_snapshot_unmixed|].
  split; [exact first_update_runs|].
  exact (Aging.update_keeps_well_indexed ConnRuns.impl_chain
           ConnRuns.first_snapshot TCP ConnRuns.fresh true ConnRuns.after_first
           ConnRuns.fresh_well_indexed first_snapshot_shares_no_tuple
           first_snapshot_unmixed first_update_runs).
Defined.

Lemma established_recorded :
  Aging.recorded ConnRuns.after_first 20911 tuple_established.
Proof.
  exists [ {| e_key := KTuple tuple_established; e_value := 0%nat; e_conn := 0%nat |};
           {| e_key := KInode 20911; e_value := 0%nat; e_conn := 0%nat |} ],
         {| e_key := KInode 20911; e_value := 0%nat; e_conn := 0%nat |}.
  eexists. split; [vm_compute; reflexivity|].
  split; [right; left|]. split; [vm_compute; reflexivity|].
  split; reflexivity.
Defined.

Lemma dual_index_after_update_witness :
  Aging.well_indexed ConnRuns.fresh /\
  Aging.one_inode_per_tuple
    (fun i t => Aging.recorded ConnRuns.fresh i t \/
                Aging.seen ConnRuns.first_snapshot TCP i t) /\
  Aging.unmixed
    (fun i t => Aging.recorded ConnRuns.fresh i t \/
                Aging.seen ConnRuns.first_snapshot TCP i t) /\
  connection_update ConnRuns.impl_chain ConnRuns.first_snapshot TCP
    ConnRuns.fresh = inr (true, ConnRuns.after_first) /\
  Aging.recorded ConnRuns.after_first 20911 tuple_established /\
  exists p c,
    ConnFacts.live ConnRuns.after_first p c /\ inode c = 20911 /\
    tuple c = tuple_established /\
    connection_get_by_inode 20911 ConnRuns.after_first
    = inr (Some p, with_key_type KEY_INODE ConnRuns.after_first) /\
    connection_get_by_tuple tuple_established ConnRuns.after_first
    = inr (Some p, with_key_type KEY_TUPLE ConnRuns.after_first).
Proof.
  split; [exact ConnRuns.fresh_well_indexed|].
  split; [exact first_snapshot_shares_no_tuple|].
  split; [exact first_snapshot_unmixed|].
  split; [exact first_update_runs|]. split; [exact established_recorded|].
  exact (Aging.dual_index_after_update ConnRuns.impl_chain
           ConnRuns.first_snapshot TCP ConnRuns.fresh ConnRuns.after_first
           ConnRuns.fresh_well_indexed first_snapshot_shares_no_tuple
           first_snapshot_unmixed first_update_runs 20911 tuple_established established_recorded).
Defined.

(** The second snapshot shows the connection of the first again. *)
Lemma same_snapshot_shares_no_tuple :
  Aging.one_inode_per_tuple
    (fun i t => Aging.recorded ConnRuns.fresh i t \/
                Aging.seen ConnRuns.first_snapshot TCP i t \/
                Aging.seen ConnRuns.first_snapshot TCP i t).
Proof.
  intros i i' t Ha Hb.
  apply (first_snapshot_shares_no_tuple i i' t);
    [destruct Ha as [?|[?|?]]; [left | right | right]
    |destruct Hb as [?|[?|?]]; [left | right | right]]; assumption.
Defined.

Lemma same_snapshot_unmixed :
  Aging.unmixed
    (fun i t => Aging.recorded ConnRuns.fresh i t \/
                Aging.seen ConnRuns.first_snapshot TCP i t \/
                Aging.seen ConnRuns.first_snapshot TCP i t).
Proof.
  intros i t i' t' Ha Hb.
  apply (first_snapshot_unmixed i t i' t');
    [destruct Ha as [?|[?|?]]; [left | right | right]
    |destruct Hb as [?|[?|?]]; [left | right | right]]; assumption.
Defined.

Definition after_same : world :=
  ConnRuns.world_of
    (after (inr ConnRuns.after_first)
       (connection_update ConnRuns.impl_chain ConnRuns.first_snapshot TCP)).

Lemma same_update_runs :
  connection_update ConnRuns.impl_chain ConnRuns.first_snapshot TCP
    ConnRuns.after_first = inr (true, after_same).
Proof. vm_compute. reflexivity. Defined.

Lemma resident_records_evicted_witness :
  Aging.well_indexed ConnRuns.fresh /\
  Aging.one_inode_per_tuple
    (fun i t => Aging.recorded ConnRuns.fresh i t \/
                Aging.seen ConnRuns.first_snapshot TCP i t \/
                Aging.seen ConnRuns.first_snapshot TCP i t) /\
  Aging.unmixed
    (fun i t => Aging.recorded ConnRuns.fresh i t \/
                Aging.seen ConnRuns.first_snapshot TCP i t \/
                Aging.seen ConnRuns.first_snapshot TCP i t) /\
  connection_update ConnRuns.impl_chain ConnRuns.first_snapshot TCP
    ConnRuns.fresh = inr (true, ConnRuns.after_first) /\
  connection_update ConnRuns.impl_chain ConnRuns.first_snapshot TCP
    ConnRuns.after_first = inr (true, after_same) /\
  Aging.recorded ConnRuns.after_first 20911 tuple_established /\
  connection_get_by_inode 20911 after_same
  = inr (None, with_key_type KEY_INODE after_same) /\
  connection_get_by_tuple tuple_established after_same
  = inr (None, with_key_type KEY_TUPLE after_same).
Proof.
  split; [exact ConnRuns.fresh_well_indexed|].
  split; [exact same_snapshot_shares_no_tuple|].
  split; [exact same_snapshot_unmixed|].
  split; [exact first_update_runs|]. split; [exact same_update_runs|].
  split; [exact established_recorded|].
  exact (Eviction.resident_records_evicted ConnRuns.impl_chain
           ConnRuns.first_snapshot TCP ConnRuns.first_snapshot TCP
           ConnRuns.fresh ConnRuns.after_first after_same
           ConnRuns.fresh_well_indexed same_snapshot_shares_no_tuple
           same_snapshot_unmixed first_update_runs same_update_runs
           20911 tuple_established established_recorded).
Defined.

Lemma unaged_sound : ConnFacts.table_sound unaged.
Proof.
  eexists. split; [reflexivity|].
  constructor; [eexists; split; [reflexivity | right; reflexivity]|].
  constructor; [eexists; split; [reflexivity | left; reflexivity]|].
  constructor.
Defined.

Lemma lines_keep_records_witness :
  let c := ConnFacts.conn_of ConnRuns.fields_established IPPROTO_TCP in
  ConnFacts.table_sound unaged /\ ConnFacts.live unaged 0 c /\
  exists r w' c',
    connection_update_ ConnRuns.impl_chain (Some [header; line_reuse_2])
      IPPROTO_TCP unaged = inr (r, w') /\
    ConnFacts.live w' 0 c' /\
    inode c' = inode c /\ tuple c' = tuple c /\ state c' = state c /\
    use c' = use c /\ (active c = true -> active c' = true).
Proof.
  cbv zeta. split; [exact unaged_sound|]. split; [reflexivity|].
  exact (Records.lines_keep_records ConnRuns.impl_chain
           (Some [header; line_reuse_2]) IPPROTO_TCP unaged 0 _
           unaged_sound eq_refl).
Defined.

(** The record of the first snapshot once the aging pass has been over
    it. *)
Definition aged : connection_t :=
  {| inode := 20911; tuple := tuple_established; state := 1;
     active := false; use := 1 |}.

Definition aged_chain : list entry :=
  [ {| e_key := KTuple tuple_established; e_value := 0; e_conn := 0 |};
    {| e_key := KInode 20911; e_value := 0; e_conn := 0 |} ].

Lemma aged_chain_nodup : NoDup (e_key <$> aged_chain).
Proof.
  apply NoDup_cons. split; [|apply NoDup_singleton].
  intros H. apply list_elem_of_singleton in H. discriminate H.
Defined.

Lemma aged_chain_apart_inode :
  Forall (ConnFacts.apart (KInode (inode aged))) aged_chain.
Proof.
  repeat constructor. unfold ConnFacts.apart. vm_compute. discriminate.
Defined.

Lemma aged_chain_apart_tuple :
  Forall (ConnFacts.apart (KTuple (tuple aged))) aged_chain.
Proof.
  repeat constructor. unfold ConnFacts.apart. vm_compute. discriminate.
Defined.

Lemma dead_record_removed_witness :
  ConnFacts.live ConnRuns.after_first 0 aged /\
  active aged = false /\ use aged = 1 /\
  ht_connections ConnRuns.after_first = Table aged_chain /\
  NoDup (e_key <$> aged_chain) /\
  Forall (ConnFacts.apart (KInode (inode aged))) aged_chain /\
  Forall (ConnFacts.apart (KTuple (tuple aged))) aged_chain /\
  Aging.inode_entry_of 0 aged ∈ aged_chain /\
  Aging.tuple_entry_of 0 aged ∈ aged_chain /\
  exists w',
    remove_dead_conn ConnRuns.impl_chain 0 ConnRuns.after_first
    = inr (0, w') /\
    heap w' !! 0%nat = Some None /\
    (forall q, q <> 0%nat ->
       heap w' !! q = heap ConnRuns.after_first !! q) /\
    connection_get_by_inode (inode aged) w'
    = inr (None, with_key_type KEY_INODE w') /\
    connection_get_by_tuple (tuple aged) w'
    = inr (None, with_key_type KEY_TUPLE w').
Proof.
  assert (Hl : ConnFacts.live ConnRuns.after_first 0 aged)
    by (vm_compute; reflexivity).
  assert (Ht : ht_connections ConnRuns.after_first = Table aged_chain)
    by (vm_compute; reflexivity).
  assert (Hi : Aging.inode_entry_of 0 aged ∈ aged_chain) by (right; left).
  assert (Htu : Aging.tuple_entry_of 0 aged ∈ aged_chain) by left.
  split; [exact Hl|]. split; [reflexivity|]. split; [reflexivity|].
  split; [exact Ht|]. split; [exact aged_chain_nodup|].
  split; [exact aged_chain_apart_inode|].
  split; [exact aged_chain_apart_tuple|].
  split; [exact Hi|]. split; [exact Htu|].
  exact (Records.dead_record_removed ConnRuns.impl_chain ConnRuns.after_first
           0 aged aged_chain Hl eq_refl eq_refl Ht aged_chain_nodup
           aged_chain_apart_inode aged_chain_apart_tuple Hi Htu).
Defined.

(** *** show.c *)

(** A terminal of 80 columns and 24 lines on a pad of 200 columns, seven
    sort columns, three lines shown. *)
Definition screen : ui :=
  {| sort_by := 4; scroll_x := 0; scroll_y := 1; selected := 1;
     tot_rows := 3 |}.

Lemma screen_in_range : ShowFacts.in_range 200 7 80 screen.
Proof. unfold ShowFacts.in_range. cbn. lia. Defined.

Lemma running_input_in_range_witness :
  let keys := [KEY_DOWN; KEY_RIGHT; KEY_s; KEY_UP; KEY_UP; KEY_LEFT] in
  let u' := {| sort_by := 5; scroll_x := 0; scroll_y := 1; selected := 1;
               tot_rows := 3 |} in
  ShowFacts.in_range 200 7 80 screen /\
  running_input 200 7 80 24 keys screen = Some u' /\
  ShowFacts.in_range 200 7 80 u' /\ tot_rows u' = tot_rows screen.
Proof.
  cbv zeta. split; [exact screen_in_range|]. split; [reflexivity|].
  apply (ShowFacts.running_input_in_range 200 7 80 24
           [KEY_DOWN; KEY_RIGHT; KEY_s; KEY_UP; KEY_UP; KEY_LEFT] screen);
    [exact screen_in_range | reflexivity].
Defined.

Lemma sort_key_cycles_witness :
  0 <= sort_by screen < 7 /\
  running_input 200 7 80 24 (repeat KEY_s (Z.to_nat 7)) screen = Some screen.
Proof.
  split; [cbn; lia|].
  apply (ShowFacts.sort_key_cycles 200 7 80 24 screen). cbn. lia.
Defined.

End Runs.
